(** * SAT-algorithms: a shallow embedding of the four solvers, the Sudoku
    variable layout and the Sudoku solver of sudoku_dp.py, with the
    properties of the specification checked against the code.

    Python integers are [Z]; tuples and lists are [list]; a [set] of
    integers is a [gset Z]; a [dict] whose iteration order is observed is an
    insertion-ordered association list, any other [dict] a [gmap]; the
    float that is multiplied and compared is an IEEE 754 binary64 value.
    Exceptions are values of [result].  Loops that the code does not
    bound take a fuel argument. *)

From Stdlib Require Import ZArith QArith Qpower List Lia.
From Stdlib Require SpecFloat.
From stdpp Require Import base option gmap sets list strings sorting pretty.

Close Scope Q_scope.
Open Scope Z_scope.
Set Warnings "-clear-no-such-hyp".

(** ** Python runtime: exceptions, unordered-set iteration, ordered dicts *)

Inductive exn := KeyError | IndexError | StopIteration | ValueError.

Inductive result (A : Type) :=
  | Ok (a : A)
  | Raise (e : exn)
  | OutOfFuel.
Arguments Ok {A} a.
Arguments Raise {A} e.
Arguments OutOfFuel {A}.

#[global] Instance result_ret : MRet result := fun A a => Ok a.
#[global] Instance result_bind : MBind result := fun A B f m =>
  match m with
  | Ok a => f a
  | Raise e => Raise e
  | OutOfFuel => OutOfFuel
  end.

#[global] Instance result_fmap : FMap result := fun A B f m =>
  match m with
  | Ok a => Ok (f a)
  | Raise e => Raise e
  | OutOfFuel => OutOfFuel
  end.

Definition or_raise {A} (e : exn) (o : option A) : result A :=
  match o with Some a => Ok a | None => Raise e end.

(** A Python [float] is an IEEE 754 binary64 value: a [spec_float] at
    precision 53 with exponent bound 1024.  [float_mul] is the product
    [x * y], rounded to the nearest float, ties to even; [float_of_int]
    is the conversion an [int] undergoes when it meets a float in a
    product; [float_1_5] is the literal [1.5]. *)
Abbreviation float := SpecFloat.spec_float.

Definition float_mul : float → float → float := SpecFloat.SFmul 53 1024.

Definition float_of_int (n : Z) : float :=
  SpecFloat.binary_normalize 53 1024 n 0 false.

Definition float_1_5 : float :=
  Eval vm_compute in SpecFloat.binary_normalize 53 1024 3 (-1) false.

(** The rational a finite float stands for. *)
Definition float_value (x : float) : Q :=
  match x with
  | SpecFloat.S754_finite s m e =>
      (inject_Z (if s then Z.neg m else Z.pos m) * (2 # 1) ^ e)%Q
  | _ => 0%Q
  end.

(** [n >= x] for an [int] and a [float]: Python compares the exact
    values; every int is below [inf] and above [-inf], and the
    comparison with [nan] is [False]. *)
Definition int_ge_float (n : Z) (x : float) : bool :=
  match x with
  | SpecFloat.S754_nan => false
  | SpecFloat.S754_infinity s => s
  | _ => Qle_bool (float_value x) (inject_Z n)
  end.

(** The order in which Python walks a [set] is not specified; every
    development below is parametric in it. *)
Class SetIteration := {
    iter_set : gset Z → list Z;
    iter_set_perm : ∀ X, iter_set X ≡ₚ elements X
  }.

(** The order [elements] happens to give is one such order. *)
Definition elements_order : SetIteration :=
  {| iter_set := elements; iter_set_perm := fun X => reflexivity _ |}.

(** A [dict] in insertion order. *)
Section odict.
Context {K V : Type} `{EqDecision K}.

Fixpoint od_get (k : K) (d : list (K * V)) : option V :=
  match d with
  | [] => None
  | (k', v) :: d' => if decide (k = k') then Some v else od_get k d'
  end.

Definition od_mem (k : K) (d : list (K * V)) : bool :=
  bool_decide (is_Some (od_get k d)).

(** [d[k] = v]: in place when the key exists, at the end otherwise. *)
Fixpoint od_set (k : K) (v : V) (d : list (K * V)) : list (K * V) :=
  match d with
  | [] => [(k, v)]
  | (k', v') :: d' =>
      if decide (k = k') then (k, v) :: d' else (k', v') :: od_set k v d'
  end.

(** [del d[k]]: [None] stands for the KeyError. *)
Fixpoint od_del (k : K) (d : list (K * V)) : option (list (K * V)) :=
  match d with
  | [] => None
  | (k', v') :: d' =>
      if decide (k = k') then Some d'
      else cons (k', v') <$> od_del k d'
  end.
End odict.

(** [l.pop()] on a list: the remaining list and the last element. *)
Definition list_pop {A} (l : list A) : option (list A * A) :=
  match last l with
  | Some x => Some (removelast l, x)
  | None => None
  end.

(** [l.remove(x)]: drops the first occurrence. *)
Fixpoint list_remove_first {A} `{EqDecision A} (x : A) (l : list A) : list A :=
  match l with
  | [] => []
  | y :: l' => if decide (x = y) then l' else y :: list_remove_first x l'
  end.

(** ** DIMACS input

    A line of the input after [strip]: either one the loaders skip (blank,
    or starting with [c] or [p]) or the integers [int] reads from
    [line.split()]. *)
Inductive dimacs_line :=
  | Skipped
  | Tokens (toks : list Z).

(** The literals a loader keeps from one clause line: the last token is
    cut off, zeros are skipped. *)
Definition line_literals (toks : list Z) : list Z :=
  filter (λ lit, lit ≠ 0) (removelast toks).

(** The clauses a loader stores: the literal lists of the clause lines,
    in order, the empty ones left out. *)
Definition stored_clauses (lines : list dimacs_line) : list (list Z) :=
  filter (λ clause, clause ≠ [])
    (omap (λ ln, match ln with
                 | Skipped => None
                 | Tokens toks => Some (line_literals toks)
                 end) lines).

(** ** Watch lists, filled the same way by cdcl.py and dpll.py *)

(** [self.watch_list[lit].append(idx)] on the [defaultdict(list)]. *)
Definition watch_append (lit : Z) (idx : nat) (w : gmap Z (list nat))
  : gmap Z (list nat) :=
  <[lit := default [] (w !! lit) ++ [idx]]> w.

(** The two watched literals of a clause: positions 0 and 1. *)
Definition watch_clause (idx : nat) (clause : list Z)
    (w : gmap Z (list nat)) : gmap Z (list nat) :=
  match clause with
  | [] => w
  | first_lit :: rest =>
      let w1 := watch_append first_lit idx w in
      match rest with
      | [] => w1
      | second_lit :: _ => watch_append second_lit idx w1
      end
  end.

Fixpoint watch_clauses (idx : nat) (cs : list (list Z))
    (w : gmap Z (list nat)) : gmap Z (list nat) :=
  match cs with
  | [] => w
  | c :: cs' => watch_clauses (S idx) cs' (watch_clause idx c w)
  end.

(** ** Sudoku variable layout (sudoku_dp.py) *)
Module Sudoku.

(** The expression [row * n * n + col * n + num + 1] of [encode_sudoku]. *)
Definition cell_var (n row col num : Z) : Z :=
  row * n * n + col * n + num + 1.

(** The at-least-one clause of a cell:
    [[row * n * n + col * n + num + 1 for num in range(n)]]. *)
Definition cell_clause (n row col : Z) : list Z :=
  map (λ num, cell_var n row col (Z.of_nat num)) (seq 0 (Z.to_nat n)).

(** The decoding in [solve_sudoku_dp]: the [(row, col, num)] written to
    [solution[row][col] = num] for a true variable [var]. *)
Definition decode (n var : Z) : Z * Z * Z :=
  let var_idx := var - 1 in
  let num := var_idx `mod` n + 1 in
  let col := (var_idx `div` n) `mod` n in
  let row := var_idx `div` (n * n) in
  (row, col, num).

End Sudoku.

(** ** The CDCL solver (cdcl.py) *)
Module CDCL.

(** The fields of [CDCLSolver].  [assignment] is keyed by literal and
    walked in insertion order by [unit_propagation]; [restart_threshold]
    is the [int] 100 until the first restart and a float from then on,
    and is held as the float of its value throughout; the activities
    are floats, taken here as exact rationals. *)
Record state := State {
    clauses : list (list Z);
    variables : gset Z;
    assignment : list (Z * bool);
    decision_level : Z;
    var_info : gmap Z (Z * option nat);
    watch_list : gmap Z (list nat);
    learned_clauses : list (list Z);
    trail : list Z;
    trail_lim : list nat;
    conflict_count : Z;
    restart_threshold : float;
    var_activity : gmap Z Q;
    var_order : list Z
  }.

Definition with_clauses (x : list (list Z)) (s : state) : state :=
  State x (variables s) (assignment s) (decision_level s) (var_info s)
    (watch_list s) (learned_clauses s) (trail s) (trail_lim s)
    (conflict_count s) (restart_threshold s) (var_activity s) (var_order s).
Definition with_variables (x : gset Z) (s : state) : state :=
  State (clauses s) x (assignment s) (decision_level s) (var_info s)
    (watch_list s) (learned_clauses s) (trail s) (trail_lim s)
    (conflict_count s) (restart_threshold s) (var_activity s) (var_order s).
Definition with_assignment (x : list (Z * bool)) (s : state) : state :=
  State (clauses s) (variables s) x (decision_level s) (var_info s)
    (watch_list s) (learned_clauses s) (trail s) (trail_lim s)
    (conflict_count s) (restart_threshold s) (var_activity s) (var_order s).
Definition with_decision_level (x : Z) (s : state) : state :=
  State (clauses s) (variables s) (assignment s) x (var_info s)
    (watch_list s) (learned_clauses s) (trail s) (trail_lim s)
    (conflict_count s) (restart_threshold s) (var_activity s) (var_order s).
Definition with_var_info (x : gmap Z (Z * option nat)) (s : state) : state :=
  State (clauses s) (variables s) (assignment s) (decision_level s) x
    (watch_list s) (learned_clauses s) (trail s) (trail_lim s)
    (conflict_count s) (restart_threshold s) (var_activity s) (var_order s).
Definition with_watch_list (x : gmap Z (list nat)) (s : state) : state :=
  State (clauses s) (variables s) (assignment s) (decision_level s)
    (var_info s) x (learned_clauses s) (trail s) (trail_lim s)
    (conflict_count s) (restart_threshold s) (var_activity s) (var_order s).
Definition with_learned_clauses (x : list (list Z)) (s : state) : state :=
  State (clauses s) (variables s) (assignment s) (decision_level s)
    (var_info s) (watch_list s) x (trail s) (trail_lim s)
    (conflict_count s) (restart_threshold s) (var_activity s) (var_order s).
Definition with_trail (x : list Z) (s : state) : state :=
  State (clauses s) (variables s) (assignment s) (decision_level s)
    (var_info s) (watch_list s) (learned_clauses s) x (trail_lim s)
    (conflict_count s) (restart_threshold s) (var_activity s) (var_order s).
Definition with_trail_lim (x : list nat) (s : state) : state :=
  State (clauses s) (variables s) (assignment s) (decision_level s)
    (var_info s) (watch_list s) (learned_clauses s) (trail s) x
    (conflict_count s) (restart_threshold s) (var_activity s) (var_order s).
Definition with_conflict_count (x : Z) (s : state) : state :=
  State (clauses s) (variables s) (assignment s) (decision_level s)
    (var_info s) (watch_list s) (learned_clauses s) (trail s) (trail_lim s)
    x (restart_threshold s) (var_activity s) (var_order s).
Definition with_restart_threshold (x : float) (s : state) : state :=
  State (clauses s) (variables s) (assignment s) (decision_level s)
    (var_info s) (watch_list s) (learned_clauses s) (trail s) (trail_lim s)
    (conflict_count s) x (var_activity s) (var_order s).
Definition with_var_activity (x : gmap Z Q) (s : state) : state :=
  State (clauses s) (variables s) (assignment s) (decision_level s)
    (var_info s) (watch_list s) (learned_clauses s) (trail s) (trail_lim s)
    (conflict_count s) (restart_threshold s) x (var_order s).
Definition with_var_order (x : list Z) (s : state) : state :=
  State (clauses s) (variables s) (assignment s) (decision_level s)
    (var_info s) (watch_list s) (learned_clauses s) (trail s) (trail_lim s)
    (conflict_count s) (restart_threshold s) (var_activity s) x.

(** [__init__] *)
Definition init : state :=
  State [] ∅ [] 0 ∅ ∅ [] [] [] 0 (float_of_int 100) ∅ [].

(** The body of the clause loop of [parse_dimacs] for one line. *)
Definition parse_line (s : state) (ln : dimacs_line) : state :=
  match ln with
  | Skipped => s
  | Tokens toks =>
      let clause := line_literals toks in
      let s1 :=
        with_variables (variables s ∪ list_to_set (Z.abs <$> clause)) s in
      match clause with
      | [] => s1
      | _ :: _ => with_clauses (clauses s1 ++ [clause]) s1
      end
  end.

Section with_order.
Context `{SetIteration}.

Definition initialize_data_structures (s : state) : state :=
  let vs := iter_set (variables s) in
  let s1 :=
    with_var_order (var_order s ++ vs)
      (with_var_activity
         (foldl (λ m var, <[var := 0%Q]> m) (var_activity s) vs) s) in
  with_watch_list (watch_clauses 0 (clauses s1) (watch_list s1)) s1.

Definition parse_dimacs (lines : list dimacs_line) (s : state) : state :=
  initialize_data_structures (foldl parse_line s lines).
End with_order.

(** [assign] *)
Definition assign (var : Z) (value : bool) (antecedent : option nat)
    (s : state) : state :=
  let lit := if value then var else - var in
  with_trail (trail s ++ [lit])
    (with_var_info (<[var := (decision_level s, antecedent)]> (var_info s))
       (with_assignment (od_set lit true (assignment s)) s)).

(** [self.clauses[i] if i < len(self.clauses) else
     self.learned_clauses[i - len(self.clauses)]] *)
Definition clause_at (s : state) (idx : nat) : result (list Z) :=
  if (idx <? length (clauses s))%nat
  then or_raise IndexError (clauses s !! idx)
  else or_raise IndexError (learned_clauses s !! (idx - length (clauses s))%nat).

(** *** [unit_propagation] *)

(** [next(lit for lit in self.assignment
          if abs(lit) not in {abs(x) for x in self.trail})] *)
Definition next_unprocessed (s : state) : result Z :=
  let on_trail : gset Z := list_to_set (Z.abs <$> trail s) in
  or_raise StopIteration
    (head (filter (λ lit, Z.abs lit ∉ on_trail) (fst <$> assignment s))).

(** The search for a new literal to watch: the first literal of the
    clause that passes one of the two tests. *)
Fixpoint find_new_watch (a : list (Z * bool)) (neg_lit : Z)
    (clause : list Z) : option Z :=
  match clause with
  | [] => None
  | other_lit :: rest =>
      let other_var := Z.abs other_lit in
      if bool_decide (other_lit ≠ neg_lit) && negb (od_mem other_var a)
      then Some other_lit
      else if od_mem other_var a
              && bool_decide (od_get other_var a = Some (0 <? other_lit))
      then Some other_lit
      else find_new_watch a neg_lit rest
  end.

(** The scan that collects [unassigned] and sets [satisfied]. *)
Fixpoint scan_clause (a : list (Z * bool)) (clause : list Z)
    (unassigned : list Z) : bool * list Z :=
  match clause with
  | [] => (false, unassigned)
  | l :: rest =>
      let v := Z.abs l in
      if negb (od_mem v a) then scan_clause a rest (unassigned ++ [l])
      else if bool_decide (od_get v a = Some (0 <? l)) then (true, unassigned)
      else scan_clause a rest unassigned
  end.

(** The loop over [self.watch_list.get(neg_lit, [])], by position [i]: a
    Python list iterator reads the list again at every step, so entries
    appended to the list under iteration are visited too.  The first
    component of the result is the clause of a [return clause]. *)
Fixpoint watch_loop (fuel : nat) (neg_lit : Z) (i : nat)
    (to_remove : list (Z * nat)) (s : state)
  : result (option (list Z) * list (Z * nat) * state) :=
  match fuel with
  | O => OutOfFuel
  | S fuel' =>
      match default [] (watch_list s !! neg_lit) !! i with
      | None => Ok (None, to_remove, s)
      | Some clause_idx =>
          clause ← clause_at s clause_idx;
          match find_new_watch (assignment s) neg_lit clause with
          | Some new_watch =>
              watch_loop fuel' neg_lit (S i)
                (to_remove ++ [(neg_lit, clause_idx)])
                (with_watch_list
                   (watch_append new_watch clause_idx (watch_list s)) s)
          | None =>
              let '(satisfied, unassigned) :=
                scan_clause (assignment s) clause [] in
              if satisfied then watch_loop fuel' neg_lit (S i) to_remove s
              else
                match unassigned with
                | [unit_lit] =>
                    let unit_var := Z.abs unit_lit in
                    if od_mem unit_var (assignment s) then
                      if negb (bool_decide (od_get unit_var (assignment s)
                                            = Some (0 <? unit_lit)))
                      then Ok (Some clause, to_remove, s)
                      else watch_loop fuel' neg_lit (S i) to_remove s
                    else
                      watch_loop fuel' neg_lit (S i) to_remove
                        (assign unit_var (0 <? unit_lit) (Some clause_idx) s)
                | _ => Ok (Some clause, to_remove, s)
                end
          end
      end
  end.

(** The loop over [to_remove]. *)
Definition remove_watches (to_remove : list (Z * nat))
    (w : gmap Z (list nat)) : gmap Z (list nat) :=
  foldl (λ w '(lit, idx),
           if bool_decide (idx ∈ default [] (w !! lit))
           then <[lit := list_remove_first idx (default [] (w !! lit))]> w
           else w)
        w to_remove.

(** The result is the returned value ([None] or the conflict clause) and
    the state at the return. *)
Fixpoint unit_propagation (fuel : nat) (s : state)
  : result (option (list Z) * state) :=
  match fuel with
  | O => OutOfFuel
  | S fuel' =>
      if (length (trail s) <? length (assignment s))%nat then
        lit ← next_unprocessed s;
        let neg_lit := - lit in
        '(ret, to_remove, s1) ← watch_loop fuel' neg_lit 0 [] s;
        match ret with
        | Some clause => Ok (Some clause, s1)
        | None =>
            unit_propagation fuel'
              (with_watch_list (remove_watches to_remove (watch_list s1)) s1)
        end
      else Ok (None, s)
  end.

(** *** [analyze_conflict] *)

Definition clause_vars (cs : list (list Z)) : gset Z :=
  list_to_set (Z.abs <$> concat cs).

(** The inner loop over [antecedent_clause]: marks and enqueues the
    variables not seen yet. *)
Definition enqueue_unseen (var : Z) (antecedent_clause : list Z)
    (seen : gset Z) (queue : list Z) : gset Z * list Z :=
  foldl (λ '(sn, q) lit,
           let v := Z.abs lit in
           if bool_decide (v ≠ var) && bool_decide (v ∉ sn)
           then ({[v]} ∪ sn, q ++ [v]) else (sn, q))
        (seen, queue) antecedent_clause.

(** The [while queue] loop; the result is [current_level_lits]. *)
Fixpoint analyze_loop (fuel : nat) (s : state) (queue : list Z)
    (seen : gset Z) (current_level_lits : list Z) : result (list Z) :=
  match fuel with
  | O => OutOfFuel
  | S fuel' =>
      match queue with
      | [] => Ok current_level_lits
      | var :: queue' =>
          let '(level, antecedent) := default (0, None) (var_info s !! var) in
          let current_level_lits' :=
            if decide (level = decision_level s)
            then current_level_lits ++ [var] else current_level_lits in
          match antecedent with
          | None => analyze_loop fuel' s queue' seen current_level_lits'
          | Some a =>
              antecedent_clause ← clause_at s a;
              let '(seen', queue'') :=
                enqueue_unseen var antecedent_clause seen queue' in
              analyze_loop fuel' s queue'' seen' current_level_lits'
          end
      end
  end.

(** A variable enters the queue once per literal of the conflict clause
    and at most once more, so this many turns of the loop are enough
    (see [analyze_loop_fuel]). *)
Definition analysis_fuel (s : state) (conflict_clause : list Z) : nat :=
  S (length conflict_clause
     + 2 * size (clause_vars (clauses s ++ learned_clauses s))).

(** [max(self.var_info[v][0] for v in current_level_lits if v != uip)] *)
Definition max_level (s : state) (vs : list Z) : result Z :=
  levels ← mapM (λ v, fst <$> or_raise KeyError (var_info s !! v)) vs;
  match levels with
  | [] => Raise ValueError
  | l :: ls => Ok (foldl Z.max l ls)
  end.

Definition analyze_conflict (s : state) (conflict_clause : list Z)
  : result (list Z * Z) :=
  let queue := Z.abs <$> conflict_clause in
  current_level_lits ←
    analyze_loop (analysis_fuel s conflict_clause) s queue
      (list_to_set queue) [];
  match last current_level_lits with
  | None => Ok ([], 0)
  | Some uip =>
      let learned_clause :=
        filter (λ lit, Z.abs lit ≠ uip) conflict_clause in
      if (1 <? length current_level_lits)%nat then
        backtrack_level ←
          max_level s (filter (λ v, v ≠ uip) current_level_lits);
        Ok (learned_clause, backtrack_level)
      else Ok (learned_clause, 0)
  end.

(** *** [backtrack] *)

(** [n] turns of the inner loop, [n] being [len(self.trail) - lim]. *)
Fixpoint unwind (n : nat) (s : state) : result state :=
  match n with
  | O => Ok s
  | S n' =>
      '(trail', lit) ← or_raise IndexError (list_pop (trail s));
      let var := Z.abs lit in
      assignment' ← or_raise KeyError (od_del lit (assignment s));
      unwind n'
        (with_var_info (delete var (var_info s))
           (with_assignment assignment' (with_trail trail' s)))
  end.

(** [n] turns of the outer loop, [n] being [self.decision_level - level]. *)
Fixpoint backtrack_levels (n : nat) (s : state) : result state :=
  match n with
  | O => Ok s
  | S n' =>
      let s1 := with_decision_level (decision_level s - 1) s in
      '(trail_lim', lim) ← or_raise IndexError (list_pop (trail_lim s1));
      let s2 := with_trail_lim trail_lim' s1 in
      s3 ← unwind (length (trail s2) - lim) s2;
      backtrack_levels n' s3
  end.

Definition backtrack (level : Z) (s : state) : result state :=
  backtrack_levels (Z.to_nat (decision_level s - level)) s.

(** *** [select_variable], [bump_activity], [add_clause] *)

Definition activity_of (m : gmap Z Q) (v : Z) : Q := default 0%Q (m !! v).

(** [list.sort(key=...)] is stable: an element goes before the first
    one whose key is not smaller. *)
Fixpoint insert_by_key (key : Z → Q) (x : Z) (l : list Z) : list Z :=
  match l with
  | [] => [x]
  | y :: l' =>
      if Qle_bool (key x) (key y) then x :: l
      else y :: insert_by_key key x l'
  end.

Definition sort_by_key (key : Z → Q) (l : list Z) : list Z :=
  foldr (insert_by_key key) [] l.

(** Reading [self.var_activity[v]] in the sort key stores the default
    [0.0] for a missing key. *)
Definition select_variable (s : state) : option Z * state :=
  let unassigned :=
    filter (λ var, od_mem var (assignment s) = false) (var_order s) in
  match unassigned with
  | [] => (None, s)
  | _ :: _ =>
      let act :=
        foldl (λ m v, match m !! v with
                      | None => <[v := 0%Q]> m
                      | Some _ => m
                      end) (var_activity s) unassigned in
      (head (sort_by_key (λ v, (- activity_of act v)%Q) unassigned),
       with_var_activity act s)
  end.

Definition bump_activity (clause : list Z) (s : state) : state :=
  let bumped :=
    foldl (λ m lit, let var := Z.abs lit in
                    <[var := (activity_of m var + 1)%Q]> m)
          (var_activity s) clause in
  with_var_activity
    (if decide (conflict_count s `mod` 100 = 0)
     then (λ a, (a * (95 # 100))%Q) <$> bumped else bumped) s.

Definition add_clause (clause : list Z) (s : state) : state :=
  let s1 := with_learned_clauses (learned_clauses s ++ [clause]) s in
  let idx := (length (clauses s1) + length (learned_clauses s1) - 1)%nat in
  with_watch_list (watch_clause idx clause (watch_list s1)) s1.

(** *** [cdcl] *)

(** How one turn of the [while True] loop ends. *)
Inductive flow :=
  | Return (b : bool) (s : state)
  | Continue (s : state).

(** The restart: [self.restart_threshold *= 1.5], then [backtrack(0)]. *)
Definition restart (s : state) : result state :=
  backtrack 0
    (with_restart_threshold (float_mul (restart_threshold s) float_1_5) s).

(** Analysis, learning, backtracking and the activity bump: the conflict
    branch between the level test and the restart test. *)
Definition learn_and_backtrack (conflict_clause : list Z) (s1 : state)
  : result state :=
  '(learned_clause, backtrack_level) ← analyze_conflict s1 conflict_clause;
  let s2 :=
    with_learned_clauses (learned_clauses s1 ++ [learned_clause]) s1 in
  let s3 := add_clause learned_clause s2 in
  s4 ← backtrack backtrack_level s3;
  Ok (bump_activity learned_clause s4).

(** The branch taken when [unit_propagation] returned a clause. *)
Definition on_conflict (conflict_clause : list Z) (s : state)
  : result flow :=
  let s1 := with_conflict_count (conflict_count s + 1) s in
  if decide (decision_level s1 = 0) then Ok (Return false s1)
  else
    s5 ← learn_and_backtrack conflict_clause s1;
    if int_ge_float (conflict_count s5) (restart_threshold s5)
    then s6 ← restart s5; Ok (Continue s6)
    else Ok (Continue s5).

(** The branch taken when [unit_propagation] returned [None]. *)
Definition on_no_conflict (s : state) : flow :=
  if bool_decide
       (set_Forall (λ var, od_mem var (assignment s) = true) (variables s))
  then Return true s
  else
    match select_variable s with
    | (None, s1) => Return true s1
    | (Some var, s1) =>
        let s2 := with_decision_level (decision_level s1 + 1) s1 in
        let s3 := with_trail_lim (trail_lim s2 ++ [length (trail s2)]) s2 in
        Continue (assign var true None s3)
    end.

Definition cdcl_iteration (fuel : nat) (s : state) : result flow :=
  '(conflict_clause, s1) ← unit_propagation fuel s;
  match conflict_clause with
  | Some clause => on_conflict clause s1
  | None => Ok (on_no_conflict s1)
  end.

(** The result is the returned verdict and the solver at the return. *)
Fixpoint cdcl (fuel : nat) (s : state) : result (bool * state) :=
  match fuel with
  | O => OutOfFuel
  | S fuel' =>
      r ← cdcl_iteration fuel' s;
      match r with
      | Return b s' => Ok (b, s')
      | Continue s' => cdcl fuel' s'
      end
  end.

Definition flow_state (f : flow) : state :=
  match f with Return _ s => s | Continue s => s end.

(** The states a solver is in between calls of [parse_dimacs] and at
    the head and the return of the driver loop. *)
Inductive reachable `{SetIteration} : state → Prop :=
  | reachable_init : reachable init
  | reachable_load lines s : reachable s → reachable (parse_dimacs lines s)
  | reachable_turn fuel s f :
      reachable s → cdcl_iteration fuel s = Ok f → reachable (flow_state f).

(** What holds of the solver while no conflict has been met: the trail
    lists the decided variables, each assigned true at its own level. *)
Record quiet (s : state) : Prop := Quiet {
    quiet_assignment : assignment s = (λ v, (v, true)) <$> trail s;
    quiet_nodup : NoDup (trail s);
    quiet_trail_vars : ∀ v, v ∈ trail s → v ∈ variables s;
    quiet_nonneg : ∀ v, v ∈ variables s → 0 ≤ v;
    quiet_order : ∀ v, v ∈ variables s ↔ v ∈ var_order s;
    quiet_level : decision_level s = Z.of_nat (length (trail s));
    quiet_lim : trail_lim s = seq 0 (length (trail s));
    quiet_learned : learned_clauses s = [];
    quiet_conflicts : conflict_count s = 0
  }.

(** The driver went from [s] to [s'] by turns of its loop, [n] of which
    handled a conflict (learned a clause and went on). *)
Inductive turns : nat → state → state → Prop :=
  | turns_done s : turns 0 s s
  | turns_decision n fuel s s1 s1' s2 :
      turns n s s1 →
      unit_propagation fuel s1 = Ok (None, s1') →
      on_no_conflict s1' = Continue s2 →
      turns n s s2
  | turns_conflict n fuel s s1 s1' clause s2 :
      turns n s s1 →
      unit_propagation fuel s1 = Ok (Some clause, s1') →
      on_conflict clause s1' = Ok (Continue s2) →
      turns (S n) s s2.

(** What [backtrack], [unit_propagation] and a decision leave alone,
    up to the watch lists and the activities. *)
Definition same_clauses (s s' : state) : Prop :=
  clauses s' = clauses s ∧ variables s' = variables s
  ∧ learned_clauses s' = learned_clauses s
  ∧ conflict_count s' = conflict_count s
  ∧ restart_threshold s' = restart_threshold s
  ∧ var_order s' = var_order s.

(** A literal neither of whose polarities is a key of the assignment. *)
Definition unassigned (a : list (Z * bool)) (l : Z) : bool :=
  negb (od_mem l a) && negb (od_mem (- l) a).


(** The trail and its level marks fit together: one mark per level, in
    order and within the trail; one entry per variable, each a key of
    the assignment. *)
Record trail_wf (s : state) : Prop := TrailWf {
    wf_level : decision_level s = Z.of_nat (length (trail_lim s));
    wf_sorted : Sorted le (trail_lim s);
    wf_bound : Forall (λ lim, (lim ≤ length (trail s))%nat) (trail_lim s);
    wf_nodup : NoDup (Z.abs <$> trail s);
    wf_keys : ∀ lit, lit ∈ trail s → lit ∈ (assignment s).*1
  }.

(** Three example solvers.  [implied_state] is what propagation should
    have built from the clauses [-1 2], [-1 3], [-2 -3] after deciding
    variable 1: 2 and 3 implied at level 1, the third clause false.
    [pending_state] holds literal 2 in the assignment but not on the
    trail, the case the loop of [unit_propagation] tests for.
    [two_level_state] has one entry at level 0 and decisions at levels
    1 and 2. *)
Definition implied_state : state :=
  State [[-1; 2]; [-1; 3]; [-2; -3]] {[1; 2; 3]}
    [(1, true); (2, true); (3, true)] 1
    {[1 := (1, None); 2 := (1, Some 0%nat); 3 := (1, Some 1%nat)]}
    (watch_clauses 0 [[-1; 2]; [-1; 3]; [-2; -3]] ∅)
    [] [1; 2; 3] [0%nat] 0 (float_of_int 100)
    {[1 := 0%Q; 2 := 0%Q; 3 := 0%Q]} [1; 2; 3].

Definition pending_state : state :=
  State [[-1; -2]] {[1; 2]} [(1, true); (2, true)] 1
    {[1 := (1, None)]} (watch_clauses 0 [[-1; -2]] ∅)
    [] [1] [0%nat] 0 (float_of_int 100) {[1 := 0%Q; 2 := 0%Q]} [1; 2].

Definition two_level_state : state :=
  State [[5]; [1; 2]] {[1; 2; 5]} [(5, true); (1, true); (2, true)] 2
    {[5 := (0, Some 0%nat); 1 := (1, None); 2 := (2, None)]}
    (watch_clauses 0 [[5]; [1; 2]] ∅)
    [[-3]] [5; 1; 2] [1%nat; 2%nat] 150 (float_of_int 100)
    {[1 := 0%Q; 2 := 0%Q; 5 := 0%Q]} [1; 2; 5].

(** The reported model read as variable ↦ value, the way the solver
    itself tests a literal:
    [self.assignment[abs(l)] == (l > 0)]. *)
Definition lit_true (a : list (Z * bool)) (l : Z) : bool :=
  bool_decide (od_get (Z.abs l) a = Some (0 <? l)).

Definition clause_true (a : list (Z * bool)) (clause : list Z) : bool :=
  existsb (lit_true a) clause.

(** The level [var_info] records for a variable is the current one; a
    variable without an entry counts as level 0, as in
    [self.var_info.get(var, (0, None))]. *)
Definition at_current_level (s : state) (v : Z) : Prop :=
  (default (0, None) (var_info s !! v)).1 = decision_level s.

End CDCL.

(** ** The resolution solver (resolution.py) *)
Module Resolution.

Record Literal := Lit { name : string; negated : bool }.

#[global] Instance Literal_eq_dec : EqDecision Literal.
Proof. solve_decision. Defined.

#[global] Instance Literal_countable : Countable Literal :=
  inj_countable' (λ l, (name l, negated l)) (λ p, Lit p.1 p.2)
    (λ l, match l with Lit _ _ => eq_refl end).

Definition negate (l : Literal) : Literal := Lit (name l) (negb (negated l)).

(** A [Clause] is its [frozenset] of literals. *)
Abbreviation Clause := (gset Literal).

Definition is_empty (c : Clause) : bool := bool_decide (size c = 0%nat).

(** [l1.name == l2.name and l1.negated != l2.negated] *)
Definition clash (l1 l2 : Literal) : bool :=
  bool_decide (name l1 = name l2) && negb (Bool.eqb (negated l1) (negated l2)).

(** The double loop over positions [i < j]. *)
Fixpoint clash_in (literals : list Literal) : bool :=
  match literals with
  | [] => false
  | l :: rest => existsb (clash l) rest || clash_in rest
  end.

Definition is_tautology (c : Clause) : bool := clash_in (elements c).

Definition resolve (c other : Clause) : gset Clause :=
  list_to_set
    (l1 ← elements c;
     l2 ← elements other;
     if clash l1 l2 then
       let new_clause := (c ∖ {[l1]}) ∪ (other ∖ {[l2]}) in
       if is_tautology new_clause then [] else [new_clause]
     else []).

(** [combinations(xs, 2)] *)
Fixpoint combinations2 {A} (xs : list A) : list (A * A) :=
  match xs with
  | [] => []
  | x :: rest => (pair x <$> rest) ++ combinations2 rest
  end.

(** The resolvents in the order the two [for] loops meet them. *)
Definition round_resolvents (clauses : gset Clause) : list Clause :=
  '(c1, c2) ← combinations2 (elements clauses);
  elements (resolve c1 c2).

(** The [for] loops of one round, started with [new]: [None] is the
    [return False], otherwise the grown [new]. *)
Definition round (clauses new : gset Clause) : option (gset Clause) :=
  foldl (λ acc r, new' ← acc;
                  if is_empty r then None else Some ({[r]} ∪ new'))
        (Some new) (round_resolvents clauses).

Fixpoint resolution_loop (fuel : nat) (clauses : gset Clause)
  : result bool :=
  match fuel with
  | O => OutOfFuel
  | S fuel' =>
      match round clauses ∅ with
      | None => Ok false
      | Some new =>
          if bool_decide (new ⊆ clauses) then Ok true
          else resolution_loop fuel' (clauses ∪ new)
      end
  end.

Definition resolution_solver (fuel : nat) (clauses : list Clause)
  : result bool :=
  resolution_loop fuel
    (list_to_set (filter (λ c, is_tautology c = false) clauses)).

(** The module-level [parse_dimacs]: literal [k] becomes the literal
    named [str(abs(k))], negated when [k < 0]. *)
Definition parse_literal (lit : Z) : Literal :=
  Lit (pretty (Z.abs lit)) (bool_decide (lit < 0)).

Definition parse_line (clauses : list Clause) (ln : dimacs_line)
  : list Clause :=
  match ln with
  | Skipped => clauses
  | Tokens toks =>
      match parse_literal <$> line_literals toks with
      | [] => clauses
      | literals => clauses ++ [list_to_set literals]
      end
  end.

Definition parse_dimacs (lines : list dimacs_line) : list Clause :=
  foldl parse_line [] lines.

(** The saturation the specification describes, stated on sets: the
    clauses a round produces from the current set, the set the solver is
    seeded with, and the set after [k] rounds. *)
Definition produced (clauses : gset Clause) : gset Clause :=
  list_to_set (round_resolvents clauses).

Definition seed (clauses : list Clause) : gset Clause :=
  list_to_set (filter (λ c, is_tautology c = false) clauses).

Definition generation (clauses : list Clause) (k : nat) : gset Clause :=
  Nat.iter k (λ X, X ∪ produced X) (seed clauses).

(** Every set of literals drawn from [literals]. *)
Fixpoint subsets (literals : list Literal) : gset Clause :=
  match literals with
  | [] => {[∅]}
  | l :: rest => subsets rest ∪ set_map (λ c : Clause, {[l]} ∪ c) (subsets rest)
  end.

(** The value of a literal and of a clause under a valuation of the
    names, and a valuation under which every clause of a list holds. *)
Definition lit_holds (v : string → bool) (l : Literal) : bool :=
  xorb (v (name l)) (negated l).

Definition satisfies (v : string → bool) (c : Clause) : Prop :=
  ∃ l, l ∈ c ∧ lit_holds v l = true.

Definition models (v : string → bool) (clauses : list Clause) : Prop :=
  ∀ c, c ∈ clauses → satisfies v c.

(** A partial valuation makes every literal of the clause false. *)
Definition falsified (σ : gmap string bool) (c : Clause) : Prop :=
  set_Forall (λ l, σ !! name l = Some (negated l)) c.

#[global] Instance falsified_dec σ c : Decision (falsified σ c).
Proof. unfold falsified. apply _. Defined.

End Resolution.

(** ** The DPLL solver (dpll.py) *)
Module DPLL.

Record state := State {
    clauses : list (list Z);
    variables : gset Z;
    assignment : gmap Z bool;
    unit_clauses : gset Z;
    watch_list : gmap Z (list nat);
    occurrences : gmap Z Z
  }.

Definition with_assignment (x : gmap Z bool) (s : state) : state :=
  State (clauses s) (variables s) x (unit_clauses s) (watch_list s)
    (occurrences s).
Definition with_unit_clauses (x : gset Z) (s : state) : state :=
  State (clauses s) (variables s) (assignment s) x (watch_list s)
    (occurrences s).
Definition with_watch_list (x : gmap Z (list nat)) (s : state) : state :=
  State (clauses s) (variables s) (assignment s) (unit_clauses s) x
    (occurrences s).
Definition with_occurrences (x : gmap Z Z) (s : state) : state :=
  State (clauses s) (variables s) (assignment s) (unit_clauses s)
    (watch_list s) x.

Definition init : state := State [] ∅ ∅ ∅ ∅ ∅.

Definition parse_line (s : state) (ln : dimacs_line) : state :=
  match ln with
  | Skipped => s
  | Tokens toks =>
      let clause := line_literals toks in
      let s1 :=
        State (clauses s) (variables s ∪ list_to_set (Z.abs <$> clause))
          (assignment s) (unit_clauses s) (watch_list s) (occurrences s) in
      match clause with
      | [] => s1
      | lit :: rest =>
          let s2 :=
            State (clauses s1 ++ [clause]) (variables s1) (assignment s1)
              (unit_clauses s1) (watch_list s1) (occurrences s1) in
          match rest with
          | [] => with_unit_clauses ({[lit]} ∪ unit_clauses s2) s2
          | _ :: _ => s2
          end
      end
  end.

Definition parse_dimacs (lines : list dimacs_line) (s : state) : state :=
  foldl parse_line s lines.

(** [self.assignment[abs(l)] == (l > 0)], with the key present. *)
Definition lit_true (a : gmap Z bool) (l : Z) : bool :=
  bool_decide (a !! Z.abs l = Some (0 <? l)).

(** The search for [new_watch]. *)
Fixpoint find_new_watch (a : gmap Z bool) (lit : Z) (clause : list Z)
  : option Z :=
  match clause with
  | [] => None
  | other_lit :: rest =>
      if bool_decide (other_lit ≠ lit)
         && (bool_decide (a !! Z.abs other_lit = None) || lit_true a other_lit)
      then Some other_lit
      else find_new_watch a lit rest
  end.

Fixpoint scan_clause (a : gmap Z bool) (clause : list Z)
    (unassigned : list Z) : bool * list Z :=
  match clause with
  | [] => (false, unassigned)
  | l :: rest =>
      if bool_decide (a !! Z.abs l = None)
      then scan_clause a rest (unassigned ++ [l])
      else if lit_true a l then (true, unassigned)
      else scan_clause a rest unassigned
  end.

(** The loop over the clauses watching [lit]; the flag is the
    [return False]. *)
Fixpoint watch_loop (lit : Z) (idxs : list nat) (s : state)
  : result (bool * state) :=
  match idxs with
  | [] => Ok (false, s)
  | clause_idx :: idxs' =>
      clause ← or_raise IndexError (clauses s !! clause_idx);
      match find_new_watch (assignment s) lit clause with
      | Some _ => watch_loop lit idxs' s
      | None =>
          let '(satisfied, unassigned) :=
            scan_clause (assignment s) clause [] in
          if satisfied then watch_loop lit idxs' s
          else
            match unassigned with
            | [u] =>
                watch_loop lit idxs'
                  (with_unit_clauses ({[u]} ∪ unit_clauses s) s)
            | [] => Ok (true, s)
            | _ => watch_loop lit idxs' s
            end
      end
  end.

(** One turn of the [while self.unit_clauses] loop, for the literal [lit]
    that [pop] gave: the flag is the [return False], otherwise the loop
    goes on from the state returned. *)
Definition propagate_literal (lit : Z) (s : state) : result (bool * state) :=
  let s1 := with_unit_clauses (unit_clauses s ∖ {[lit]}) s in
  let var := Z.abs lit in
  let value := 0 <? lit in
  match assignment s1 !! var with
  | Some b => Ok (negb (Bool.eqb b value), s1)
  | None =>
      let s2 := with_assignment (<[var := value]> (assignment s1)) s1 in
      '(conflict, s3) ← watch_loop lit (default [] (watch_list s2 !! lit)) s2;
      if (conflict : bool) then Ok (true, s3)
      else
        Ok (false,
            with_watch_list (delete (- lit) (delete lit (watch_list s3))) s3)
  end.

Section with_order.
Context `{SetIteration}.

(** The [while self.unit_clauses] loop; the flag is the
    [return False]. *)
Fixpoint propagate (fuel : nat) (s : state) : result (bool * state) :=
  match fuel with
  | O => OutOfFuel
  | S fuel' =>
      match iter_set (unit_clauses s) with
      | [] => Ok (false, s)
      | lit :: _ =>
          '(conflict, s') ← propagate_literal lit s;
          if (conflict : bool) then Ok (true, s') else propagate fuel' s'
      end
  end.

(** Pure literals are read from [occurrences], which [solve] fills
    once and nothing updates. *)
Definition pure_literals (s : state) : state :=
  let pure_lits : gset Z :=
    filter (λ lit, - lit ∉ dom (occurrences s)) (dom (occurrences s)) in
  with_assignment
    (foldl (λ a lit, match a !! Z.abs lit with
                     | None => <[Z.abs lit := 0 <? lit]> a
                     | Some _ => a
                     end)
           (assignment s) (iter_set pure_lits)) s.

Definition all_satisfied (s : state) : bool :=
  forallb (existsb (lit_true (assignment s))) (clauses s).

Fixpoint dpll (fuel : nat) (s : state) : result (bool * state) :=
  match fuel with
  | O => OutOfFuel
  | S fuel' =>
      '(conflict, s1) ← propagate fuel' s;
      if (conflict : bool) then Ok (false, s1)
      else
        let s2 := pure_literals s1 in
        if all_satisfied s2 then Ok (true, s2)
        else
          match filter (λ var, assignment s2 !! var = None)
                       (iter_set (variables s2)) with
          | [] => Ok (true, s2)
          | var :: _ =>
              '(r1, s3) ←
                dpll fuel'
                  (with_assignment (<[var := true]> (assignment s2)) s2);
              if (r1 : bool) then Ok (true, s3)
              else
                _ ← or_raise KeyError (assignment s3 !! var);
                '(r2, s4) ←
                  dpll fuel'
                    (with_assignment
                       (<[var := false]> (delete var (assignment s3))) s3);
                if (r2 : bool) then Ok (true, s4)
                else
                  _ ← or_raise KeyError (assignment s4 !! var);
                  Ok (false,
                      with_assignment (delete var (assignment s4)) s4)
          end
  end.

(** [solve]: the watch lists and the occurrence counts, then [dpll]. *)
Definition solve (fuel : nat) (s : state) : result (bool * state) :=
  let s1 :=
    with_watch_list (watch_clauses 0 (clauses s) (watch_list s)) s in
  let s2 :=
    with_occurrences
      (foldl (λ m lit, <[lit := default 0 (m !! lit) + 1]> m)
             (occurrences s1) (concat (clauses s1))) s1 in
  dpll fuel s2.
End with_order.

(** What the unit loop keeps, [cs] and [vs] being the clauses and the
    variables of the input and [units] its unit literals: the watch
    lists hold indices of clauses with the watching literal, and the
    assignment is the one the unit literals popped so far ask for. *)
Record propagating (cs : list (list Z)) (vs units : gset Z) (s : state)
  : Prop := Propagating {
    prop_clauses : clauses s = cs;
    prop_variables : variables s = vs;
    prop_watch : ∀ lit idx,
      idx ∈ default [] (watch_list s !! lit) →
      ∃ c, cs !! idx = Some c ∧ lit ∈ c;
    prop_units : unit_clauses s ⊆ units;
    prop_assigned : ∀ v b,
      assignment s !! v = Some b → ∃ l, l ∈ units ∧ Z.abs l = v ∧ b = (0 <? l);
    prop_done : ∀ l,
      l ∈ units → l ∉ unit_clauses s → assignment s !! Z.abs l = Some (0 <? l)
  }.

(** The variables the decision step can still pick. *)
Definition undecided (s : state) : gset Z :=
  filter (λ var, assignment s !! var = None) (variables s).

End DPLL.

(** ** The Davis-Putnam solver (dp.py) *)
Module DP.

Record state := State {
    clauses : list (list Z);
    variables : gset Z;
    assignment : gmap Z bool;
    pure_lits : gset Z
  }.

Definition init : state := State [] ∅ ∅ ∅.

Definition parse_line (s : state) (ln : dimacs_line) : state :=
  match ln with
  | Skipped => s
  | Tokens toks =>
      let clause := line_literals toks in
      let variables' := variables s ∪ list_to_set (Z.abs <$> clause) in
      match clause with
      | [] => State (clauses s) variables' (assignment s) (pure_lits s)
      | _ :: _ =>
          State (clauses s ++ [clause]) variables' (assignment s)
            (pure_lits s)
      end
  end.

Definition parse_dimacs (lines : list dimacs_line) (s : state) : state :=
  foldl parse_line s lines.

(** [(lit > 0 and self.assignment[var]) or
     (lit < 0 and not self.assignment[var])] *)
Definition agrees (lit : Z) (b : bool) : bool :=
  (0 <? lit) && b || (lit <? 0) && negb b.

(** The simplification of one clause: [None] when it is satisfied. *)
Fixpoint simplify (a : gmap Z bool) (clause new_clause : list Z)
  : option (list Z) :=
  match clause with
  | [] => Some new_clause
  | lit :: rest =>
      match a !! Z.abs lit with
      | Some b => if agrees lit b then None else simplify a rest new_clause
      | None => simplify a rest (new_clause ++ [lit])
      end
  end.

(** The result is the returned [changed] and the solver. *)
Definition unit_propagation (s : state) : bool * state :=
  let unit_clauses :=
    omap (λ c, match c with [lit] => Some lit | _ => None end) (clauses s) in
  let '(a, changed) :=
    foldl (λ '(a, changed) lit,
             match a !! Z.abs lit with
             | Some b => (a, changed)
             | None => (<[Z.abs lit := 0 <? lit]> a, true)
             end)
          (assignment s, false) unit_clauses in
  if negb changed then (false, State (clauses s) (variables s) a (pure_lits s))
  else
    (true,
     State (omap (λ c, simplify a c []) (clauses s)) (variables s) a
       (pure_lits s)).

Definition contradiction_found (s : state) : bool :=
  existsb (λ clause, bool_decide (clause = [])) (clauses s).

Definition find_pure_literals (s : state) : state :=
  let lits : gset Z := list_to_set (concat (clauses s)) in
  State (clauses s) (variables s) (assignment s)
    (filter (λ lit, - lit ∉ lits) lits).

(** The resolvent of [pc] and [nc] on [var], before sorting. *)
Definition resolvent (var : Z) (pc nc : list Z) : list Z :=
  foldl (λ r lit,
           if bool_decide (Z.abs lit ≠ var) && bool_decide (lit ∉ r)
           then r ++ [lit] else r)
        [] (pc ++ nc).

Definition sorted (l : list Z) : list Z := merge_sort Z.le l.

Section with_order.
Context `{SetIteration}.

Definition apply_pure_literals (s : state) : state :=
  let pure_vars : gset Z := set_map Z.abs (pure_lits s) in
  let '(a, vs) :=
    foldl (λ '(a, vs) lit,
             (<[Z.abs lit := 0 <? lit]> a, vs ∖ {[Z.abs lit]}))
          (assignment s, variables s) (iter_set (pure_lits s)) in
  State
    (filter (λ clause, Forall (λ lit, Z.abs lit ∉ pure_vars) clause)
            (clauses s))
    vs a ∅.

(** [next(iter(self.variables))] *)
Definition select_variable (s : state) : result Z :=
  or_raise StopIteration (head (iter_set (variables s))).

Definition apply_variable_elimination (var : Z) (s : state)
  : result state :=
  let pos_clauses := filter (λ c, var ∈ c) (clauses s) in
  let neg_clauses := filter (λ c, - var ∈ c) (clauses s) in
  let resolvents :=
    foldl (λ new r, if bool_decide (r ∈ new) then new else new ++ [r])
          []
          (pc ← pos_clauses; nc ← neg_clauses;
           [sorted (resolvent var pc nc)]) in
  let new_clauses :=
    resolvents
    ++ filter (λ c, (var ∉ c) ∧ ((- var) ∉ c)) (clauses s) in
  if bool_decide (var ∈ variables s)
  then Ok (State new_clauses (variables s ∖ {[var]}) (assignment s)
             (pure_lits s))
  else Raise KeyError.

(** The inner [while changed] loop; the flag is the [return False]. *)
Fixpoint propagate (fuel : nat) (s : state) : result (bool * state) :=
  match fuel with
  | O => OutOfFuel
  | S fuel' =>
      let '(changed, s1) := unit_propagation s in
      if contradiction_found s1 then Ok (true, s1)
      else if changed then propagate fuel' s1
      else Ok (false, s1)
  end.

Fixpoint solve (fuel : nat) (s : state) : result (bool * state) :=
  match fuel with
  | O => OutOfFuel
  | S fuel' =>
      '(contradiction, s1) ← propagate fuel' s;
      if (contradiction : bool) then Ok (false, s1)
      else
        let s2 := find_pure_literals s1 in
        if bool_decide (pure_lits s2 ≠ ∅)
        then solve fuel' (apply_pure_literals s2)
        else if bool_decide (variables s2 = ∅) then Ok (true, s2)
        else
          var ← select_variable s2;
          s3 ← apply_variable_elimination var s2;
          solve fuel' s3
  end.
End with_order.

Definition lit_true (a : gmap Z bool) (l : Z) : bool :=
  bool_decide (a !! Z.abs l = Some (0 <? l)).

(** The first loop of [unit_propagation]: the assignment and the flag
    after the unit literals [lits]. *)
Definition assign_units (a : gmap Z bool) (changed : bool) (lits : list Z)
  : gmap Z bool * bool :=
  foldl (λ '(a, changed) lit,
           match a !! Z.abs lit with
           | Some b => (a, changed)
           | None => (<[Z.abs lit := 0 <? lit]> a, true)
           end)
        (a, changed) lits.

(** What [solve] returns with: an empty clause in the list for [False],
    no variable left and no empty clause for [True]. *)
Definition solved (b : bool) (s : state) : Prop :=
  if b then variables s = ∅ ∧ [] ∉ clauses s else [] ∈ clauses s.

End DP.

(** The order in which Python walks a [set] of [frozenset]s. *)
Class ClauseIteration := {
    iter_clauses : gset (gset Z) → list (gset Z);
    iter_clauses_perm : ∀ X, iter_clauses X ≡ₚ elements X
  }.

Definition clause_elements_order : ClauseIteration :=
  {| iter_clauses := elements; iter_clauses_perm := fun X => reflexivity _ |}.

(** ** The splitting solver of sudoku_dp.py *)
Module SudokuDP.

(** The counters of [self.stats]; the wall-clock entry ["time"] is left
    out. *)
Record counters := Counters {
    splitting_steps : Z;
    unit_propagations : Z;
    pure_eliminations : Z;
    clauses_left : Z
  }.

(** The fields of [DavisPutnam]. *)
Record state := State {
    clauses : gset (gset Z);
    variables : gset Z;
    assignments : gmap Z bool;
    stats : counters
  }.

Definition init : state := State ∅ ∅ ∅ (Counters 0 0 0 0).

Definition with_clauses (x : gset (gset Z)) (s : state) : state :=
  State x (variables s) (assignments s) (stats s).
Definition with_stats (x : counters) (s : state) : state :=
  State (clauses s) (variables s) (assignments s) x.

(** [self.stats["clauses"] = len(self.clauses)] *)
Definition count_clauses (s : state) : state :=
  with_stats
    (Counters (splitting_steps (stats s)) (unit_propagations (stats s))
       (pure_eliminations (stats s)) (Z.of_nat (size (clauses s)))) s.

Definition add_clause (clause : list Z) (s : state) : state :=
  State ({[list_to_set clause]} ∪ clauses s)
    (variables s ∪ list_to_set (Z.abs <$> clause))
    (assignments s) (stats s).

(** [len(c) == 1] and [next(iter(c))] *)
Definition unit_literal (c : gset Z) : option Z :=
  match elements c with
  | [literal] => Some literal
  | _ => None
  end.

(** How the body of the [for clause in unit_clauses] loop ends: with the
    [return False], or by going on to the next clause. *)
Inductive pass_result :=
  | Conflict (s : state)
  | Passed (changed : bool) (s : state).

(** The body of the loop for the unit clause of [literal].  The inner
    loop over the clauses returns [False] when it meets a clause whose
    only literal is [-literal], whichever clause it meets first;
    [self.clauses] then is the set without the satisfied clauses. *)
Definition propagate_unit (literal : Z) (changed : bool) (s : state)
  : pass_result :=
  let st := stats s in
  let s0 :=
    with_stats
      (Counters (splitting_steps st) (unit_propagations st + 1)
         (pure_eliminations st) (clauses_left st)) s in
  let var := Z.abs literal in
  let value := 0 <? literal in
  match assignments s0 !! var with
  | Some b => if bool_decide (b ≠ value) then Conflict s0 else Passed changed s0
  | None =>
      let a := <[var := value]> (assignments s0) in
      let kept : gset (gset Z) := filter (λ c, literal ∉ c) (clauses s0) in
      if bool_decide ({[- literal]} ∈ kept)
      then Conflict (State kept (variables s0) a (stats s0))
      else
        Passed true
          (State (set_map (λ c : gset Z, c ∖ {[- literal]}) kept)
             (variables s0) a (stats s0))
  end.

Fixpoint unit_pass (literals : list Z) (changed : bool) (s : state)
  : pass_result :=
  match literals with
  | [] => Passed changed s
  | literal :: rest =>
      match propagate_unit literal changed s with
      | Conflict s' => Conflict s'
      | Passed changed' s' => unit_pass rest changed' s'
      end
  end.

Section with_order.
Context `{SetIteration} `{ClauseIteration}.

(** The result is the returned value and the solver. *)
Fixpoint unit_propagate (fuel : nat) (s : state) : result (bool * state) :=
  match fuel with
  | O => OutOfFuel
  | S fuel' =>
      let unit_clauses := omap unit_literal (iter_clauses (clauses s)) in
      match unit_pass unit_clauses false s with
      | Conflict s' => Ok (false, s')
      | Passed true s' => unit_propagate fuel' s'
      | Passed false s' => Ok (true, s')
      end
  end.

(** The keys of [literal_counts] are the literals of the clauses;
    [pure_literals] lists those whose negation is no key. *)
Definition pure_literal_elimination (s : state) : state :=
  let literals : gset Z := ⋃ (elements (clauses s)) in
  let pure_literals := filter (λ literal, - literal ∉ literals) literals in
  foldl (λ s literal,
           let st := stats s in
           let var := Z.abs literal in
           State (filter (λ c, literal ∉ c) (clauses s)) (variables s)
             (match assignments s !! var with
              | None => <[var := 0 <? literal]> (assignments s)
              | Some _ => assignments s
              end)
             (Counters (splitting_steps st) (unit_propagations st)
                (pure_eliminations st + 1) (clauses_left st)))
        s (iter_set pure_literals).

Definition choose_variable (s : state) : option Z :=
  head (filter (λ var, assignments s !! var = None)
               (iter_set (variables s))).

(** [solve]: [deepcopy] gives the sub-solvers the state of [self]; a
    sub-solver that succeeds hands back its clauses, assignments and
    counters. *)
Fixpoint solve (fuel : nat) (s : state) : result (bool * state) :=
  match fuel with
  | O => OutOfFuel
  | S fuel' =>
      '(ok, s1) ← unit_propagate fuel' s;
      if negb ok then Ok (false, count_clauses s1)
      else
        let s2 := pure_literal_elimination s1 in
        if bool_decide (clauses s2 = ∅) then Ok (true, count_clauses s2)
        else
          match choose_variable s2 with
          | None => Ok (true, count_clauses s2)
          | Some var =>
              let st := stats s2 in
              let s3 :=
                with_stats
                  (Counters (splitting_steps st + 1) (unit_propagations st)
                     (pure_eliminations st) (clauses_left st)) s2 in
              '(r1, solver_true) ←
                solve fuel' (with_clauses ({[ {[var]} ]} ∪ clauses s3) s3);
              if (r1 : bool) then
                Ok (true,
                    State (clauses solver_true) (variables s3)
                      (assignments solver_true) (stats solver_true))
              else
                '(r2, solver_false) ←
                  solve fuel'
                    (with_clauses ({[ {[- var]} ]} ∪ clauses s3) s3);
                if (r2 : bool) then
                  Ok (true,
                      State (clauses solver_false) (variables s3)
                        (assignments solver_false) (stats solver_false))
                else Ok (false, s3)
          end
  end.
End with_order.

(** *** [encode_sudoku] and [solve_sudoku_dp] *)

(** [range(n)] *)
Definition range (n : Z) : list Z := Z.of_nat <$> seq 0 (Z.to_nat n).

(** [sudoku_grid[row][col]], for indices that are not negative. *)
Definition grid_at (grid : list (list Z)) (row col : Z) : result Z :=
  cells ← or_raise IndexError (grid !! Z.to_nat row);
  or_raise IndexError (cells !! Z.to_nat col).

(** The clauses of each of the six loops, in the order of the
    [add_clause] calls. *)
Definition cell_clauses (n : Z) : list (list Z) :=
  row ← range n; col ← range n;
  [Sudoku.cell_var n row col <$> range n].

Definition cell_exclusions (n : Z) : list (list Z) :=
  row ← range n; col ← range n;
  '(num1, num2) ← Resolution.combinations2 (range n);
  [[- Sudoku.cell_var n row col num1; - Sudoku.cell_var n row col num2]].

Definition row_exclusions (n : Z) : list (list Z) :=
  row ← range n; num ← range n;
  '(col1, col2) ← Resolution.combinations2 (range n);
  [[- Sudoku.cell_var n row col1 num; - Sudoku.cell_var n row col2 num]].

Definition column_exclusions (n : Z) : list (list Z) :=
  col ← range n; num ← range n;
  '(row1, row2) ← Resolution.combinations2 (range n);
  [[- Sudoku.cell_var n row1 col num; - Sudoku.cell_var n row2 col num]].

Definition subgrid_cells (sqrt_n subgrid_row subgrid_col : Z)
  : list (Z * Z) :=
  i ← range sqrt_n; j ← range sqrt_n;
  [(subgrid_row * sqrt_n + i, subgrid_col * sqrt_n + j)].

Definition subgrid_exclusions (n sqrt_n : Z) : list (list Z) :=
  subgrid_row ← range sqrt_n; subgrid_col ← range sqrt_n; num ← range n;
  '((r1, c1), (r2, c2)) ←
    Resolution.combinations2 (subgrid_cells sqrt_n subgrid_row subgrid_col);
  [[- Sudoku.cell_var n r1 c1 num; - Sudoku.cell_var n r2 c2 num]].

Definition given_clauses (n : Z) (grid : list (list Z))
  : result (list (list Z)) :=
  clauses ←
    mapM (λ '(row, col),
            given ← grid_at grid row col;
            Ok (if decide (given ≠ 0)
                then [[Sudoku.cell_var n row col (given - 1)]]
                else []))
         (row ← range n; col ← range n; [(row, col)]);
  Ok (concat clauses).

(** [int(n ** 0.5)] is the integer square root for every list length
    below 2^52. *)
Definition encode_sudoku (sudoku_grid : list (list Z)) : result state :=
  let n := Z.of_nat (length sudoku_grid) in
  let sqrt_n := Z.sqrt n in
  givens ← given_clauses n sudoku_grid;
  Ok (foldl (λ solver clause, add_clause clause solver) init
        (cell_clauses n ++ cell_exclusions n ++ row_exclusions n
         ++ column_exclusions n ++ subgrid_exclusions n sqrt_n ++ givens)).

(** A Python list index: negative ones count from the end. *)
Definition list_index (len : nat) (i : Z) : option nat :=
  if decide (0 ≤ i < Z.of_nat len) then Some (Z.to_nat i)
  else if decide (- Z.of_nat len ≤ i < 0) then Some (Z.to_nat (Z.of_nat len + i))
  else None.

(** [solution[row][col] = num] *)
Definition write_cell (solution : list (list Z)) (row col num : Z)
  : option (list (list Z)) :=
  r ← list_index (length solution) row;
  cells ← solution !! r;
  c ← list_index (length cells) col;
  Some (<[r := <[c := num]> cells]> solution).

(** How [solve_sudoku_dp] ends: with a grid, with [None], or with an
    exception of the decoding loop. *)
Inductive outcome :=
  | Solution (solution : list (list Z))
  | NoSolution
  | DecodeIndexError
  | DecodeZeroDivisionError.

(** The loop over [solver.assignments.items()], [items] being the items
    in the order of the dict. *)
Fixpoint decode_items (n : Z) (items : list (Z * bool))
    (solution : list (list Z)) : outcome :=
  match items with
  | [] => Solution solution
  | (var, value) :: rest =>
      if value then
        if decide (n = 0) then DecodeZeroDivisionError
        else
          let '(row, col, num) := Sudoku.decode n var in
          match write_cell solution row col num with
          | Some solution' => decode_items n rest solution'
          | None => DecodeIndexError
          end
      else decode_items n rest solution
  end.

(** The order in which a [dict] of assignments gives its items. *)
Class ItemsIteration := {
    iter_items : gmap Z bool → list (Z * bool);
    iter_items_perm : ∀ a, iter_items a ≡ₚ map_to_list a
  }.

Definition items_order : ItemsIteration :=
  {| iter_items := map_to_list; iter_items_perm := fun a => reflexivity _ |}.

Section with_order.
Context `{SetIteration} `{ClauseIteration} `{ItemsIteration}.

Definition solve_sudoku_dp (fuel : nat) (sudoku_grid : list (list Z))
  : result (outcome * counters) :=
  solver ← encode_sudoku sudoku_grid;
  '(result, solver') ← solve fuel solver;
  if (result : bool) then
    let n := Z.of_nat (length sudoku_grid) in
    let solution :=
      replicate (Z.to_nat n) (replicate (Z.to_nat n) 0) in
    Ok (decode_items n (iter_items (assignments solver')) solution,
        stats solver')
  else Ok (NoSolution, stats solver').
End with_order.

(** The entry of a grid, 0 outside of it. *)
Definition cell (g : list (list Z)) (r c : Z) : Z :=
  default 0 (g !! Z.to_nat r ≫= λ cells, cells !! Z.to_nat c).

(** A puzzle of side [n = k * k]: [n] rows of [n] entries between 0 and
    [n], 0 for an empty cell. *)
Record puzzle (k n : Z) (g : list (list Z)) : Prop := Puzzle {
    puzzle_side : n = k * k ∧ 0 ≤ k;
    puzzle_rows : Z.of_nat (length g) = n;
    puzzle_columns : ∀ cells, cells ∈ g → Z.of_nat (length cells) = n;
    puzzle_entries : ∀ r c, 0 ≤ r < n → 0 ≤ c < n → 0 ≤ cell g r c ≤ n
  }.

(** A filled grid that solves the puzzle: every entry between 1 and [n],
    no number twice in a row, a column or a [k]-by-[k] subgrid, and the
    given entries kept. *)
Record solves (k n : Z) (g solution : list (list Z)) : Prop := Solves {
    solves_rows : Z.of_nat (length solution) = n;
    solves_columns : ∀ cells, cells ∈ solution → Z.of_nat (length cells) = n;
    solves_entries : ∀ r c,
      0 ≤ r < n → 0 ≤ c < n → 1 ≤ cell solution r c ≤ n;
    solves_row : ∀ r c1 c2,
      0 ≤ r < n → 0 ≤ c1 < n → 0 ≤ c2 < n → c1 ≠ c2 →
      cell solution r c1 ≠ cell solution r c2;
    solves_column : ∀ c r1 r2,
      0 ≤ c < n → 0 ≤ r1 < n → 0 ≤ r2 < n → r1 ≠ r2 →
      cell solution r1 c ≠ cell solution r2 c;
    solves_subgrid : ∀ r1 c1 r2 c2,
      0 ≤ r1 < n → 0 ≤ c1 < n → 0 ≤ r2 < n → 0 ≤ c2 < n →
      (r1, c1) ≠ (r2, c2) →
      r1 `div` k = r2 `div` k → c1 `div` k = c2 `div` k →
      cell solution r1 c1 ≠ cell solution r2 c2;
    solves_given : ∀ r c,
      0 ≤ r < n → 0 ≤ c < n → cell g r c ≠ 0 →
      cell solution r c = cell g r c
  }.

(** The clauses [encode_sudoku] is after: two placements of a number in
    a cell that exclude each other, namely two numbers in one cell or
    one number in two cells of a row, a column or a subgrid. *)
Definition placed (n r c m : Z) : Prop := 0 ≤ r < n ∧ 0 ≤ c < n ∧ 0 ≤ m < n.

Definition conflict (k r1 c1 m1 r2 c2 m2 : Z) : Prop :=
  (r1 = r2 ∧ c1 = c2 ∧ m1 ≠ m2)
  ∨ (m1 = m2 ∧ (r1, c1) ≠ (r2, c2)
     ∧ (r1 = r2 ∨ c1 = c2
        ∨ (r1 `div` k = r2 `div` k ∧ c1 `div` k = c2 `div` k))).

Inductive encoded (k n : Z) (g : list (list Z)) : list Z → Prop :=
  | encoded_cell r c :
      0 ≤ r < n → 0 ≤ c < n →
      encoded k n g (Sudoku.cell_var n r c <$> range n)
  | encoded_exclusion r1 c1 m1 r2 c2 m2 :
      placed n r1 c1 m1 → placed n r2 c2 m2 →
      conflict k r1 c1 m1 r2 c2 m2 →
      encoded k n g
        [- Sudoku.cell_var n r1 c1 m1; - Sudoku.cell_var n r2 c2 m2]
  | encoded_given r c :
      0 ≤ r < n → 0 ≤ c < n → cell g r c ≠ 0 →
      encoded k n g [Sudoku.cell_var n r c (cell g r c - 1)].

(** The valuation a filled grid stands for: a variable is true when its
    cell holds its number. *)
Definition placement (n : Z) (solution : list (list Z)) (var : Z) : bool :=
  let '(row, col, num) := Sudoku.decode n var in
  bool_decide (cell solution row col = num).

(** The meaning of the clauses: a literal is true under the solver's
    assignments, or under a valuation of all the variables. *)
Definition lit_true (a : gmap Z bool) (l : Z) : Prop :=
  a !! Z.abs l = Some (0 <? l).

Definition sat_by (a : gmap Z bool) (c : gset Z) : Prop :=
  ∃ l, l ∈ c ∧ lit_true a l.

Definition holds (v : Z → bool) (l : Z) : Prop := v (Z.abs l) = (0 <? l).

Definition models (v : Z → bool) (F : gset (gset Z)) : Prop :=
  ∀ c, c ∈ F → ∃ l, l ∈ c ∧ holds v l.

Definition extends (v : Z → bool) (a : gmap Z bool) : Prop :=
  ∀ x b, a !! x = Some b → v x = b.

(** No valuation that agrees with the assignments makes the clauses
    true. *)
Definition refuted (s : state) : Prop :=
  ¬ ∃ v, extends v (assignments s) ∧ models v (clauses s).

(** The solver between the steps of [solve]: the clauses are not empty
    and mention unassigned variables of [variables] only, and the
    variables are positive. *)
Record ready (s : state) : Prop := Ready {
    ready_unassigned : ∀ c l,
      c ∈ clauses s → l ∈ c → assignments s !! Z.abs l = None;
    ready_nonempty : ∅ ∉ clauses s;
    ready_variables : ∀ c l, c ∈ clauses s → l ∈ c → Z.abs l ∈ variables s;
    ready_positive : ∀ x, x ∈ variables s → 0 < x
  }.

(** [s'] comes after [s]: the assignments grew, by variables of the
    solver, every clause of [s] is true under them or has a part left in
    [s'], and a model of [s] gives one of [s']. *)
Record follows (s s' : state) : Prop := Follows {
    follows_assignments : assignments s ⊆ assignments s';
    follows_variables : variables s' = variables s;
    follows_assigned : ∀ x,
      is_Some (assignments s' !! x) →
      is_Some (assignments s !! x) ∨ x ∈ variables s;
    follows_clauses : ∀ c,
      c ∈ clauses s →
      sat_by (assignments s') c ∨ ∃ c', c' ∈ clauses s' ∧ c' ⊆ c;
    follows_models : ∀ v,
      extends v (assignments s) → models v (clauses s) →
      ∃ v', extends v' (assignments s') ∧ models v' (clauses s')
  }.

(** The variables a split can still be made on: unassigned and not
    forced by a one-literal clause. *)
Definition open_variables (s : state) : gset Z :=
  filter (λ x, assignments s !! x = None
               ∧ ({[x]} ∉ clauses s) ∧ ({[- x]} ∉ clauses s))
         (variables s).

(** A solver with three clauses, and a 4-by-4 puzzle. *)
Definition example_solver : state :=
  foldl (λ solver clause, add_clause clause solver) init
    [[1; 2]; [-1; 2]; [-2; 3]].

Definition example_puzzle : list (list Z) :=
  [[1; 0; 0; 0]; [0; 0; 3; 0]; [0; 4; 0; 0]; [0; 0; 0; 2]].

End SudokuDP.

(** ** Properties *)

Section sudoku_facts.
Import Sudoku.

Lemma cell_var_index n row col num :
  cell_var n row col num - 1 = (row * n + col) * n + num.
Proof. unfold cell_var. lia. Qed.

(** C10: encoding a cell and number to a variable and decoding the variable
    gives back the row, the column and the number plus one, for every
    N = k*k and row, col, num in [0, N). *)
Theorem sudoku_decode_encode (k n row col num : Z) :
  n = k * k →
  0 ≤ row < n → 0 ≤ col < n → 0 ≤ num < n →
  decode n (cell_var n row col num) = (row, col, num + 1).
Proof.
  intros _ Hrow Hcol Hnum. unfold decode. cbv zeta.
  rewrite cell_var_index.
  assert (Hn : 0 < n) by lia.
  assert (Hdiv : ((row * n + col) * n + num) `div` n = row * n + col).
  { rewrite Z.div_add_l by lia. rewrite (Z.div_small num n) by lia. lia. }
  assert (Hmod : ((row * n + col) * n + num) `mod` n = num).
  { rewrite Z.add_comm, Z.mod_add by lia. apply Z.mod_small; lia. }
  assert (Hcolm : (row * n + col) `mod` n = col).
  { rewrite Z.add_comm, Z.mod_add by lia. apply Z.mod_small; lia. }
  assert (Hrowd : ((row * n + col) * n + num) `div` (n * n) = row).
  { rewrite <- Z.div_div by lia. rewrite Hdiv.
    rewrite Z.div_add_l by lia. rewrite (Z.div_small col n) by lia. lia. }
  rewrite Hdiv, Hmod, Hcolm, Hrowd. reflexivity.
Qed.

Lemma sudoku_decode_encode_witness :
  decode 9 (cell_var 9 4 7 2) = (4, 7, 3).
Proof. apply (sudoku_decode_encode 3); lia. Defined.

End sudoku_facts.

Lemma result_bind_Ok {A B} (a : A) (f : A → result B) : Ok a ≫= f = f a.
Proof. reflexivity. Qed.

(** *** Ordered dictionaries *)
Section odict_facts.
Context {K V : Type} `{EqDecision K}.
Implicit Types (d : list (K * V)) (k : K) (v : V).

Lemma od_mem_spec k d : od_mem k d = true ↔ k ∈ d.*1.
Proof.
  unfold od_mem. rewrite bool_decide_eq_true.
  induction d as [|[k' v'] d IH]; simpl.
  - split; [intros [? [=]] | intros Hin; inversion Hin].
  - destruct (decide (k = k')) as [->|Hne].
    + split; [intros _; apply elem_of_cons; by left | eauto].
    + rewrite IH, elem_of_cons. split; [by right | by intros [?|?]].
Qed.

Lemma od_mem_false k d : od_mem k d = false ↔ k ∉ d.*1.
Proof.
  rewrite <- od_mem_spec. destruct (od_mem k d); split; congruence.
Qed.

Lemma od_set_fresh k v d : k ∉ d.*1 → od_set k v d = d ++ [(k, v)].
Proof.
  induction d as [|[k' v'] d IH]; simpl; [done|].
  intros Hnotin. apply not_elem_of_cons in Hnotin as [Hne Hd].
  destruct (decide (k = k')); [done|]. by rewrite IH.
Qed.

Lemma od_get_app_fresh k v d : k ∉ d.*1 → od_get k (d ++ [(k, v)]) = Some v.
Proof.
  induction d as [|[k' v'] d IH]; simpl.
  - intros _. by rewrite decide_True.
  - intros Hnotin. apply not_elem_of_cons in Hnotin as [Hne Hd].
    rewrite decide_False by done. auto.
Qed.

Lemma od_get_elem k d : k ∈ d.*1 → is_Some (od_get k d).
Proof.
  intros Hk. apply od_mem_spec in Hk. unfold od_mem in Hk.
  by apply bool_decide_eq_true in Hk.
Qed.
End odict_facts.

(** *** The stable sort of [select_variable] *)
Section sort_facts.
Import CDCL.

Lemma insert_by_key_perm key x l : insert_by_key key x l ≡ₚ x :: l.
Proof.
  induction l as [|y l IH]; simpl; [done|].
  destruct (Qle_bool (key x) (key y)); [done|].
  rewrite IH. apply Permutation_swap.
Qed.

Lemma sort_by_key_perm key l : sort_by_key key l ≡ₚ l.
Proof.
  induction l as [|x l IH]; simpl; [done|].
  by rewrite insert_by_key_perm, IH.
Qed.

Lemma head_sort_by_key key l v :
  head (sort_by_key key l) = Some v → v ∈ l.
Proof.
  intros Hhd. rewrite <- (sort_by_key_perm key l).
  destruct (sort_by_key key l); simplify_eq/=. left.
Qed.

Lemma head_sort_by_key_is_Some key l :
  l ≠ [] → is_Some (head (sort_by_key key l)).
Proof.
  intros Hl. pose proof (sort_by_key_perm key l) as Hp.
  destruct (sort_by_key key l); simpl; [|eauto].
  symmetry in Hp. apply Permutation_nil_r in Hp. done.
Qed.
End sort_facts.

(** *** CDCL: the driver never meets a conflict *)
Section cdcl_quiet.
Import CDCL.
Context `{SetIteration}.

Lemma iter_set_elem (X : gset Z) v : v ∈ iter_set X ↔ v ∈ X.
Proof. by rewrite (iter_set_perm X), elem_of_elements. Qed.

Lemma iter_set_singleton (x : Z) : iter_set {[x]} = [x].
Proof.
  pose proof (iter_set_perm {[x]}) as Hp.
  rewrite elements_singleton in Hp. by apply Permutation_singleton_r.
Qed.

(** The loader touches the clause list and the variable set only. *)
Lemma foldl_parse_line s lines :
  foldl parse_line s lines
  = with_variables (variables (foldl parse_line s lines))
      (with_clauses (clauses (foldl parse_line s lines)) s).
Proof.
  induction lines as [|ln lines IH] using rev_ind; [by destruct s|].
  rewrite foldl_app. simpl.
  destruct (foldl parse_line s lines) as [cs vs a dl vi wl lc tr tl cc rt va vo].
  unfold with_variables, with_clauses in IH. simpl in IH.
  injection IH as -> -> -> -> -> -> -> -> -> -> ->.
  destruct ln as [|toks]; simpl; [done|].
  by destruct (line_literals toks).
Qed.

Lemma foldl_parse_line_variables s lines :
  variables s ⊆ variables (foldl parse_line s lines).
Proof.
  induction lines as [|ln lines IH] using rev_ind; [done|].
  rewrite foldl_app. simpl. etrans; [apply IH|].
  destruct ln as [|toks]; simpl; [done|].
  destruct (line_literals toks); simpl; set_solver.
Qed.

Lemma foldl_parse_line_nonneg s lines :
  (∀ v, v ∈ variables s → 0 ≤ v) →
  ∀ v, v ∈ variables (foldl parse_line s lines) → 0 ≤ v.
Proof.
  intros Hs. induction lines as [|ln lines IH] using rev_ind; [done|].
  rewrite foldl_app. simpl.
  assert (∀ v toks,
            v ∈ variables (foldl parse_line s lines)
                ∪ list_to_set (Z.abs <$> line_literals toks) → 0 ≤ v) as Hadd.
  { intros v toks [Hv|Hv]%elem_of_union; [by apply IH|].
    apply elem_of_list_to_set, list_elem_of_fmap in Hv as (lit & -> & _). lia. }
  destruct ln as [|toks]; simpl; [done|].
  destruct (line_literals toks) eqn:Hl; simpl; intros v Hv;
    apply (Hadd v toks); by rewrite Hl.
Qed.

Lemma init_quiet : quiet init.
Proof.
  split; simpl; try done;
    first [by constructor | by inversion 1 | set_solver].
Qed.

Lemma parse_dimacs_quiet lines s : quiet s → quiet (parse_dimacs lines s).
Proof.
  intros [Ha Hnd Htv Hnn Hord Hlvl Hlim Hlc Hcc].
  pose proof (foldl_parse_line_variables s lines) as Hmono.
  pose proof (foldl_parse_line_nonneg s lines Hnn) as Hnn'.
  unfold parse_dimacs, initialize_data_structures.
  rewrite foldl_parse_line in *. simpl in *.
  split; simpl; try done; [by auto|].
  intros v. rewrite elem_of_app, iter_set_elem, <- Hord. set_solver.
Qed.

Lemma quiet_mem s v : quiet s → od_mem v (assignment s) = true ↔ v ∈ trail s.
Proof.
  intros Hq. rewrite od_mem_spec, (quiet_assignment _ Hq).
  rewrite <- list_fmap_compose. by rewrite list_fmap_id.
Qed.

Lemma quiet_lockstep s : quiet s → length (trail s) = length (assignment s).
Proof. intros Hq. by rewrite (quiet_assignment _ Hq), length_fmap. Qed.

(** With trail and assignment of equal length the loop of
    [unit_propagation] is not entered. *)
Lemma unit_propagation_idle fuel s :
  length (trail s) = length (assignment s) →
  unit_propagation (S fuel) s = Ok (None, s).
Proof.
  intros Hlen. simpl.
  by rewrite (proj2 (Nat.ltb_ge _ _)) by lia.
Qed.

Lemma select_variable_eq s :
  select_variable s
  = let unassigned :=
      filter (λ var, od_mem var (assignment s) = false) (var_order s) in
    let act :=
      foldl (λ m v, match m !! v with
                    | None => <[v := 0%Q]> m
                    | Some _ => m
                    end) (var_activity s) unassigned in
    if decide (unassigned = []) then (None, s)
    else (head (sort_by_key (λ v, (- activity_of act v)%Q) unassigned),
          with_var_activity act s).
Proof. unfold select_variable. by destruct (filter _ (var_order s)). Qed.

Lemma select_variable_frame s r s' :
  select_variable s = (r, s') →
  s' = with_var_activity (var_activity s') s.
Proof.
  rewrite select_variable_eq. cbv zeta.
  case_decide; intros [= <- <-]; by destruct s.
Qed.

Lemma select_variable_Some s v s' :
  select_variable s = (Some v, s') →
  v ∈ var_order s ∧ od_mem v (assignment s) = false.
Proof.
  rewrite select_variable_eq. cbv zeta.
  case_decide; intros [= Hhd _].
  apply head_sort_by_key in Hhd.
  by apply list_elem_of_filter in Hhd as [? ?].
Qed.

Lemma select_variable_None s s' :
  select_variable s = (None, s') →
  ∀ v, v ∈ var_order s → od_mem v (assignment s) = true.
Proof.
  rewrite select_variable_eq. cbv zeta.
  case_decide as Hf; intros Heq.
  - intros v Hv. destruct (od_mem v (assignment s)) eqn:Hm; [done|].
    assert (v ∈ filter (λ var, od_mem var (assignment s) = false)
              (var_order s)) as Hin by by apply list_elem_of_filter.
    rewrite Hf in Hin. inversion Hin.
  - injection Heq as Hhd _.
    eapply head_sort_by_key_is_Some in Hf. rewrite Hhd in Hf.
    by destruct Hf.
Qed.

(** One turn of the driver from a quiet state: it returns SAT with every
    variable assigned, or takes one more decision. *)
Lemma on_no_conflict_quiet s :
  quiet s →
  match on_no_conflict s with
  | Return b s' =>
      b = true ∧ quiet s' ∧ trail s' = trail s
      ∧ (∀ v, v ∈ variables s → v ∈ trail s)
  | Continue s' =>
      quiet s' ∧ length (trail s') = S (length (trail s))
  end
  ∧ clauses (flow_state (on_no_conflict s)) = clauses s
  ∧ variables (flow_state (on_no_conflict s)) = variables s.
Proof.
  intros Hq. unfold on_no_conflict. case_bool_decide as Hall.
  - simpl. split_and!; try done.
    intros v Hv. apply (quiet_mem _ _ Hq). by apply Hall.
  - destruct (select_variable s) as [[v|] s1] eqn:Hsel.
    + pose proof (select_variable_frame _ _ _ Hsel) as Hs1.
      apply select_variable_Some in Hsel as [Hvo Hfresh].
      assert (v ∉ trail s) as Hnotin.
      { rewrite <- (quiet_mem _ _ Hq). by rewrite Hfresh. }
      assert (v ∉ (assignment s).*1) as Hkey by by apply od_mem_false.
      rewrite Hs1. destruct Hq as [Ha Hnd Htv Hnn Hord Hlvl Hlim Hlc Hcc].
      simpl. split_and!; try done; [|by rewrite length_app; simpl; lia].
      split; simpl; try done.
      * rewrite od_set_fresh by done. by rewrite Ha, fmap_app.
      * apply NoDup_app. split_and!; [done| |apply NoDup_singleton].
        intros x Hx ->%list_elem_of_singleton. done.
      * intros x [Hx | ->%list_elem_of_singleton]%elem_of_app; [auto|].
        by apply Hord.
      * rewrite length_app. simpl. lia.
      * rewrite length_app, Hlim. simpl.
        rewrite Nat.add_1_r, seq_S. done.
    + exfalso. apply Hall. intros v Hv.
      eapply select_variable_None; [done|]. by apply (quiet_order _ Hq).
Qed.

Lemma cdcl_iteration_quiet fuel s :
  quiet s → cdcl_iteration (S fuel) s = Ok (on_no_conflict s).
Proof.
  intros Hq. unfold cdcl_iteration.
  by rewrite unit_propagation_idle by by apply quiet_lockstep.
Qed.

Lemma cdcl_iteration_quiet_inv fuel s f :
  quiet s → cdcl_iteration fuel s = Ok f → f = on_no_conflict s.
Proof.
  intros Hq. destruct fuel as [|fuel]; [done|].
  rewrite cdcl_iteration_quiet by done. congruence.
Qed.

Lemma reachable_quiet s : reachable s → quiet s.
Proof.
  induction 1 as [| lines s _ IH | fuel s f _ IH Hturn].
  - apply init_quiet.
  - by apply parse_dimacs_quiet.
  - apply cdcl_iteration_quiet_inv in Hturn as ->; [|done].
    pose proof (on_no_conflict_quiet s IH) as [Hf _].
    destruct (on_no_conflict s); simpl; tauto.
Qed.

Lemma seq_sorted a n : Sorted le (seq a n).
Proof.
  revert a. induction n as [|n IH]; intros a; simpl; [constructor|].
  constructor; [apply IH|]. destruct n; simpl; constructor. lia.
Qed.

(** In every reachable state the trail and its level marks fit
    together. *)
Lemma quiet_trail_wf s : quiet s → trail_wf s.
Proof.
  intros [Ha Hnd Htv Hnn Hord Hlvl Hlim Hlc Hcc]. split.
  - by rewrite Hlvl, Hlim, length_seq.
  - rewrite Hlim. apply seq_sorted.
  - rewrite Hlim. apply Forall_forall. intros i Hi%list_elem_of_In%in_seq. lia.
  - replace (Z.abs <$> trail s) with (trail s); [done|].
    rewrite <- (list_fmap_id (trail s)) at 1. apply list_fmap_ext.
    intros i v Hv. simpl.
    assert (0 ≤ v) by (apply Hnn, Htv; by eapply list_elem_of_lookup_2). lia.
  - intros lit Hlit. rewrite Ha, <- list_fmap_compose.
    by rewrite list_fmap_id.
Qed.

Lemma reachable_trail_wf s : reachable s → trail_wf s.
Proof. intros Hs%reachable_quiet. by apply quiet_trail_wf. Qed.

Lemma quiet_trail_bound s :
  quiet s → (length (trail s) ≤ size (variables s))%nat.
Proof.
  intros Hq. rewrite <- (size_list_to_set (C := gset Z) (trail s))
    by apply (quiet_nodup _ Hq).
  apply subseteq_size. intros v Hv. apply elem_of_list_to_set in Hv.
  by apply (quiet_trail_vars _ Hq).
Qed.

Lemma quiet_all_assigned s :
  quiet s → (∀ v, v ∈ variables s → v ∈ trail s) →
  length (trail s) = size (variables s).
Proof.
  intros Hq Hall. rewrite <- (size_list_to_set (C := gset Z) (trail s))
    by apply (quiet_nodup _ Hq).
  f_equal. apply set_eq. intros v. rewrite elem_of_list_to_set.
  split; [apply (quiet_trail_vars _ Hq) | apply Hall].
Qed.

Lemma cdcl_S fuel s :
  cdcl (S fuel) s
  = cdcl_iteration fuel s ≫= λ r,
      match r with
      | Return b s' => Ok (b, s')
      | Continue s' => cdcl fuel s'
      end.
Proof. reflexivity. Qed.

(** From a quiet state the driver returns SAT after deciding every
    variable that is left, all of them true. *)
Lemma cdcl_from_quiet n s :
  quiet s →
  (size (variables s) - length (trail s) ≤ n)%nat →
  ∃ s', cdcl (n + 2) s = Ok (true, s') ∧ quiet s'
        ∧ clauses s' = clauses s ∧ variables s' = variables s
        ∧ ∀ v, v ∈ variables s' → v ∈ trail s'.
Proof.
  revert s. induction n as [|n IH]; intros s Hq Hn.
  - simpl. rewrite cdcl_iteration_quiet by done. simpl.
    pose proof (on_no_conflict_quiet s Hq) as (Hf & Hcl & Hvs).
    destruct (on_no_conflict s) as [b s'|s']; simpl in *.
    + destruct Hf as (-> & Hq' & Htr & Hall).
      exists s'. split_and!; try done.
      intros v Hv. rewrite Htr. apply Hall. by rewrite <- Hvs.
    + destruct Hf as [Hq' Hlen].
      pose proof (quiet_trail_bound _ Hq'). rewrite Hvs in *. lia.
  - replace (S n + 2)%nat with (S (S (n + 1))) by lia.
    rewrite cdcl_S, cdcl_iteration_quiet, result_bind_Ok by done.
    pose proof (on_no_conflict_quiet s Hq) as (Hf & Hcl & Hvs).
    destruct (on_no_conflict s) as [b s'|s']; simpl in Hf, Hcl, Hvs.
    + destruct Hf as (-> & Hq' & Htr & Hall).
      exists s'. split_and!; try done.
      intros v Hv. rewrite Htr. apply Hall. by rewrite <- Hvs.
    + destruct Hf as [Hq' Hlen].
      destruct (IH s' Hq') as (s'' & Hrun & Hq'' & Hcl' & Hvs' & Hall).
      { rewrite Hvs. lia. }
      exists s''. replace (S (n + 1)) with (n + 2)%nat by lia.
      split_and!; try done; congruence.
Qed.

(** The driver returns SAT on every input, with every variable true. *)
Lemma cdcl_always_sat lines :
  ∃ fuel s,
    cdcl fuel (parse_dimacs lines init) = Ok (true, s)
    ∧ quiet s
    ∧ clauses s = clauses (parse_dimacs lines init)
    ∧ variables s = variables (parse_dimacs lines init)
    ∧ length (trail s) = size (variables s)
    ∧ ∀ v, v ∈ variables s → od_get v (assignment s) = Some true.
Proof.
  destruct (cdcl_from_quiet (size (variables (parse_dimacs lines init)))
              (parse_dimacs lines init))
    as (s & Hrun & Hq & Hcl & Hvs & Hall);
    [apply parse_dimacs_quiet, init_quiet | lia |].
  exists (size (variables (parse_dimacs lines init)) + 2)%nat, s.
  split_and!; try done; [by apply quiet_all_assigned|].
  intros v Hv. apply Hall in Hv.
  rewrite (quiet_assignment _ Hq).
  clear -Hv. induction (trail s) as [|x l IHl]; [inversion Hv|].
  simpl. destruct (decide (v = x)); [done|].
  apply elem_of_cons in Hv as [?|?]; [done|auto].
Qed.

(** C6: in every reachable state of the solver the trail is as long as
    the assignment map, so the loop of [unit_propagation] is not entered:
    the call returns [None] and the solver, with its trail, assignment
    and watch lists, is as before. *)
Theorem unit_propagation_never_runs s :
  reachable s →
  length (trail s) = length (assignment s)
  ∧ ∀ fuel, unit_propagation (S fuel) s = Ok (None, s).
Proof.
  intros Hs%reachable_quiet%quiet_lockstep.
  split; [done|]. intros fuel. by apply unit_propagation_idle.
Qed.

(** C1 (the code departs from it): on the input [-1 0] the driver
    returns SAT and the model it holds sets variable 1 true, under which
    the clause [-1] of the input is false. *)
Theorem cdcl_model_falsifies_clause :
  ∃ fuel s,
    cdcl fuel (parse_dimacs [Tokens [-1; 0]] init) = Ok (true, s)
    ∧ clauses s = [[-1]]
    ∧ od_get 1 (assignment s) = Some true
    ∧ clause_true (assignment s) [-1] = false.
Proof.
  destruct (cdcl_always_sat [Tokens [-1; 0]])
    as (fuel & s & Hrun & _ & Hcl & Hvs & _ & Hall).
  exists fuel, s.
  assert (od_get 1 (assignment s) = Some true) as Hone.
  { apply Hall. rewrite Hvs. simpl. set_solver. }
  split_and!; try done.
  unfold clause_true, lit_true. cbn -[od_get].
  change (Z.abs (-1)) with 1. rewrite Hone.
  by rewrite bool_decide_eq_false_2.
Qed.

(** C4 (the code departs from it): on the two clauses [l] and [-l], for
    a literal [l] of either sign, the driver returns SAT; no conflict is
    counted and one decision is taken. *)
Theorem cdcl_unit_pair_sat (p : positive) (neg : bool) :
  let l := if neg then Z.neg p else Z.pos p in
  ∃ fuel s,
    cdcl fuel (parse_dimacs [Tokens [l; 0]; Tokens [- l; 0]] init)
    = Ok (true, s)
    ∧ clauses s = [[l]; [- l]]
    ∧ conflict_count s = 0
    ∧ decision_level s = 1
    ∧ trail s = [Z.pos p].
Proof.
  intros l.
  destruct (cdcl_always_sat [Tokens [l; 0]; Tokens [- l; 0]])
    as (fuel & s & Hrun & Hq & Hcl & Hvs & Hlen & Hall).
  exists fuel, s.
  assert (variables s = {[Z.pos p]}) as Hvars.
  { rewrite Hvs. subst l. destruct neg; simpl; set_solver. }
  rewrite Hvars, size_singleton in Hlen.
  split_and!; try done.
  - rewrite Hcl. subst l. by destruct neg.
  - apply (quiet_conflicts _ Hq).
  - by rewrite (quiet_level _ Hq), Hlen.
  - destruct (trail s) as [|x [|??]] eqn:Htr; simplify_eq/=.
    f_equal. assert (x ∈ variables s) as Hx.
    { apply (quiet_trail_vars _ Hq). rewrite Htr. left. }
    rewrite Hvars in Hx. by apply elem_of_singleton in Hx.
Qed.

End cdcl_quiet.

(** *** CDCL: what a handled conflict does to the clause database *)
Section cdcl_conflict.
Import CDCL.

Lemma same_clauses_refl s : same_clauses s s.
Proof. by repeat split. Qed.

Lemma same_clauses_trans s1 s2 s3 :
  same_clauses s1 s2 → same_clauses s2 s3 → same_clauses s1 s3.
Proof. unfold same_clauses. intros ? ?. split_and!; destruct_and!; congruence. Qed.

Lemma watch_loop_frame fuel neg_lit i to_remove s r to_remove' s' :
  watch_loop fuel neg_lit i to_remove s = Ok (r, to_remove', s') →
  same_clauses s s'.
Proof.
  revert i to_remove s.
  induction fuel as [|fuel IH]; intros i tr s Hrun; [done|].
  simpl in Hrun.
  destruct (default [] (watch_list s !! neg_lit) !! i) as [clause_idx|];
    [|injection Hrun as _ _ <-; apply same_clauses_refl].
  destruct (clause_at s clause_idx) as [clause| |]; simpl in Hrun; try done.
  destruct (find_new_watch (assignment s) neg_lit clause).
  { apply IH in Hrun. exact Hrun. }
  destruct (scan_clause (assignment s) clause []) as [[] unassigned].
  { by apply IH in Hrun. }
  destruct unassigned as [|unit_lit [|]];
    try (injection Hrun as _ _ <-; apply same_clauses_refl).
  destruct (od_mem (Z.abs unit_lit) (assignment s)).
  - destruct (negb _);
      [injection Hrun as _ _ <-; apply same_clauses_refl | by apply IH in Hrun].
  - by apply IH in Hrun.
Qed.

Lemma unit_propagation_frame fuel s r s' :
  unit_propagation fuel s = Ok (r, s') → same_clauses s s'.
Proof.
  revert s. induction fuel as [|fuel IH]; intros s Hrun; [done|].
  simpl in Hrun.
  destruct (length (trail s) <? length (assignment s))%nat;
    [|injection Hrun as _ <-; apply same_clauses_refl].
  destruct (next_unprocessed s) as [lit| |]; simpl in Hrun; try done.
  destruct (watch_loop fuel (- lit) 0 [] s) as [[[ret tr] s1]| |] eqn:Hloop;
    simpl in Hrun; try done.
  apply watch_loop_frame in Hloop.
  destruct ret; [by injection Hrun as _ <-|].
  apply IH in Hrun. by eapply same_clauses_trans.
Qed.

Lemma on_no_conflict_frame s : same_clauses s (flow_state (on_no_conflict s)).
Proof.
  unfold on_no_conflict. case_bool_decide; [apply same_clauses_refl|].
  destruct (select_variable s) as [[v|] s1] eqn:Hsel;
    apply select_variable_frame in Hsel; rewrite Hsel; by repeat split.
Qed.

(** [backtrack] works on the trail, the assignment, the level marks
    and [var_info]; the clauses and the watch lists stay. *)
Lemma unwind_frame n s s' :
  unwind n s = Ok s' →
  same_clauses s s' ∧ watch_list s' = watch_list s
  ∧ var_activity s' = var_activity s
  ∧ trail_lim s' = trail_lim s ∧ decision_level s' = decision_level s.
Proof.
  revert s. induction n as [|n IH]; intros s Hrun; simpl in Hrun.
  { injection Hrun as <-. by split_and!; try apply same_clauses_refl. }
  destruct (list_pop (trail s)) as [[trail' lit]|]; simpl in Hrun; try done.
  destruct (od_del lit (assignment s)) as [assignment'|]; simpl in Hrun;
    try done.
  apply IH in Hrun as (Hsame & ? & ? & ? & ?).
  split_and!; try done.
Qed.

Lemma backtrack_levels_frame n s s' :
  backtrack_levels n s = Ok s' →
  same_clauses s s' ∧ watch_list s' = watch_list s
  ∧ var_activity s' = var_activity s.
Proof.
  revert s. induction n as [|n IH]; intros s Hrun; simpl in Hrun.
  { injection Hrun as <-. by split_and!; try apply same_clauses_refl. }
  destruct (list_pop (trail_lim s)) as [[trail_lim' lim]|]; simpl in Hrun;
    try done.
  match type of Hrun with
  | unwind ?k ?t ≫= _ = _ =>
      destruct (unwind k t) as [s3| |] eqn:Hunwind; simpl in Hrun; try done
  end.
  apply unwind_frame in Hunwind as (Hs3 & Hw3 & Ha3 & _ & _).
  simpl in Hw3, Ha3.
  apply IH in Hrun as (Hs' & Hw' & Ha').
  split_and!; [|congruence|congruence].
  eapply same_clauses_trans; [|exact Hs'].
  by destruct Hs3 as (? & ? & ? & ? & ? & ?).
Qed.

Lemma backtrack_frame level s s' :
  backtrack level s = Ok s' →
  same_clauses s s' ∧ watch_list s' = watch_list s
  ∧ var_activity s' = var_activity s.
Proof. apply backtrack_levels_frame. Qed.

Lemma restart_frame s s' :
  restart s = Ok s' →
  clauses s' = clauses s ∧ learned_clauses s' = learned_clauses s
  ∧ watch_list s' = watch_list s
  ∧ restart_threshold s' = float_mul (restart_threshold s) float_1_5.
Proof.
  intros (Hsame & Hw & _)%backtrack_frame.
  by destruct Hsame as (? & ? & ? & ? & ? & ?).
Qed.

Lemma watch_append_lookup lit idx w l :
  default [] (watch_append lit idx w !! l)
  = if decide (l = lit) then default [] (w !! l) ++ [idx]
    else default [] (w !! l).
Proof.
  unfold watch_append. case_decide as Hl.
  - subst. by rewrite lookup_insert_eq.
  - by rewrite lookup_insert_ne.
Qed.

(** The watch lists of a clause registered under [idx] gain [idx] only. *)
Lemma watch_clause_other idx clause w l k :
  k ≠ idx →
  k ∈ default [] (watch_clause idx clause w !! l) → k ∈ default [] (w !! l).
Proof.
  intros Hk. destruct clause as [|first_lit [|second_lit rest]]; simpl;
    [done| |]; rewrite ?watch_append_lookup;
    repeat case_decide; rewrite ?elem_of_app, ?list_elem_of_singleton;
    naive_solver.
Qed.

(** The effect of the conflict branch on the learned clauses and the
    watch lists. *)
Lemma on_conflict_learned clause s s' :
  on_conflict clause s = Ok (Continue s') →
  ∃ learned_clause backtrack_level,
    analyze_conflict (with_conflict_count (conflict_count s + 1) s) clause
    = Ok (learned_clause, backtrack_level)
    ∧ learned_clauses s' = learned_clauses s ++ [learned_clause; learned_clause]
    ∧ watch_list s'
      = watch_clause (length (clauses s) + length (learned_clauses s) + 1)
          learned_clause (watch_list s).
Proof.
  unfold on_conflict, learn_and_backtrack. case_decide; [done|].
  destruct (analyze_conflict _ clause) as [[lc lvl]| |]; simpl; try done.
  match goal with
  | |- context [backtrack lvl ?t] =>
      destruct (backtrack lvl t) as [s4| |] eqn:Hback; simpl; try done
  end.
  apply backtrack_frame in Hback as (Hsame & Hw4 & _).
  destruct Hsame as (_ & _ & Hl4 & _). simpl in Hl4, Hw4.
  assert (learned_clauses s4 = learned_clauses s ++ [lc; lc]) as Hl.
  { rewrite Hl4. by rewrite <- app_assoc. }
  assert (watch_list s4
          = watch_clause (length (clauses s) + length (learned_clauses s) + 1)
              lc (watch_list s)) as Hw.
  { rewrite Hw4. f_equal. rewrite !length_app. simpl. lia. }
  intros Hrun. exists lc, lvl. split; [done|].
  destruct (int_ge_float _ _).
  - destruct (restart (bump_activity lc s4)) as [s6| |] eqn:Hrestart;
      simpl in Hrun; try done.
    injection Hrun as <-.
    apply restart_frame in Hrestart as (_ & Hl6 & Hw6 & _).
    simpl in Hl6, Hw6. split; congruence.
  - injection Hrun as <-. simpl. split; congruence.
Qed.

(** C8: a conflict handled at a level above 0 appends the learned clause
    to the learned-clause list twice, and the watch lists register the
    index of the second copy only; after [n] handled conflicts the list
    is [2 * n] longer. *)
Theorem conflict_learns_twice :
  (∀ clause s s',
     0 < decision_level s →
     on_conflict clause s = Ok (Continue s') →
     ∃ learned_clause backtrack_level,
       analyze_conflict (with_conflict_count (conflict_count s + 1) s) clause
       = Ok (learned_clause, backtrack_level)
       ∧ learned_clauses s'
         = learned_clauses s ++ [learned_clause; learned_clause]
       ∧ watch_list s'
         = watch_clause (length (clauses s) + length (learned_clauses s) + 1)
             learned_clause (watch_list s)
       ∧ ∀ lit,
           (length (clauses s) + length (learned_clauses s))%nat
             ∈ default [] (watch_list s' !! lit) →
           (length (clauses s) + length (learned_clauses s))%nat
             ∈ default [] (watch_list s !! lit))
  ∧ (∀ n s s',
       turns n s s' →
       length (learned_clauses s') = (length (learned_clauses s) + 2 * n)%nat).
Proof.
  split.
  - intros clause s s' _ Hrun.
    destruct (on_conflict_learned _ _ _ Hrun) as (lc & lvl & Han & Hl & Hw).
    exists lc, lvl. split_and!; try done.
    intros lit. rewrite Hw. apply watch_clause_other. lia.
  - intros n s s' Hturns.
    induction Hturns as [s | n fuel s s1 s1' s2 _ IH Hup Hdec
                           | n fuel s s1 s1' clause s2 _ IH Hup Hcon].
    + lia.
    + apply unit_propagation_frame in Hup as (_ & _ & Hl1 & _).
      pose proof (on_no_conflict_frame s1') as (_ & _ & Hl2 & _).
      rewrite Hdec in Hl2. simpl in Hl2. rewrite Hl2, Hl1, IH. lia.
    + apply unit_propagation_frame in Hup as (_ & _ & Hl1 & _).
      apply on_conflict_learned in Hcon as (lc & lvl & _ & Hl2 & _).
      rewrite Hl2, length_app, Hl1, IH. simpl. lia.
Qed.

Lemma conflict_learns_twice_witness :
  ∃ s',
    turns 1 pending_state s'
    ∧ learned_clauses s' = [[-2]; [-2]]
    ∧ watch_list s' !! (-2) = Some [0%nat; 2%nat]
    ∧ length (learned_clauses s') = 2%nat.
Proof.
  destruct conflict_learns_twice as [Hstep Hturns].
  destruct (on_conflict [-1; -2] pending_state) as [[b s'|s']| |] eqn:Hcon;
    try (vm_compute in Hcon; discriminate).
  assert (turns 1 pending_state s') as Hrun.
  { apply (turns_conflict 0 5 pending_state pending_state pending_state
             [-1; -2] s'); [constructor | reflexivity | exact Hcon]. }
  exists s'. split; [exact Hrun|].
  destruct (Hstep [-1; -2] pending_state s') as (lc & lvl & Han & Hl & Hw & _);
    [reflexivity | exact Hcon |].
  vm_compute in Han. injection Han as <- <-.
  split; [exact Hl|]. split; [by rewrite Hw|].
  exact (Hturns 1%nat pending_state s' Hrun).
Defined.

(** C5 (the code departs from it): with variable 1 decided at level 1 and
    2, 3 implied from it, the analysis of the conflict on [-2 -3]
    returns that same clause, which has no literal of the variable it
    picked, and level 1, the current one; the backtrack then removes
    nothing, and no literal of the learned clause is unassigned. *)
Theorem analyze_conflict_keeps_level :
  analyze_conflict implied_state [-2; -3] = Ok ([-2; -3], 1)
  ∧ ∃ s',
      on_conflict [-2; -3] implied_state = Ok (Continue s')
      ∧ decision_level s' = 1
      ∧ trail s' = [1; 2; 3]
      ∧ assignment s' = [(1, true); (2, true); (3, true)]
      ∧ filter (λ l, unassigned (assignment s') l = true) [-2; -3] = [].
Proof.
  split; [reflexivity|].
  destruct (on_conflict [-2; -3] implied_state) as [[b s'|s']| |] eqn:Hcon;
    try (vm_compute in Hcon; discriminate).
  exists s'. split; [done|].
  vm_compute in Hcon. injection Hcon as <-. by vm_compute.
Qed.

End cdcl_conflict.

(** *** CDCL: the analysis queue empties within [analysis_fuel] turns *)
Section cdcl_analysis.
Import CDCL.

Lemma clause_vars_elem cs clause lit :
  clause ∈ cs → lit ∈ clause → Z.abs lit ∈ clause_vars cs.
Proof.
  intros Hc Hl. unfold clause_vars.
  apply elem_of_list_to_set, list_elem_of_fmap_2, list_elem_of_In, in_concat.
  exists clause. by rewrite <- !list_elem_of_In.
Qed.

Lemma clause_at_elem s idx clause :
  clause_at s idx = Ok clause → clause ∈ clauses s ++ learned_clauses s.
Proof.
  unfold clause_at, or_raise. rewrite elem_of_app.
  destruct (idx <? length (clauses s))%nat.
  - destruct (clauses s !! idx) eqn:Hl; intros [= <-].
    left. by eapply list_elem_of_lookup_2.
  - destruct (learned_clauses s !! _) eqn:Hl; intros [= <-].
    right. by eapply list_elem_of_lookup_2.
Qed.

Lemma clause_at_fuel s idx : clause_at s idx ≠ OutOfFuel.
Proof.
  unfold clause_at, or_raise.
  destruct (idx <? length (clauses s))%nat;
    [destruct (clauses s !! idx) | destruct (learned_clauses s !! _)]; done.
Qed.

(** Marking a variable takes it out of the unseen ones for good and
    puts it in the queue once. *)
Lemma enqueue_unseen_measure (U : gset Z) var clause seen queue :
  (∀ lit, lit ∈ clause → Z.abs lit ∈ U) →
  (2 * size (U ∖ (enqueue_unseen var clause seen queue).1)
   + length (enqueue_unseen var clause seen queue).2
   ≤ 2 * size (U ∖ seen) + length queue)%nat.
Proof.
  unfold enqueue_unseen. revert seen queue.
  induction clause as [|lit clause IH]; intros seen queue HU; simpl; [lia|].
  assert (∀ l, l ∈ clause → Z.abs l ∈ U) as HU'.
  { intros l Hl. apply HU. by right. }
  destruct (bool_decide (Z.abs lit ≠ var) && bool_decide (Z.abs lit ∉ seen))
    eqn:Hnew; [|by apply IH].
  apply andb_true_iff in Hnew as [_ Hunseen%bool_decide_eq_true].
  etrans; [apply IH, HU'|]. rewrite length_app. simpl.
  assert (Z.abs lit ∈ U) as HinU by (apply HU; left).
  assert (U ∖ ({[Z.abs lit]} ∪ seen) = (U ∖ seen) ∖ {[Z.abs lit]}) as ->
    by set_solver.
  rewrite size_difference by set_solver. rewrite size_singleton.
  assert (size (U ∖ seen) ≠ 0)%nat.
  { apply size_non_empty_iff. set_solver. }
  lia.
Qed.

Lemma analyze_loop_fuel fuel s queue seen current_level_lits :
  (2 * size (clause_vars (clauses s ++ learned_clauses s) ∖ seen)
   + length queue < fuel)%nat →
  analyze_loop fuel s queue seen current_level_lits ≠ OutOfFuel.
Proof.
  revert queue seen current_level_lits.
  induction fuel as [|fuel IH]; intros queue seen cur Hfuel; [lia|].
  simpl. destruct queue as [|var queue]; [done|]. simpl in Hfuel.
  destruct (default (0, None) (var_info s !! var)) as [level [a|]];
    [|apply IH; lia].
  destruct (clause_at s a) as [clause| |] eqn:Hat; simpl; try done;
    [|by apply clause_at_fuel in Hat].
  pose proof (enqueue_unseen_measure
                (clause_vars (clauses s ++ learned_clauses s))
                var clause seen queue) as Hm.
  destruct (enqueue_unseen var clause seen queue) as [seen' queue'].
  apply IH. simpl in Hm.
  enough (2 * size (clause_vars (clauses s ++ learned_clauses s) ∖ seen')
          + length queue'
          ≤ 2 * size (clause_vars (clauses s ++ learned_clauses s) ∖ seen)
            + length queue)%nat by lia.
  apply Hm. intros lit Hlit.
  eapply clause_vars_elem; [by apply clause_at_elem in Hat | done].
Qed.

Lemma max_level_fuel s vs : max_level s vs ≠ OutOfFuel.
Proof.
  unfold max_level.
  assert (mapM (λ v, fst <$> or_raise KeyError (var_info s !! v)) vs
          ≠ OutOfFuel) as Hmap.
  { induction vs as [|v vs IH]; simpl; [done|].
    destruct (var_info s !! v); simpl; [|done].
    destruct (mapM _ vs); simpl; done. }
  destruct (mapM _ vs) as [[|l ls]| |]; simpl; done.
Qed.

(** [analyze_conflict] returns or raises; its queue loop never runs out
    of the turns it is given. *)
Lemma analyze_conflict_fuel s conflict_clause :
  analyze_conflict s conflict_clause ≠ OutOfFuel.
Proof.
  unfold analyze_conflict.
  pose proof (analyze_loop_fuel (analysis_fuel s conflict_clause) s
                (Z.abs <$> conflict_clause)
                (list_to_set (Z.abs <$> conflict_clause)) []) as Hloop.
  destruct (analyze_loop _ s _ _ []) as [cur| |]; simpl; try done.
  - destruct (last cur); [|done].
    destruct (1 <? length cur)%nat; [|done].
    pose proof (max_level_fuel s (filter (λ v, v ≠ z) cur)) as Hmax.
    destruct (max_level s _); simpl; done.
  - exfalso. apply Hloop; [|done].
    unfold analysis_fuel. rewrite length_fmap.
    assert (clause_vars (clauses s ++ learned_clauses s)
            ∖ list_to_set (Z.abs <$> conflict_clause)
            ⊆ clause_vars (clauses s ++ learned_clauses s)) as Hsub
      by set_solver.
    apply subseteq_size in Hsub. lia.
Qed.
End cdcl_analysis.

(** *** The binary64 product of the restart *)
Section binary64.
Import SpecFloat.












End binary64.

(** *** CDCL: backtracking and the restart *)
Section cdcl_restart.
Import CDCL.

Lemma od_del_Some {V} (k : Z) (d : list (Z * V)) :
  k ∈ d.*1 → is_Some (od_del k d).
Proof.
  induction d as [|[k' v'] d IH]; simpl; [by intros ?%elem_of_nil|].
  intros [->|Hin]%elem_of_cons.
  - rewrite decide_True by done. eauto.
  - destruct (decide (k = k')); [eauto|].
    destruct (IH Hin) as [d' ->]. simpl. eauto.
Qed.

Lemma od_del_other {V} (k k' : Z) (d d' : list (Z * V)) :
  od_del k d = Some d' → k' ≠ k →
  od_get k' d' = od_get k' d ∧ (k' ∈ d.*1 → k' ∈ d'.*1).
Proof.
  revert d'. induction d as [|[k0 v0] d IH]; intros d'; simpl; [done|].
  destruct (decide (k = k0)) as [->|Hne].
  - intros [= <-] Hk'. rewrite decide_False by done.
    split; [done|]. by intros [?|?]%elem_of_cons.
  - destruct (od_del k d) as [d0|]; simpl; [|done].
    intros [= <-] Hk'. destruct (IH d0 eq_refl Hk') as [Hget Hkeys].
    simpl. rewrite Hget. split; [done|].
    rewrite !elem_of_cons. naive_solver.
Qed.

Lemma list_pop_snoc {A} (l : list A) x : list_pop (l ++ [x]) = Some (l, x).
Proof. unfold list_pop. by rewrite last_snoc, removelast_last. Qed.

(** The inner loop of [backtrack] takes the entries [suf] off the trail;
    the entries that stay keep their value and their [var_info]. *)
Lemma unwind_spec suf s pre :
  trail s = pre ++ suf →
  NoDup (Z.abs <$> trail s) →
  (∀ lit, lit ∈ trail s → lit ∈ (assignment s).*1) →
  ∃ s',
    unwind (length suf) s = Ok s'
    ∧ trail s' = pre
    ∧ (∀ lit, lit ∈ pre →
         od_get lit (assignment s') = od_get lit (assignment s)
         ∧ var_info s' !! Z.abs lit = var_info s !! Z.abs lit
         ∧ lit ∈ (assignment s').*1).
Proof.
  revert s. induction suf as [|x suf IH] using rev_ind;
    intros s Htrail Hnd Hkeys.
  { rewrite app_nil_r in Htrail. exists s. simpl.
    split_and!; try done. intros lit Hlit.
    split_and!; try done. apply Hkeys. by rewrite Htrail. }
  rewrite length_app, Nat.add_1_r. simpl.
  rewrite app_assoc in Htrail. rewrite Htrail, list_pop_snoc. simpl.
  destruct (od_del_Some x (assignment s)) as [a' Hdel].
  { apply Hkeys. rewrite Htrail. set_solver. }
  rewrite Hdel. simpl.
  rewrite Htrail, fmap_app in Hnd. apply NoDup_app in Hnd as (Hnd & Hfresh & _).
  assert (∀ lit, lit ∈ pre ++ suf → Z.abs lit ≠ Z.abs x ∧ lit ≠ x) as Hne.
  { intros lit Hlit.
    assert (Z.abs lit ≠ Z.abs x); [|split; congruence].
    intros Heq. apply (Hfresh (Z.abs lit)); [by apply list_elem_of_fmap_2|].
    rewrite Heq. simpl. left. }
  destruct (IH (with_var_info (delete (Z.abs x) (var_info s))
                  (with_assignment a' (with_trail (pre ++ suf) s))))
    as (s' & Hrun & Htr' & Hkeep); simpl; try done.
  { intros lit Hlit. destruct (Hne lit Hlit) as [_ Hx].
    eapply od_del_other; [done..|].
    apply Hkeys. rewrite Htrail. set_solver. }
  exists s'. split_and!; try done.
  intros lit Hlit. destruct (Hkeep lit Hlit) as (Hget & Hvi & Hk).
  simpl in Hget, Hvi.
  destruct (Hne lit) as [Habs Hx]; [set_solver|].
  split_and!; [|by rewrite Hvi, lookup_delete_ne|done].
  rewrite Hget. by eapply od_del_other.
Qed.

(** The outer loop of [backtrack] over the level marks [lims]: the trail
    is cut at the first of them. *)
Lemma backtrack_levels_spec lims s pre :
  trail_lim s = pre ++ lims →
  StronglySorted le (trail_lim s) →
  Forall (λ lim, (lim ≤ length (trail s))%nat) (trail_lim s) →
  NoDup (Z.abs <$> trail s) →
  (∀ lit, lit ∈ trail s → lit ∈ (assignment s).*1) →
  ∃ s',
    backtrack_levels (length lims) s = Ok s'
    ∧ trail_lim s' = pre
    ∧ decision_level s' = decision_level s - Z.of_nat (length lims)
    ∧ trail s' = take (hd (length (trail s)) lims) (trail s)
    ∧ (∀ lit, lit ∈ trail s' →
         od_get lit (assignment s') = od_get lit (assignment s)
         ∧ var_info s' !! Z.abs lit = var_info s !! Z.abs lit
         ∧ lit ∈ (assignment s').*1).
Proof.
  revert s. induction lims as [|lim lims IH] using rev_ind;
    intros s Hlims Hsorted Hbound Hnd Hkeys.
  { rewrite app_nil_r in Hlims. exists s. simpl.
    rewrite take_ge by done. split_and!; try done; [lia|].
    intros lit Hlit. split_and!; try done. by apply Hkeys. }
  rewrite length_app, Nat.add_1_r. simpl.
  rewrite app_assoc in Hlims. rewrite Hlims, list_pop_snoc. simpl.
  rewrite Hlims in Hsorted, Hbound.
  apply Forall_app in Hbound as [Hbound Hlim].
  rewrite Forall_singleton in Hlim.
  apply StronglySorted_app in Hsorted as (Hle & Hsorted & _).
  destruct (unwind_spec (drop lim (trail s))
              (with_trail_lim (pre ++ lims)
                 (with_decision_level (decision_level s - 1) s))
              (take lim (trail s)))
    as (s3 & Hunwind & Htr3 & Hkeep3); simpl; try done.
  { by rewrite take_drop. }
  rewrite length_drop in Hunwind. rewrite Hunwind. simpl.
  apply unwind_frame in Hunwind as Hframe.
  destruct Hframe as (_ & _ & _ & Hlim3 & Hdl3). simpl in Hlim3, Hdl3.
  assert (length (trail s3) = lim) as Hlen3.
  { rewrite Htr3, length_take. lia. }
  destruct (IH s3) as (s' & Hrun & Hlim' & Hdl' & Htr' & Hkeep'); try done.
  { by rewrite Hlim3. }
  { rewrite Hlim3, Hlen3. apply Forall_forall. intros x Hx.
    apply Hle; [done | set_solver]. }
  { rewrite Htr3, fmap_take.
    eauto using sublist_NoDup, sublist_take. }
  { intros lit Hlit. by apply Hkeep3; rewrite <- Htr3. }
  exists s'. split_and!; try done.
  - rewrite Hdl', Hdl3. lia.
  - rewrite Htr', Hlen3, Htr3, take_take.
    destruct lims as [|lim0 lims]; simpl.
    + by rewrite Nat.min_id.
    + f_equal. apply Nat.min_l, Hle; set_solver.
  - intros lit Hlit. destruct (Hkeep' lit Hlit) as (Hget & Hvi & Hk).
    assert (lit ∈ take lim (trail s)) as Hin.
    { rewrite <- Htr3, Htr' in *. by eapply subseteq_take. }
    destruct (Hkeep3 lit Hin) as (Hget3 & Hvi3 & _). simpl in Hget3, Hvi3.
    split_and!; [congruence | congruence | done].
Qed.

(** [assign] and [backtrack] keep the trail and the assignment map of
    equal length: one entry more in each, one entry less in each. *)
Lemma assign_lockstep (var : Z) (value : bool) antecedent s :
  (if value then var else - var) ∉ (assignment s).*1 →
  length (trail (assign var value antecedent s)) = S (length (trail s))
  ∧ length (assignment (assign var value antecedent s))
    = S (length (assignment s)).
Proof.
  intros Hfresh. unfold assign. simpl.
  rewrite od_set_fresh by done. rewrite !length_app. simpl. lia.
Qed.

Lemma od_del_length {V} (k : Z) (d d' : list (Z * V)) :
  od_del k d = Some d' → length d = S (length d').
Proof.
  revert d'. induction d as [|[k0 v0] d IH]; intros d'; simpl; [done|].
  destruct (decide (k = k0)); [by intros [= <-]|].
  destruct (od_del k d) as [d0|]; simpl; [|done].
  intros [= <-]. simpl. f_equal. by apply IH.
Qed.

Lemma list_pop_length {A} (l l' : list A) x :
  list_pop l = Some (l', x) → length l = S (length l').
Proof.
  destruct l as [|y l] using rev_ind; [done|].
  rewrite list_pop_snoc. intros [= <- <-]. rewrite length_app. simpl. lia.
Qed.

Lemma unwind_lockstep n s s' :
  unwind n s = Ok s' →
  length (trail s) = length (assignment s) →
  length (trail s') = length (assignment s').
Proof.
  revert s. induction n as [|n IH]; intros s Hrun Hlen; simpl in Hrun.
  { by injection Hrun as <-. }
  destruct (list_pop (trail s)) as [[trail' lit]|] eqn:Hpop; simpl in Hrun;
    try done.
  destruct (od_del lit (assignment s)) as [assignment'|] eqn:Hdel;
    simpl in Hrun; try done.
  apply IH in Hrun; [done|]. simpl.
  apply list_pop_length in Hpop. apply od_del_length in Hdel. lia.
Qed.

Lemma backtrack_lockstep level s s' :
  backtrack level s = Ok s' →
  length (trail s) = length (assignment s) →
  length (trail s') = length (assignment s').
Proof.
  unfold backtrack. generalize (Z.to_nat (decision_level s - level)) as n.
  intros n. revert s. induction n as [|n IH]; intros s Hrun Hlen;
    simpl in Hrun.
  { by injection Hrun as <-. }
  destruct (list_pop (trail_lim s)) as [[trail_lim' lim]|]; simpl in Hrun;
    try done.
  match type of Hrun with
  | unwind ?k ?t ≫= _ = _ =>
      destruct (unwind k t) as [s3| |] eqn:Hunwind; simpl in Hrun; try done
  end.
  apply unwind_lockstep in Hunwind; [|done]. by apply IH in Hrun.
Qed.

Lemma backtrack_levels_add a b s :
  backtrack_levels (a + b) s = backtrack_levels a s ≫= backtrack_levels b.
Proof.
  revert s. induction a as [|a IH]; intros s; simpl; [done|].
  destruct (list_pop (trail_lim s)) as [[trail_lim' lim]|]; simpl; [|done].
  match goal with
  | |- unwind ?k ?t ≫= _ = _ => destruct (unwind k t) as [s3| |]; simpl
  end; [apply IH | done | done].
Qed.

Lemma backtrack_levels_no_level n s :
  trail_lim s = [] → backtrack_levels (S n) s = Raise IndexError.
Proof. intros Hlim. simpl. by rewrite Hlim. Qed.

(** [backtrack] keeps the trail and its level marks fitting together. *)
Lemma backtrack_wf level s s' :
  trail_wf s → backtrack level s = Ok s' → trail_wf s'.
Proof.
  intros [Hlevel Hsorted Hbound Hnd Hkeys]. unfold backtrack.
  generalize (Z.to_nat (decision_level s - level)) as n. intros n Hrun.
  apply Sorted_StronglySorted in Hsorted; [|apply _].
  destruct (decide (n ≤ length (trail_lim s))%nat) as [Hn|Hn].
  - destruct (backtrack_levels_spec (drop (length (trail_lim s) - n)
                                       (trail_lim s)) s
                (take (length (trail_lim s) - n) (trail_lim s)))
      as (s'' & Hrun' & Hlim' & Hdl' & Htr' & Hkeep); try done.
    { by rewrite take_drop. }
    rewrite length_drop in Hrun', Hdl'.
    replace (length (trail_lim s) - (length (trail_lim s) - n))%nat with n
      in Hrun', Hdl' by lia.
    rewrite Hrun in Hrun'. injection Hrun' as <-.
    rewrite <- (take_drop (length (trail_lim s) - n) (trail_lim s))
      in Hsorted, Hbound.
    apply StronglySorted_app in Hsorted as (Hle & Hsorted & _).
    apply Forall_app in Hbound as [Hbound Hbound'].
    split.
    + rewrite Hdl', Hlim', length_take. lia.
    + rewrite Hlim'. by apply StronglySorted_Sorted.
    + rewrite Hlim', Htr'.
      destruct (drop (length (trail_lim s) - n) (trail_lim s))
        as [|lim lims] eqn:Hdrop; simpl.
      * by rewrite take_ge.
      * apply Forall_forall. intros x Hx. rewrite length_take.
        apply Forall_cons in Hbound' as [Hlim _].
        assert (x ≤ lim)%nat by (apply Hle; [done | left]). lia.
    + rewrite Htr', fmap_take. eauto using sublist_NoDup, sublist_take.
    + intros lit Hlit. by apply Hkeep.
  - exfalso.
    replace n with (length (trail_lim s) + S (n - length (trail_lim s) - 1))%nat
      in Hrun by lia.
    rewrite backtrack_levels_add in Hrun.
    destruct (backtrack_levels_spec (trail_lim s) s [])
      as (s'' & Hrun' & Hlim' & _); try done.
    rewrite Hrun', result_bind_Ok in Hrun.
    by rewrite backtrack_levels_no_level in Hrun.
Qed.

(** The state in which the driver tests the restart threshold is well
    formed when the state at the conflict was. *)
Lemma learn_and_backtrack_wf clause s s5 :
  trail_wf s →
  learn_and_backtrack clause
    (with_conflict_count (conflict_count s + 1) s) = Ok s5 →
  trail_wf s5.
Proof.
  intros Hwf. unfold learn_and_backtrack.
  destruct (analyze_conflict _ clause) as [[lc lvl]| |]; simpl; try done.
  match goal with
  | |- context [backtrack lvl ?t] =>
      destruct (backtrack lvl t) as [s4| |] eqn:Hback; simpl; try done
  end.
  intros [= <-]. apply backtrack_wf in Hback.
  - by destruct Hback.
  - by destruct Hwf.
Qed.


Lemma two_level_state_wf : trail_wf two_level_state.
Proof.
  split; simpl.
  - reflexivity.
  - repeat constructor.
  - repeat constructor.
  - apply (bool_decide_unpack _). reflexivity.
  - intros lit Hlit. apply (bool_decide_unpack _).
    revert lit Hlit. apply Forall_forall. apply (bool_decide_unpack _).
    reflexivity.
Defined.


End cdcl_restart.

(** *** CDCL: a reachable state, for one walk order of the variable set *)
Section cdcl_reachable_example.
Import CDCL.
#[local] Existing Instance elements_order.

(** The solver loaded with [1 -3 0] and [2 3 -1 0], after one turn of
    the driver. *)
Lemma unit_propagation_never_runs_witness :
  ∃ s,
    cdcl_iteration 1
      (parse_dimacs [Tokens [1; -3; 0]; Tokens [2; 3; -1; 0]] init)
    = Ok (Continue s)
    ∧ length (trail s) = 1%nat
    ∧ length (trail s) = length (assignment s)
    ∧ ∀ fuel, unit_propagation (S fuel) s = Ok (None, s).
Proof.
  destruct (cdcl_iteration 1
              (parse_dimacs [Tokens [1; -3; 0]; Tokens [2; 3; -1; 0]] init))
    as [[b s|s]| |] eqn:Hturn; try (vm_compute in Hturn; discriminate).
  exists s. split; [reflexivity|].
  split; [vm_compute in Hturn; by injection Hturn as <-|].
  apply (unit_propagation_never_runs s).
  exact (reachable_turn 1 _ (Continue s)
           (reachable_load _ _ reachable_init) Hturn).
Defined.
End cdcl_reachable_example.

(** *** Resolution: saturation by rounds *)
Section resolution_facts.
Import Resolution.

Lemma clash_sym l1 l2 : clash l1 l2 = clash l2 l1.
Proof.
  unfold clash. destruct l1 as [n1 b1], l2 as [n2 b2]; simpl.
  destruct b1, b2; simpl; rewrite ?andb_true_r, ?andb_false_r; try done;
    apply bool_decide_ext; split; congruence.
Qed.

Lemma clash_spec l1 l2 : clash l1 l2 = true ↔ l2 = negate l1.
Proof.
  unfold clash, negate. destruct l1 as [n1 b1], l2 as [n2 b2]; simpl.
  rewrite andb_true_iff, bool_decide_eq_true, negb_true_iff.
  split.
  - intros [-> Hb]. f_equal. by destruct b1, b2.
  - intros [= -> ->]. split; [done|]. by destruct b1.
Qed.

Lemma clash_in_spec literals :
  clash_in literals = true
  ↔ ∃ l1 l2, l1 ∈ literals ∧ l2 ∈ literals ∧ clash l1 l2 = true.
Proof.
  induction literals as [|l rest IH]; simpl.
  { split; [done|]. by intros (? & ? & ?%elem_of_nil & _). }
  rewrite orb_true_iff, IH, existsb_exists. split.
  - intros [(l2 & Hl2%list_elem_of_In & Hc) | (l1 & l2 & H1 & H2 & Hc)].
    + exists l, l2. split_and!; [left | by right | done].
    + exists l1, l2. split_and!; [by right | by right | done].
  - intros (l1 & l2 & [->|H1]%elem_of_cons & [->|H2]%elem_of_cons & Hc).
    + apply clash_spec in Hc. destruct l as [n []]; discriminate.
    + left. exists l2. by rewrite <- list_elem_of_In.
    + left. exists l1. rewrite <- list_elem_of_In, clash_sym. done.
    + right. by exists l1, l2.
Qed.

(** A clause is a tautology when it holds a literal and its negation. *)
Lemma is_tautology_spec (c : Clause) :
  is_tautology c = true ↔ ∃ l, l ∈ c ∧ negate l ∈ c.
Proof.
  unfold is_tautology. rewrite clash_in_spec. split.
  - intros (l1 & l2 & H1 & H2 & ->%clash_spec).
    exists l1. by rewrite <- !elem_of_elements.
  - intros (l & H1 & H2). exists l, (negate l).
    rewrite !elem_of_elements. split_and!; try done. by apply clash_spec.
Qed.

(** A clause is no tautology when no name occurs in it with both
    signs. *)
Lemma is_tautology_false (c : Clause) :
  is_tautology c = false
  ↔ ∀ n, ¬ (Lit n false ∈ c ∧ Lit n true ∈ c).
Proof.
  split.
  - intros Hfalse n [Hpos Hneg].
    assert (is_tautology c = true) as Htrue; [|congruence].
    apply is_tautology_spec. by exists (Lit n false).
  - intros Hno. destruct (is_tautology c) eqn:Htaut; [|done].
    apply is_tautology_spec in Htaut as ([n []] & Hl & Hnl);
      by destruct (Hno n).
Qed.

(** What [resolve] returns: the unions over a clashing pair of literals
    that are not tautologies. *)
Lemma elem_of_resolve c other r :
  r ∈ resolve c other ↔
  ∃ l1 l2, l1 ∈ c ∧ l2 ∈ other ∧ clash l1 l2 = true
           ∧ r = (c ∖ {[l1]}) ∪ (other ∖ {[l2]})
           ∧ is_tautology r = false.
Proof.
  unfold resolve. rewrite elem_of_list_to_set, list_elem_of_bind. split.
  - intros (l1 & Hr & Hl1). apply list_elem_of_bind in Hr as (l2 & Hr & Hl2).
    exists l1, l2. rewrite elem_of_elements in Hl1, Hl2.
    destruct (clash l1 l2); [|by apply elem_of_nil in Hr].
    destruct (is_tautology _) eqn:Htaut; [by apply elem_of_nil in Hr|].
    apply list_elem_of_singleton in Hr. subst r. done.
  - intros (l1 & l2 & Hl1 & Hl2 & Hclash & -> & Htaut).
    exists l1. rewrite elem_of_elements. split; [|done].
    apply list_elem_of_bind. exists l2. rewrite elem_of_elements. split; [|done].
    rewrite Hclash, Htaut. by apply list_elem_of_singleton.
Qed.

Lemma resolve_sym c other : resolve c other = resolve other c.
Proof.
  apply set_eq. intros r. rewrite !elem_of_resolve.
  split; intros (l1 & l2 & ? & ? & Hclash & -> & Htaut); exists l2, l1;
    rewrite clash_sym in Hclash;
    (assert ((other ∖ {[l2]}) ∪ (c ∖ {[l1]}) = (c ∖ {[l1]}) ∪ (other ∖ {[l2]}))
       as Heq by set_solver);
    (assert ((c ∖ {[l2]}) ∪ (other ∖ {[l1]}) = (other ∖ {[l1]}) ∪ (c ∖ {[l2]}))
       as Heq' by set_solver);
    split_and!; try done; congruence.
Qed.

Lemma elem_of_combinations2 {A} (xs : list A) a b :
  (a, b) ∈ combinations2 xs → a ∈ xs ∧ b ∈ xs ∧ (NoDup xs → a ≠ b).
Proof.
  induction xs as [|x xs IH]; simpl; [by intros ?%elem_of_nil|].
  rewrite elem_of_app, list_elem_of_fmap.
  intros [(y & [= -> ->] & Hy) | Hin].
  - split_and!; [left | by right |].
    intros [Hx _]%NoDup_cons ->. done.
  - destruct (IH Hin) as (Ha & Hb & Hne).
    split_and!; [by right | by right |].
    intros [_ Hnd]%NoDup_cons. auto.
Qed.

Lemma combinations2_covers {A} (xs : list A) a b :
  a ∈ xs → b ∈ xs → a ≠ b →
  (a, b) ∈ combinations2 xs ∨ (b, a) ∈ combinations2 xs.
Proof.
  induction xs as [|x xs IH]; simpl; [by intros ?%elem_of_nil|].
  rewrite !elem_of_cons, !elem_of_app, !list_elem_of_fmap.
  intros [->|Ha] [->|Hb] Hne; try done.
  - left. left. by exists b.
  - right. left. by exists a.
  - destruct (IH Ha Hb Hne); [left | right]; by right.
Qed.

(** A round forms the resolvents of every pair of distinct clauses of the
    current set. *)
Lemma elem_of_produced X r :
  r ∈ produced X ↔
  ∃ c1 c2, c1 ∈ X ∧ c2 ∈ X ∧ c1 ≠ c2 ∧ r ∈ resolve c1 c2.
Proof.
  unfold produced, round_resolvents.
  rewrite elem_of_list_to_set, list_elem_of_bind. split.
  - intros ([c1 c2] & Hr & Hpair). rewrite elem_of_elements in Hr.
    apply elem_of_combinations2 in Hpair as (H1 & H2 & Hne).
    rewrite elem_of_elements in H1, H2.
    exists c1, c2. split_and!; try done. apply Hne, NoDup_elements.
  - intros (c1 & c2 & H1 & H2 & Hne & Hr).
    destruct (combinations2_covers (elements X) c1 c2) as [Hpair|Hpair];
      rewrite ?elem_of_elements; try done.
    + exists (c1, c2). by rewrite elem_of_elements.
    + exists (c2, c1). by rewrite elem_of_elements, resolve_sym.
Qed.

Lemma produced_mono X Y : X ⊆ Y → produced X ⊆ produced Y.
Proof.
  intros HXY r. rewrite !elem_of_produced.
  intros (c1 & c2 & ? & ? & ? & ?). exists c1, c2. split_and!; auto.
Qed.

Lemma is_empty_spec (c : Clause) : is_empty c = true ↔ c = ∅.
Proof.
  unfold is_empty. rewrite bool_decide_eq_true. by rewrite size_empty_iff, leibniz_equiv_iff.
Qed.

(** The two loops of a round, read as sets. *)
Lemma round_fold (rs : list Clause) (acc : option (gset Clause)) :
  foldl (λ acc r, new' ← acc;
                  if is_empty r then None else Some ({[r]} ∪ new')) acc rs
  = new ← acc;
    if bool_decide (∅ ∈ (list_to_set rs : gset Clause)) then None
    else Some (list_to_set rs ∪ new).
Proof.
  revert acc. induction rs as [|r rs IH]; intros acc; cbn [foldl].
  - destruct acc as [new|]; cbn [mbind option_bind]; [|done].
    rewrite bool_decide_eq_false_2 by apply not_elem_of_empty.
    by rewrite list_to_set_nil, (left_id_L ∅ (∪)).
  - rewrite IH. destruct acc as [new|]; cbn [mbind option_bind]; [|done].
    pose proof (is_empty_spec r) as Hspec.
    match goal with
    | |- context [Resolution.is_empty ?x] =>
        destruct (Resolution.is_empty x); cbn [mbind option_bind]
    end.
    + rewrite (proj1 Hspec eq_refl).
      rewrite bool_decide_eq_true_2; [done|].
      apply elem_of_list_to_set. left.
    + assert (r ≠ ∅) as Hne.
      { intros Hr%Hspec. congruence. }
      assert (∅ ∈ (list_to_set (r :: rs) : gset Clause)
              ↔ ∅ ∈ (list_to_set rs : gset Clause)) as Hiff.
      { rewrite !elem_of_list_to_set, elem_of_cons. naive_solver. }
      rewrite (bool_decide_ext _ _ Hiff).
      destruct (bool_decide (∅ ∈ (list_to_set rs : gset Clause))); [done|].
      f_equal. rewrite list_to_set_cons.
      rewrite (comm_L (∪) {[r]} (list_to_set rs)).
      by rewrite (assoc_L (∪)).
Qed.

Lemma round_spec X new :
  round X new
  = if bool_decide (∅ ∈ produced X) then None else Some (produced X ∪ new).
Proof. unfold round. by rewrite round_fold. Qed.

Lemma resolution_loop_S fuel X :
  resolution_loop (S fuel) X
  = if bool_decide (∅ ∈ produced X) then Ok false
    else if bool_decide (produced X ⊆ X) then Ok true
    else resolution_loop fuel (X ∪ produced X).
Proof.
  simpl. rewrite round_spec. case_bool_decide; [done|].
  by rewrite (right_id_L ∅ (∪)).
Qed.

Lemma grow_fixed k X :
  X ∪ produced X = X → Nat.iter k (λ X, X ∪ produced X) X = X.
Proof. intros Hfix. induction k as [|k IH]; simpl; [done|]. by rewrite IH. Qed.

Lemma grow_includes k X : X ⊆ Nat.iter k (λ X, X ∪ produced X) X.
Proof.
  induction k as [|k IH]; simpl; [done|].
  etrans; [apply IH|]. apply union_subseteq_l.
Qed.

(** The empty clause turns up in some round exactly when the loop
    returns [False]. *)
Lemma resolution_loop_false_iff X :
  (∃ fuel, resolution_loop fuel X = Ok false)
  ↔ ∃ k, ∅ ∈ produced (Nat.iter k (λ X, X ∪ produced X) X).
Proof.
  split.
  - intros [fuel Hrun]. revert X Hrun.
    induction fuel as [|fuel IH]; intros X; [done|].
    rewrite resolution_loop_S. case_bool_decide as Hbot.
    { intros _. by exists 0%nat. }
    case_bool_decide; [done|]. intros [k Hk]%IH.
    exists (S k). by rewrite Nat.iter_succ_r.
  - intros [k Hk]. revert X Hk.
    induction k as [|k IH]; intros X Hk.
    { exists 1%nat. rewrite resolution_loop_S.
      by rewrite bool_decide_eq_true_2. }
    rewrite Nat.iter_succ_r in Hk. destruct (IH _ Hk) as [fuel Hrun].
    exists (S fuel). rewrite resolution_loop_S.
    case_bool_decide as Hbot; [done|].
    case_bool_decide as Hsub; [|done].
    exfalso. apply Hbot.
    assert (X ∪ produced X = X) as Hfix
      by (rewrite (comm_L (∪)); by apply subseteq_union_1_L).
    rewrite Hfix in Hk. by rewrite grow_fixed in Hk.
Qed.

(** A round that produces no clause outside the current set, and not the
    empty one, is reached exactly when the loop returns [True]. *)
Lemma resolution_loop_true_iff X :
  (∃ fuel, resolution_loop fuel X = Ok true)
  ↔ ∃ k, (∅ ∉ produced (Nat.iter k (λ X, X ∪ produced X) X))
         ∧ produced (Nat.iter k (λ X, X ∪ produced X) X)
           ⊆ Nat.iter k (λ X, X ∪ produced X) X.
Proof.
  split.
  - intros [fuel Hrun]. revert X Hrun.
    induction fuel as [|fuel IH]; intros X; [done|].
    rewrite resolution_loop_S. case_bool_decide as Hbot; [done|].
    case_bool_decide as Hsub.
    { intros _. by exists 0%nat. }
    intros [k Hk]%IH. exists (S k). by rewrite Nat.iter_succ_r.
  - intros [k Hk]. revert X Hk.
    induction k as [|k IH]; intros X [Hbot Hsub].
    { exists 1%nat. rewrite resolution_loop_S.
      rewrite bool_decide_eq_false_2 by done.
      by rewrite bool_decide_eq_true_2. }
    pose proof (grow_includes (S k) X) as Hinc.
    rewrite Nat.iter_succ_r in Hbot, Hsub.
    destruct (IH _ (conj Hbot Hsub)) as [fuel Hrun].
    exists (S fuel). rewrite resolution_loop_S.
    case_bool_decide as Hbot0; [|by case_bool_decide].
    exfalso. apply Hbot.
    assert (Nat.iter k (λ X, X ∪ produced X) (X ∪ produced X)
            = Nat.iter (S k) (λ X, X ∪ produced X) X) as ->
      by (by rewrite Nat.iter_succ_r).
    by apply (produced_mono _ _ Hinc).
Qed.

(** Every clause the solver ever holds is built from the literals of the
    seed, and there are finitely many such clauses. *)
Lemma elem_of_subsets (c : Clause) literals :
  c ⊆ list_to_set literals → c ∈ subsets literals.
Proof.
  revert c. induction literals as [|l rest IH]; intros c Hc; simpl.
  - apply elem_of_singleton. apply leibniz_equiv.
    rewrite list_to_set_nil in Hc. set_solver.
  - rewrite list_to_set_cons in Hc.
    destruct (decide (l ∈ c)) as [Hl|Hl].
    + apply elem_of_union_r, elem_of_map. exists (c ∖ {[l]}). split.
      * apply leibniz_equiv. intros x. destruct (decide (x = l)); set_solver.
      * apply IH. set_solver.
    + apply elem_of_union_l, IH. set_solver.
Qed.

Lemma produced_bounded (L : gset Literal) X :
  (∀ c, c ∈ X → c ⊆ L) → ∀ r, r ∈ produced X → r ⊆ L.
Proof.
  intros HX r (c1 & c2 & H1%HX & H2%HX & _ & Hr)%elem_of_produced.
  apply elem_of_resolve in Hr as (l1 & l2 & _ & _ & _ & -> & _).
  set_solver.
Qed.

Lemma resolution_loop_total (L : gset Literal) n X :
  (∀ c, c ∈ X → c ⊆ L) →
  (size (subsets (elements L) ∖ X) < n)%nat →
  ∃ b, resolution_loop n X = Ok b.
Proof.
  revert X. induction n as [|n IH]; intros X HX Hn; [lia|].
  rewrite resolution_loop_S.
  case_bool_decide; [by eexists|]. case_bool_decide as Hsub; [by eexists|].
  apply IH.
  - intros c [Hc|Hc]%elem_of_union; [by apply HX|].
    by eapply produced_bounded.
  - enough (size (subsets (elements L) ∖ (X ∪ produced X))
            < size (subsets (elements L) ∖ X))%nat by lia.
    assert (subsets (elements L) ∖ (X ∪ produced X)
            ⊆ subsets (elements L) ∖ X) as Hincl by set_solver.
    destruct (decide (size (subsets (elements L) ∖ (X ∪ produced X))
                      < size (subsets (elements L) ∖ X))%nat) as [|Hge];
      [done|].
    exfalso. apply Hsub. intros r Hr.
    assert (r ∈ subsets (elements L)) as HrU.
    { apply elem_of_subsets. rewrite list_to_set_elements_L.
      by eapply produced_bounded. }
    destruct (decide (r ∈ X)) as [|HrX]; [done|]. exfalso.
    assert (r ∈ subsets (elements L) ∖ X) as Hin by set_solver.
    rewrite <- (set_subseteq_size_eq _ _ Hincl) in Hin by lia.
    set_solver.
Qed.

(** C7: the solver is seeded with the input clauses (tautologies left
    out) and each round forms the resolvents of every pair of distinct
    clauses of the current set; it always returns; it returns UNSAT
    exactly when some round generates the empty clause, and SAT exactly
    when some round, not generating the empty clause, produces no clause
    outside the current set.  The resolvents of two clauses are, for
    every name that is in the one clause with one sign and in the other
    with the other sign, the union of the two clauses without these two
    literals, unless a name is left in it with both signs; the set of a
    round is the set of the round before together with what it
    produced. *)
Theorem resolution_saturates (clauses : list Clause) :
  (∀ X r, r ∈ produced X
          ↔ ∃ c1 c2, c1 ∈ X ∧ c2 ∈ X ∧ c1 ≠ c2 ∧ r ∈ resolve c1 c2)
  ∧ (∃ fuel b, resolution_solver fuel clauses = Ok b)
  ∧ ((∃ fuel, resolution_solver fuel clauses = Ok false)
     ↔ ∃ k, ∅ ∈ produced (generation clauses k))
  ∧ ((∃ fuel, resolution_solver fuel clauses = Ok true)
     ↔ ∃ k, (∅ ∉ produced (generation clauses k))
            ∧ produced (generation clauses k) ⊆ generation clauses k)
  ∧ (∀ c other r,
       r ∈ resolve c other
       ↔ ∃ n b,
           Lit n b ∈ c ∧ Lit n (negb b) ∈ other
           ∧ r = (c ∖ {[Lit n b]}) ∪ (other ∖ {[Lit n (negb b)]})
           ∧ ∀ n', ¬ (Lit n' false ∈ r ∧ Lit n' true ∈ r))
  ∧ (∀ c, c ∈ generation clauses 0
          ↔ c ∈ clauses ∧ ∀ n', ¬ (Lit n' false ∈ c ∧ Lit n' true ∈ c))
  ∧ ∀ k, generation clauses (S k)
         = generation clauses k ∪ produced (generation clauses k).
Proof.
  split_and!; [| | | | | |done].
  5:{ intros c other r. rewrite elem_of_resolve. split.
      - intros ([n b] & l2 & H1 & H2 & ->%clash_spec & -> & Htaut).
        exists n, b. split_and!; [done..|]. by apply is_tautology_false.
      - intros (n & b & H1 & H2 & -> & Htaut).
        exists (Lit n b), (Lit n (negb b)). split_and!; [done..| |done|].
        + by apply clash_spec.
        + by apply is_tautology_false. }
  5:{ intros c. unfold generation, seed. simpl.
      rewrite elem_of_list_to_set, list_elem_of_filter, is_tautology_false.
      tauto. }
  - apply elem_of_produced.
  - destruct (resolution_loop_total (⋃ elements (seed clauses))
                (S (size (subsets (elements (⋃ elements (seed clauses)))
                          ∖ seed clauses)))
                (seed clauses)) as [b Hb]; [|lia|by eexists _, b].
    intros c Hc. apply elem_of_elements in Hc.
    intros x Hx. apply elem_of_union_list. eauto.
  - apply resolution_loop_false_iff.
  - apply resolution_loop_true_iff.
Qed.

End resolution_facts.


(** *** The four solvers on the same input *)
Section solvers_compared.
Context `{SetIteration}.

Lemma perm_two {A} (l : list A) a b : l ≡ₚ [a; b] → l = [a; b] ∨ l = [b; a].
Proof.
  intros Hp. pose proof (Permutation_length Hp) as Hlen.
  destruct l as [|x [|y [|]]]; simplify_eq/=.
  assert (x ∈ [a; b]) as Hx by (rewrite <- Hp; left).
  apply elem_of_cons in Hx as [->|Hx%list_elem_of_singleton].
  - apply Permutation.Permutation_cons_inv, Permutation_singleton_r in Hp.
    left. congruence.
  - subst x. rewrite (Permutation_swap b a []) in Hp.
    apply Permutation.Permutation_cons_inv, Permutation_singleton_r in Hp.
    right. congruence.
Qed.

Lemma dpll_propagate_S fuel s :
  DPLL.propagate (S fuel) s
  = match iter_set (DPLL.unit_clauses s) with
    | [] => Ok (false, s)
    | lit :: _ =>
        DPLL.propagate_literal lit s ≫= λ '(conflict, s'),
          if (conflict : bool) then Ok (true, s') else DPLL.propagate fuel s'
    end.
Proof. reflexivity. Qed.

Lemma dpll_conflict fuel s :
  (∃ s', DPLL.propagate fuel s = Ok (true, s')) →
  ∃ s', DPLL.dpll (S fuel) s = Ok (false, s').
Proof. intros [s' Hrun]. exists s'. simpl. by rewrite Hrun. Qed.

(** Evaluation of the parts of a solver that do not walk a set. *)
Ltac eval_closed t :=
  let v := eval vm_compute in t in
  replace t with v by (vm_compute; reflexivity).

(** The walk of a set of at most two elements: one case per order. *)
Ltac order_step :=
  match goal with
  | |- context [iter_set ?N] =>
      let Hp := fresh "Hp" in
      let e := eval vm_compute in (elements N) in
      pose proof (iter_set_perm N) as Hp;
      replace (elements N) with e in Hp by (vm_compute; reflexivity);
      first
        [ apply Permutation_nil_r in Hp
        | apply Permutation_singleton_r in Hp
        | apply perm_two in Hp as [Hp|Hp] ];
      rewrite Hp; clear Hp
  end.

Ltac literal_step :=
  match goal with
  | |- context [DPLL.propagate_literal ?l ?s] =>
      eval_closed (DPLL.propagate_literal l s);
      rewrite result_bind_Ok; cbv beta iota
  end.

(** On [1 0], [-1 0] the DPLL loop pops the two unit literals in either
    order and meets the contradiction at the second. *)
Lemma dpll_unit_pair_unsat :
  ∃ s, DPLL.solve 3 (DPLL.parse_dimacs [Tokens [1; 0]; Tokens [-1; 0]] DPLL.init)
       = Ok (false, s).
Proof.
  unfold DPLL.solve.
  match goal with
  | |- ∃ s, DPLL.dpll 3 ?s0 = _ => eval_closed s0
  end.
  apply dpll_conflict.
  rewrite dpll_propagate_S. order_step; literal_step;
    rewrite dpll_propagate_S; order_step; literal_step; by eexists.
Qed.

Lemma dp_unit_pair_unsat :
  ∃ s, DP.solve 3 (DP.parse_dimacs [Tokens [1; 0]; Tokens [-1; 0]] DP.init)
       = Ok (false, s).
Proof. eexists. vm_compute. reflexivity. Qed.

Lemma resolution_unit_pair_unsat :
  Resolution.resolution_solver 1
    (Resolution.parse_dimacs [Tokens [1; 0]; Tokens [-1; 0]])
  = Ok false.
Proof. vm_compute. reflexivity. Qed.

(** C2 (the code departs from it): on the unsatisfiable input [1 0],
    [-1 0] the CDCL driver returns SAT while DPLL, DP and resolution
    return UNSAT, whatever the order in which sets are walked. *)
Theorem solvers_disagree :
  (∃ fuel s,
     CDCL.cdcl fuel (CDCL.parse_dimacs [Tokens [1; 0]; Tokens [-1; 0]] CDCL.init)
     = Ok (true, s))
  ∧ (∃ fuel s,
       DPLL.solve fuel
         (DPLL.parse_dimacs [Tokens [1; 0]; Tokens [-1; 0]] DPLL.init)
       = Ok (false, s))
  ∧ (∃ fuel s,
       DP.solve fuel (DP.parse_dimacs [Tokens [1; 0]; Tokens [-1; 0]] DP.init)
       = Ok (false, s))
  ∧ (∃ fuel,
       Resolution.resolution_solver fuel
         (Resolution.parse_dimacs [Tokens [1; 0]; Tokens [-1; 0]])
       = Ok false).
Proof.
  split_and!.
  - destruct (cdcl_always_sat [Tokens [1; 0]; Tokens [-1; 0]])
      as (fuel & s & Hrun & _). by exists fuel, s.
  - exists 3%nat. apply dpll_unit_pair_unsat.
  - exists 3%nat. apply dp_unit_pair_unsat.
  - exists 1%nat. apply resolution_unit_pair_unsat.
Qed.

End solvers_compared.

(** *** Empty clauses in the input *)
Section empty_clause.
Context `{SetIteration}.

Lemma cdcl_parse_line_empty s toks :
  line_literals toks = [] → CDCL.parse_line s (Tokens toks) = s.
Proof.
  intros Hl. unfold CDCL.parse_line. rewrite Hl. simpl.
  rewrite (right_id_L ∅ (∪)). by destruct s.
Qed.

Lemma dpll_parse_line_empty s toks :
  line_literals toks = [] → DPLL.parse_line s (Tokens toks) = s.
Proof.
  intros Hl. unfold DPLL.parse_line. rewrite Hl. simpl.
  rewrite (right_id_L ∅ (∪)). by destruct s.
Qed.

Lemma dp_parse_line_empty s toks :
  line_literals toks = [] → DP.parse_line s (Tokens toks) = s.
Proof.
  intros Hl. unfold DP.parse_line. rewrite Hl. simpl.
  rewrite (right_id_L ∅ (∪)). by destruct s.
Qed.

Lemma resolution_parse_line_empty cs toks :
  line_literals toks = [] → Resolution.parse_line cs (Tokens toks) = cs.
Proof. intros Hl. unfold Resolution.parse_line. by rewrite Hl. Qed.

(** No loader stores an empty clause. *)
Lemma cdcl_parse_no_empty lines s :
  [] ∉ CDCL.clauses s → [] ∉ CDCL.clauses (foldl CDCL.parse_line s lines).
Proof.
  induction lines as [|ln lines IH] using rev_ind; [done|].
  intros Hs. rewrite foldl_app. simpl. specialize (IH Hs).
  destruct ln as [|toks]; simpl; [done|].
  destruct (line_literals toks) eqn:Hl; simpl; [done|].
  rewrite elem_of_app, list_elem_of_singleton. naive_solver.
Qed.

(** C3, as the code has it: a clause line without literals is skipped by
    every loader, so it changes the verdict of no solver, and the clause
    list of a loaded CDCL solver holds no empty clause. *)
Theorem empty_clause_line_dropped (pre post : list dimacs_line)
    (toks : list Z) (fuel : nat) :
  line_literals toks = [] →
  CDCL.cdcl fuel (CDCL.parse_dimacs (pre ++ Tokens toks :: post) CDCL.init)
  = CDCL.cdcl fuel (CDCL.parse_dimacs (pre ++ post) CDCL.init)
  ∧ DPLL.solve fuel (DPLL.parse_dimacs (pre ++ Tokens toks :: post) DPLL.init)
    = DPLL.solve fuel (DPLL.parse_dimacs (pre ++ post) DPLL.init)
  ∧ DP.solve fuel (DP.parse_dimacs (pre ++ Tokens toks :: post) DP.init)
    = DP.solve fuel (DP.parse_dimacs (pre ++ post) DP.init)
  ∧ Resolution.resolution_solver fuel
      (Resolution.parse_dimacs (pre ++ Tokens toks :: post))
    = Resolution.resolution_solver fuel (Resolution.parse_dimacs (pre ++ post))
  ∧ [] ∉ CDCL.clauses (CDCL.parse_dimacs (pre ++ Tokens toks :: post) CDCL.init).
Proof.
  intros Hl. split_and!.
  - unfold CDCL.parse_dimacs. rewrite !foldl_app. cbn [foldl].
    by rewrite cdcl_parse_line_empty.
  - unfold DPLL.parse_dimacs. rewrite !foldl_app. cbn [foldl].
    by rewrite dpll_parse_line_empty.
  - unfold DP.parse_dimacs. rewrite !foldl_app. cbn [foldl].
    by rewrite dp_parse_line_empty.
  - unfold Resolution.parse_dimacs. rewrite !foldl_app. cbn [foldl].
    by rewrite resolution_parse_line_empty.
  - unfold CDCL.parse_dimacs, CDCL.initialize_data_structures. simpl.
    apply cdcl_parse_no_empty. simpl. apply not_elem_of_nil.
Qed.

End empty_clause.

Section empty_clause_example.
#[local] Existing Instance elements_order.

(** The input [1 2 0], [0], [-1 0] and the same without its empty line. *)
Lemma empty_clause_line_dropped_witness :
  CDCL.cdcl 4
    (CDCL.parse_dimacs [Tokens [1; 2; 0]; Tokens [0]; Tokens [-1; 0]] CDCL.init)
  = CDCL.cdcl 4
      (CDCL.parse_dimacs [Tokens [1; 2; 0]; Tokens [-1; 0]] CDCL.init)
  ∧ DPLL.solve 4
      (DPLL.parse_dimacs [Tokens [1; 2; 0]; Tokens [0]; Tokens [-1; 0]] DPLL.init)
    = DPLL.solve 4
        (DPLL.parse_dimacs [Tokens [1; 2; 0]; Tokens [-1; 0]] DPLL.init)
  ∧ DP.solve 4
      (DP.parse_dimacs [Tokens [1; 2; 0]; Tokens [0]; Tokens [-1; 0]] DP.init)
    = DP.solve 4 (DP.parse_dimacs [Tokens [1; 2; 0]; Tokens [-1; 0]] DP.init)
  ∧ Resolution.resolution_solver 4
      (Resolution.parse_dimacs [Tokens [1; 2; 0]; Tokens [0]; Tokens [-1; 0]])
    = Resolution.resolution_solver 4
        (Resolution.parse_dimacs [Tokens [1; 2; 0]; Tokens [-1; 0]])
  ∧ [] ∉ CDCL.clauses
           (CDCL.parse_dimacs [Tokens [1; 2; 0]; Tokens [0]; Tokens [-1; 0]]
              CDCL.init).
Proof.
  apply (empty_clause_line_dropped [Tokens [1; 2; 0]] [Tokens [-1; 0]] [0] 4).
  reflexivity.
Defined.

(** C3 as stated fails: the input whose only clause is the empty one is
    reported SAT by each of the four solvers. *)
Lemma empty_clause_reported_sat :
  fst <$> CDCL.cdcl 2 (CDCL.parse_dimacs [Tokens [0]] CDCL.init) = Ok true
  ∧ fst <$> DPLL.solve 2 (DPLL.parse_dimacs [Tokens [0]] DPLL.init) = Ok true
  ∧ fst <$> DP.solve 2 (DP.parse_dimacs [Tokens [0]] DP.init) = Ok true
  ∧ Resolution.resolution_solver 1 (Resolution.parse_dimacs [Tokens [0]])
    = Ok true.
Proof. split_and!; vm_compute; reflexivity. Qed.

End empty_clause_example.

(** *** DPLL and DP on further inputs, for the walk order [elements] *)
Section other_solvers_examples.
#[local] Existing Instance elements_order.

(** On the satisfiable input [1 2 0], [-1 -2 0] DPLL decides both
    variables true and returns SAT once no variable is left, although the
    second clause is false under that assignment. *)
Lemma dpll_model_falsifies_clause :
  ∃ s,
    DPLL.solve 4
      (DPLL.parse_dimacs [Tokens [1; 2; 0]; Tokens [-1; -2; 0]] DPLL.init)
    = Ok (true, s)
    ∧ DPLL.assignment s = {[1 := true; 2 := true]}
    ∧ existsb (DPLL.lit_true (DPLL.assignment s)) [-1; -2] = false.
Proof.
  destruct (DPLL.solve 4 _) as [[b s]| |] eqn:Hrun;
    try (vm_compute in Hrun; discriminate).
  vm_compute in Hrun. injection Hrun as <- <-.
  eexists. split; [reflexivity|]. split; by vm_compute.
Qed.

(** On the same input DP eliminates both variables, keeps the
    tautological resolvent and derives the empty clause from it: it
    returns UNSAT, where resolution returns SAT. *)
Lemma dp_refutes_satisfiable_input :
  fst <$> DP.solve 4
            (DP.parse_dimacs [Tokens [1; 2; 0]; Tokens [-1; -2; 0]] DP.init)
  = Ok false
  ∧ Resolution.resolution_solver 1
      (Resolution.parse_dimacs [Tokens [1; 2; 0]; Tokens [-1; -2; 0]])
    = Ok true.
Proof. split; vm_compute; reflexivity. Qed.

(** On [1 2 0], [-1 -2 0], [1 -2 0] DP returns SAT with a model that
    assigns one variable only; the second clause is not true under it. *)
Lemma dp_model_is_partial :
  ∃ s,
    DP.solve 6
      (DP.parse_dimacs
         [Tokens [1; 2; 0]; Tokens [-1; -2; 0]; Tokens [1; -2; 0]] DP.init)
    = Ok (true, s)
    ∧ DP.assignment s = {[1 := true]}
    ∧ existsb (DP.lit_true (DP.assignment s)) [-1; -2] = false.
Proof.
  destruct (DP.solve 6 _) as [[b s]| |] eqn:Hrun;
    try (vm_compute in Hrun; discriminate).
  vm_compute in Hrun. injection Hrun as <- <-.
  eexists. split; [reflexivity|]. split; by vm_compute.
Qed.

End other_solvers_examples.

(** *** Sudoku: the variable layout is a bijection *)
Section sudoku_layout.
Import Sudoku.

Lemma cell_var_bounds n row col num :
  0 ≤ row < n → 0 ≤ col < n → 0 ≤ num < n →
  1 ≤ cell_var n row col num ≤ n * n * n.
Proof.
  intros Hrow Hcol Hnum. unfold cell_var. split; [nia|].
  assert (row * n * n ≤ (n - 1) * n * n) by nia.
  assert (col * n ≤ (n - 1) * n) by nia. nia.
Qed.

Lemma cell_var_inj n row col num row' col' num' :
  0 ≤ row < n → 0 ≤ col < n → 0 ≤ num < n →
  0 ≤ row' < n → 0 ≤ col' < n → 0 ≤ num' < n →
  cell_var n row col num = cell_var n row' col' num' →
  row = row' ∧ col = col' ∧ num = num'.
Proof.
  intros Hrow Hcol Hnum Hrow' Hcol' Hnum' Heq.
  assert ((row * n + col) * n + num = (row' * n + col') * n + num') as Heq'
    by (unfold cell_var in Heq; lia).
  assert (row * n + col = row' * n + col' ∧ num = num') as [Hrc ->].
  { apply (Z.div_mod_unique n); lia. }
  assert (row = row' ∧ col = col') as [-> ->]; [|done].
  apply (Z.div_mod_unique n); lia.
Qed.

(** X2: within an n-by-n grid a cell and a number get a variable between
    1 and n*n*n, and two of them get the same variable only when they
    are the same cell and number. *)
Theorem cell_var_range_injective n row col num row' col' num' :
  0 ≤ row < n → 0 ≤ col < n → 0 ≤ num < n →
  0 ≤ row' < n → 0 ≤ col' < n → 0 ≤ num' < n →
  1 ≤ cell_var n row col num ≤ n * n * n
  ∧ (cell_var n row col num = cell_var n row' col' num' →
     row = row' ∧ col = col' ∧ num = num').
Proof.
  intros. split; [by apply cell_var_bounds | by apply cell_var_inj].
Qed.

(** X1: every variable between 1 and n*n*n decodes to a row and a column
    inside the grid and a number between 1 and n, and encoding these
    gives the variable back. *)
Theorem sudoku_encode_decode n var :
  1 ≤ var ≤ n * n * n →
  let '(row, col, num) := decode n var in
  0 ≤ row < n ∧ 0 ≤ col < n ∧ 1 ≤ num ≤ n
  ∧ cell_var n row col (num - 1) = var.
Proof.
  intros Hvar. unfold decode, cell_var. cbv zeta.
  assert (0 < n) as Hn by nia.
  pose proof (Z.mod_pos_bound (var - 1) n Hn).
  pose proof (Z.mod_pos_bound ((var - 1) `div` n) n Hn).
  pose proof (Z.div_mod (var - 1) n ltac:(lia)) as H1.
  pose proof (Z.div_mod ((var - 1) `div` n) n ltac:(lia)) as H2.
  rewrite Z.div_div in H2 by lia.
  assert (0 ≤ (var - 1) `div` (n * n)) by (apply Z.div_pos; nia).
  assert ((var - 1) `div` (n * n) < n).
  { apply Z.div_lt_upper_bound; nia. }
  split_and!; lia.
Qed.
Lemma sudoku_encode_decode_witness :
  let '(row, col, num) := decode 9 400 in
  0 ≤ row < 9 ∧ 0 ≤ col < 9 ∧ 1 ≤ num ≤ 9
  ∧ cell_var 9 row col (num - 1) = 400.
Proof. apply (sudoku_encode_decode 9 400). lia. Defined.

Lemma cell_var_range_injective_witness :
  1 ≤ cell_var 9 4 7 2 ≤ 9 * 9 * 9
  ∧ (cell_var 9 4 7 2 = cell_var 9 4 2 7 → 4 = 4 ∧ 7 = 2 ∧ 2 = 7).
Proof. apply (cell_var_range_injective 9 4 7 2 4 2 7); lia. Defined.

End sudoku_layout.

(** *** The loaders *)
Section loaders.
Context `{SetIteration}.

Lemma stored_clauses_snoc lines ln :
  stored_clauses (lines ++ [ln])
  = stored_clauses lines
    ++ match ln with
       | Skipped => []
       | Tokens toks =>
           match line_literals toks with [] => [] | c => [c] end
       end.
Proof.
  unfold stored_clauses. rewrite omap_app, filter_app. f_equal.
  destruct ln as [|toks]; csimpl; [done|].
  destruct (line_literals toks) eqn:Hl; [done|].
  by rewrite filter_cons_True, filter_nil.
Qed.

Lemma clause_vars_snoc cs c :
  CDCL.clause_vars (cs ++ [c])
  = CDCL.clause_vars cs ∪ list_to_set (Z.abs <$> c).
Proof.
  unfold CDCL.clause_vars.
  rewrite concat_app, fmap_app, list_to_set_app_L. simpl.
  by rewrite app_nil_r.
Qed.

Lemma cdcl_loaded lines :
  CDCL.clauses (foldl CDCL.parse_line CDCL.init lines) = stored_clauses lines
  ∧ CDCL.variables (foldl CDCL.parse_line CDCL.init lines)
    = CDCL.clause_vars (stored_clauses lines).
Proof.
  induction lines as [|ln lines IH] using rev_ind; [done|].
  rewrite foldl_app, stored_clauses_snoc. cbn [foldl].
  destruct IH as [IHc IHv]. destruct ln as [|toks]; simpl.
  { by rewrite app_nil_r. }
  destruct (line_literals toks) as [|l c] eqn:Hl; simpl.
  - rewrite app_nil_r, IHv. split; [done|]. set_solver.
  - rewrite IHc, IHv, clause_vars_snoc. done.
Qed.

Lemma dpll_loaded lines :
  DPLL.clauses (DPLL.parse_dimacs lines DPLL.init) = stored_clauses lines
  ∧ DPLL.variables (DPLL.parse_dimacs lines DPLL.init)
    = CDCL.clause_vars (stored_clauses lines).
Proof.
  unfold DPLL.parse_dimacs.
  induction lines as [|ln lines IH] using rev_ind; [done|].
  rewrite foldl_app, stored_clauses_snoc. cbn [foldl].
  destruct IH as [IHc IHv]. destruct ln as [|toks]; simpl.
  { by rewrite app_nil_r. }
  destruct (line_literals toks) as [|l [|l' c]] eqn:Hl; simpl.
  - rewrite app_nil_r, IHv. split; [done|]. set_solver.
  - rewrite IHc, IHv, clause_vars_snoc. done.
  - rewrite IHc, IHv, clause_vars_snoc. done.
Qed.

Lemma dp_loaded lines :
  DP.clauses (DP.parse_dimacs lines DP.init) = stored_clauses lines
  ∧ DP.variables (DP.parse_dimacs lines DP.init)
    = CDCL.clause_vars (stored_clauses lines).
Proof.
  unfold DP.parse_dimacs.
  induction lines as [|ln lines IH] using rev_ind; [done|].
  rewrite foldl_app, stored_clauses_snoc. cbn [foldl].
  destruct IH as [IHc IHv]. destruct ln as [|toks]; simpl.
  { by rewrite app_nil_r. }
  destruct (line_literals toks) as [|l c] eqn:Hl; simpl.
  - rewrite app_nil_r, IHv. split; [done|]. set_solver.
  - rewrite IHc, IHv, clause_vars_snoc. done.
Qed.

Lemma resolution_loaded lines :
  Resolution.parse_dimacs lines
  = (λ c, list_to_set (Resolution.parse_literal <$> c))
      <$> stored_clauses lines.
Proof.
  unfold Resolution.parse_dimacs.
  induction lines as [|ln lines IH] using rev_ind; [done|].
  rewrite foldl_app, stored_clauses_snoc, fmap_app. cbn [foldl].
  rewrite IH. destruct ln as [|toks]; simpl.
  { by rewrite app_nil_r. }
  destruct (line_literals toks) as [|l c] eqn:Hl; simpl; [|done].
  by rewrite app_nil_r.
Qed.

Lemma stored_clauses_literals lines c :
  c ∈ stored_clauses lines → c ≠ [] ∧ 0 ∉ c.
Proof.
  unfold stored_clauses.
  intros [Hne (ln & Hln & Hc)%list_elem_of_omap]%list_elem_of_filter.
  split; [done|]. destruct ln as [|toks]; [done|]. injection Hc as <-.
  unfold line_literals. intros [? _]%list_elem_of_filter. done.
Qed.

(** X3: the loaders of the four solvers store the same clauses, the
    literal lists of the clause lines in order without the empty ones
    (for resolution, as sets of named literals); the three classes hold
    the same variable set, the absolute values of the stored literals;
    no stored clause is empty or holds a 0. *)
Theorem loaders_agree lines :
  CDCL.clauses (CDCL.parse_dimacs lines CDCL.init) = stored_clauses lines
  ∧ DPLL.clauses (DPLL.parse_dimacs lines DPLL.init) = stored_clauses lines
  ∧ DP.clauses (DP.parse_dimacs lines DP.init) = stored_clauses lines
  ∧ Resolution.parse_dimacs lines
    = (λ c, list_to_set (Resolution.parse_literal <$> c))
        <$> stored_clauses lines
  ∧ CDCL.variables (CDCL.parse_dimacs lines CDCL.init)
    = CDCL.clause_vars (stored_clauses lines)
  ∧ DPLL.variables (DPLL.parse_dimacs lines DPLL.init)
    = CDCL.clause_vars (stored_clauses lines)
  ∧ DP.variables (DP.parse_dimacs lines DP.init)
    = CDCL.clause_vars (stored_clauses lines)
  ∧ ∀ c, c ∈ stored_clauses lines → c ≠ [] ∧ 0 ∉ c.
Proof.
  destruct (cdcl_loaded lines) as [? ?], (dpll_loaded lines) as [? ?],
    (dp_loaded lines) as [? ?].
  split_and!; try done.
  - apply resolution_loaded.
  - apply stored_clauses_literals.
Qed.

(** X4: after loading into a fresh CDCL solver, [var_order] lists every
    variable once, every variable is positive and has activity 0, and
    nothing is assigned. *)
Theorem cdcl_variable_order lines :
  let s := CDCL.parse_dimacs lines CDCL.init in
  NoDup (CDCL.var_order s)
  ∧ (∀ v, v ∈ CDCL.var_order s ↔ v ∈ CDCL.variables s)
  ∧ (∀ v, v ∈ CDCL.variables s → 0 < v ∧ CDCL.var_activity s !! v = Some 0%Q)
  ∧ CDCL.assignment s = [] ∧ CDCL.trail s = [] ∧ CDCL.decision_level s = 0.
Proof.
  intros s. unfold s, CDCL.parse_dimacs, CDCL.initialize_data_structures.
  rewrite (foldl_parse_line CDCL.init lines). simpl.
  set (vs := CDCL.variables (foldl CDCL.parse_line CDCL.init lines)).
  split_and!; try done.
  - rewrite iter_set_perm. apply NoDup_elements.
  - intros v. by rewrite iter_set_elem.
  - intros v Hv. split.
    + unfold vs in Hv. rewrite (proj2 (cdcl_loaded lines)) in Hv.
      unfold CDCL.clause_vars in Hv.
      apply elem_of_list_to_set, list_elem_of_fmap in Hv as (l & -> & Hl).
      apply list_elem_of_In, in_concat in Hl as (c & Hc & Hl).
      apply list_elem_of_In, stored_clauses_literals in Hc as [_ Hz].
      apply list_elem_of_In in Hl. assert (l ≠ 0) by (by intros ->). lia.
    + apply iter_set_elem in Hv. revert Hv.
      generalize (∅ : gmap Z Q).
      induction (iter_set vs) as [|x xs IH] using rev_ind; intros m.
      { by intros ?%elem_of_nil. }
      rewrite foldl_app. simpl. intros [Hv|Hv%list_elem_of_singleton]%elem_of_app.
      * destruct (decide (v = x)) as [->|]; [by rewrite lookup_insert_eq|].
        rewrite lookup_insert_ne by done. by apply IH.
      * subst x. by rewrite lookup_insert_eq.
Qed.
End loaders.

(** *** Watch lists *)
Section watch_facts.

Lemma watch_clause_lookup idx clause w lit k :
  k ∈ default [] (watch_clause idx clause w !! lit)
  ↔ k ∈ default [] (w !! lit)
    ∨ (k = idx ∧ (clause !! 0%nat = Some lit ∨ clause !! 1%nat = Some lit)).
Proof.
  unfold watch_clause. destruct clause as [|l0 [|l1 rest]]; simpl.
  - naive_solver.
  - rewrite watch_append_lookup. destruct (decide (lit = l0)) as [->|].
    + rewrite elem_of_app, list_elem_of_singleton. naive_solver.
    + naive_solver.
  - rewrite !watch_append_lookup.
    destruct (decide (lit = l1)) as [->|], (decide (l1 = l0)) as [->|];
      try destruct (decide (lit = l0)) as [->|];
      rewrite ?elem_of_app, ?list_elem_of_singleton; naive_solver.
Qed.

Lemma watch_clauses_lookup idx cs w lit k :
  k ∈ default [] (watch_clauses idx cs w !! lit)
  ↔ k ∈ default [] (w !! lit)
    ∨ ∃ c, (idx ≤ k)%nat ∧ cs !! (k - idx)%nat = Some c
           ∧ (c !! 0%nat = Some lit ∨ c !! 1%nat = Some lit).
Proof.
  revert idx w. induction cs as [|c cs IH]; intros idx w; simpl.
  { split; [by left|]. intros [?|(c & _ & Hc & _)]; [done|].
    by rewrite lookup_nil in Hc. }
  rewrite IH, watch_clause_lookup. split.
  - intros [[?|[-> Hc]]|(c' & Hle & Hc' & Hlit)].
    + by left.
    + right. exists c. rewrite Nat.sub_diag. by split_and!.
    + right. exists c'. split_and!; [lia| |done].
      replace (k - idx)%nat with (S (k - S idx)) by lia. done.
  - intros [?|(c' & Hle & Hc' & Hlit)]; [by left; left|].
    destruct (decide (k = idx)) as [->|Hne].
    + rewrite Nat.sub_diag in Hc'. simpl in Hc'. injection Hc' as ->.
      left. by right.
    + right. exists c'. split_and!; [lia| |done].
      replace (k - idx)%nat with (S (k - S idx)) in Hc' by lia. done.
Qed.
End watch_facts.

(** *** CDCL: the loaded solver and the verdict *)
Section cdcl_loaded.
Import CDCL.
Context `{SetIteration}.

(** X5: after loading into a fresh CDCL solver, a clause index is on
    the watch list of a literal exactly when the literal is the first
    or the second one of that clause. *)
Theorem parse_dimacs_watches lines idx lit :
  idx ∈ default [] (watch_list (parse_dimacs lines init) !! lit)
  ↔ ∃ clause,
      clauses (parse_dimacs lines init) !! idx = Some clause
      ∧ (clause !! 0%nat = Some lit ∨ clause !! 1%nat = Some lit).
Proof.
  unfold parse_dimacs, initialize_data_structures.
  rewrite (foldl_parse_line init lines). simpl.
  rewrite watch_clauses_lookup, lookup_empty. simpl.
  rewrite Nat.sub_0_r. split.
  - intros [?%elem_of_nil|(c & _ & ? & ?)]; [done|]. by exists c.
  - intros (c & ? & ?). right. exists c. split_and!; [lia|done..].
Qed.

(** X7: [add_clause] stores the clause at the next free index: reading
    that index gives the clause back, the earlier indices read as
    before, and the index is put on the watch lists of the first two
    literals of the clause and on no other. *)
Theorem add_clause_lookup clause s :
  let idx := (length (clauses s) + length (learned_clauses s))%nat in
  clause_at (add_clause clause s) idx = Ok clause
  ∧ (∀ i, (i < idx)%nat → clause_at (add_clause clause s) i = clause_at s i)
  ∧ (∀ lit k,
       k ∈ default [] (watch_list (add_clause clause s) !! lit)
       ↔ k ∈ default [] (watch_list s !! lit)
         ∨ (k = idx
            ∧ (clause !! 0%nat = Some lit ∨ clause !! 1%nat = Some lit))).
Proof.
  intros idx. unfold add_clause, clause_at. simpl.
  rewrite length_app. simpl. split_and!.
  - destruct (Nat.ltb_spec idx (length (clauses s))); [lia|].
    replace (idx - length (clauses s))%nat with (length (learned_clauses s))
      by lia.
    by rewrite lookup_app_r, Nat.sub_diag.
  - intros i Hi. destruct (Nat.ltb_spec i (length (clauses s))); [done|].
    by rewrite lookup_app_l by lia.
  - intros lit k. rewrite watch_clause_lookup.
    replace (length (clauses s) + (length (learned_clauses s) + 1) - 1)%nat
      with idx by lia. done.
Qed.

Lemma cdcl_quiet_verdict fuel s b s' :
  quiet s → cdcl fuel s = Ok (b, s') → b = true ∧ quiet s'.
Proof.
  revert s. induction fuel as [|fuel IH]; intros s Hq; [done|].
  rewrite cdcl_S.
  destruct (cdcl_iteration fuel s) as [f| |] eqn:Hit; try done.
  rewrite result_bind_Ok.
  pose proof (cdcl_iteration_quiet_inv _ _ _ Hq Hit) as ->.
  pose proof (on_no_conflict_quiet s Hq) as [Hflow _].
  destruct (on_no_conflict s) as [b0 s0|s0].
  - intros [= <- <-]. by destruct Hflow as (-> & ? & _).
  - destruct Hflow as [Hq0 _]. by apply IH.
Qed.

(** X6: on every input the CDCL driver returns, and whenever it returns
    the verdict is SAT: no conflict is ever met, no clause learned, and
    every variable is decided true, one decision level each. *)
Theorem cdcl_never_unsat lines :
  (∀ fuel b s,
     cdcl fuel (parse_dimacs lines init) = Ok (b, s) → b = true)
  ∧ ∃ fuel s,
      cdcl fuel (parse_dimacs lines init) = Ok (true, s)
      ∧ conflict_count s = 0
      ∧ learned_clauses s = []
      ∧ decision_level s = Z.of_nat (size (variables s))
      ∧ ∀ v, v ∈ variables s → od_get v (assignment s) = Some true.
Proof.
  split.
  - intros fuel b s Hrun.
    by destruct (cdcl_quiet_verdict _ _ _ _
                   (parse_dimacs_quiet lines init init_quiet) Hrun).
  - destruct (cdcl_always_sat lines) as (fuel & s & Hrun & Hq & _ & _ & Hlen & Hall).
    exists fuel, s. split_and!; try done; try by destruct Hq.
    rewrite <- Hlen. by destruct Hq.
Qed.
End cdcl_loaded.

(** *** CDCL: what conflict analysis can return *)
Section cdcl_analysis_levels.
Import CDCL.

Lemma analyze_loop_levels fuel s queue seen cll res :
  analyze_loop fuel s queue seen cll = Ok res →
  Forall (at_current_level s) cll → Forall (at_current_level s) res.
Proof.
  revert queue seen cll.
  induction fuel as [|fuel IH]; intros queue seen cll; [done|]. simpl.
  destruct queue as [|var queue]; [by intros [= <-]|].
  destruct (default (0, None) (var_info s !! var)) as [level antecedent] eqn:Hinfo.
  intros Hrun Hcll.
  assert (Forall (at_current_level s)
            (if decide (level = decision_level s) then cll ++ [var] else cll))
    as Hcll'.
  { destruct (decide _) as [Hl|]; [|done].
    apply Forall_app. split; [done|]. apply Forall_singleton.
    unfold at_current_level. by rewrite Hinfo. }
  destruct antecedent as [a|]; [|by eapply IH].
  destruct (clause_at s a) as [ac| |]; try done.
  rewrite result_bind_Ok in Hrun.
  destruct (enqueue_unseen var ac seen queue) as [seen' queue'].
  by eapply IH.
Qed.

Lemma foldl_max_const (d : Z) ls :
  Forall (λ l, l = d) ls → foldl Z.max d ls = d.
Proof.
  induction 1 as [|l ls Hl _ IH]; simpl; [done|].
  by rewrite Hl, Z.max_id.
Qed.

Lemma max_level_current s vs lvl :
  max_level s vs = Ok lvl →
  Forall (at_current_level s) vs → lvl = decision_level s.
Proof.
  unfold max_level. intros Hrun Hvs.
  destruct (mapM _ vs) as [levels| |] eqn:Hmap; try done.
  rewrite result_bind_Ok in Hrun.
  assert (Forall (λ l, l = decision_level s) levels) as Hlevels.
  { clear Hrun. revert levels Hmap.
    induction Hvs as [|v vs Hv _ IH]; intros levels; simpl.
    { by intros [= <-]. }
    unfold at_current_level in Hv.
    destruct (var_info s !! v) as [[l a]|]; simpl; [|done].
    destruct (mapM _ vs) as [ls| |]; simpl; try done.
    intros [= <-]. constructor; [done|]. by apply IH. }
  destruct Hlevels as [|l ls Hl Hls]; [done|]. injection Hrun as <-.
  rewrite Hl. by apply foldl_max_const.
Qed.

(** X8: the clause [analyze_conflict] returns is the conflict clause
    with some literals left out, and the level it returns is 0 or the
    current decision level, never one in between. *)
Theorem analyze_conflict_levels s conflict_clause learned_clause level :
  analyze_conflict s conflict_clause = Ok (learned_clause, level) →
  sublist learned_clause conflict_clause
  ∧ (level = 0 ∨ level = decision_level s).
Proof.
  unfold analyze_conflict.
  destruct (analyze_loop _ s _ _ []) as [cll| |] eqn:Hloop; try done.
  rewrite result_bind_Ok.
  apply analyze_loop_levels in Hloop; [|constructor].
  destruct (last cll) as [uip|].
  - destruct (1 <? length cll)%nat.
    + destruct (max_level s _) as [lvl| |] eqn:Hmax; try done.
      rewrite result_bind_Ok. intros [= <- <-].
      split; [apply sublist_filter|]. right.
      apply (max_level_current _ _ _ Hmax).
      apply Forall_forall. intros v [_ Hv]%list_elem_of_filter.
      by apply (proj1 (Forall_forall _ _) Hloop).
    + intros [= <- <-]. split; [apply sublist_filter|by left].
  - intros [= <- <-]. split; [apply sublist_nil_l|by left].
Qed.

Lemma analyze_conflict_levels_witness :
  sublist [-2; -3] [-2; -3] ∧ ((1 : Z) = 0 ∨ 1 = decision_level implied_state).
Proof.
  apply (analyze_conflict_levels implied_state [-2; -3] [-2; -3] 1).
  reflexivity.
Defined.
End cdcl_analysis_levels.

(** *** CDCL: backtracking to any level *)
Section cdcl_backtrack_levels.
Import CDCL.

Lemma hd_drop {A} (d : A) n l : hd d (drop n l) = default d (l !! n).
Proof.
  revert n. induction l as [|x l IH]; intros [|n]; simpl; try done.
Qed.

(** X9: on a well-formed trail, [backtrack] to a level between 0 and the
    current one ends at that level; it keeps the level marks and the
    trail entries up to the first decision above the level, with their
    values and their [var_info], and the clauses, the learned clauses
    and the watch lists. *)
Theorem backtrack_to_level s level :
  trail_wf s →
  0 ≤ level ≤ decision_level s →
  ∃ s',
    backtrack level s = Ok s'
    ∧ decision_level s' = level
    ∧ trail_lim s' = take (Z.to_nat level) (trail_lim s)
    ∧ trail s'
      = take (default (length (trail s)) (trail_lim s !! Z.to_nat level))
          (trail s)
    ∧ (∀ lit, lit ∈ trail s' →
         od_get lit (assignment s') = od_get lit (assignment s)
         ∧ var_info s' !! Z.abs lit = var_info s !! Z.abs lit)
    ∧ clauses s' = clauses s
    ∧ learned_clauses s' = learned_clauses s
    ∧ watch_list s' = watch_list s.
Proof.
  intros [Hlevel Hsorted Hbound Hnd Hkeys] Hrange.
  destruct (backtrack_levels_spec (drop (Z.to_nat level) (trail_lim s)) s
              (take (Z.to_nat level) (trail_lim s)))
    as (s' & Hrun & Hlim' & Hdl' & Htr' & Hkeep); try done.
  { by rewrite take_drop. }
  { by apply Sorted_StronglySorted; [apply _|]. }
  rewrite length_drop in Hrun, Hdl'.
  assert (backtrack level s = Ok s') as Hback.
  { unfold backtrack. rewrite <- Hrun. f_equal. lia. }
  destruct (backtrack_frame _ _ _ Hback)
    as ((Hcl & _ & Hlc & _) & Hw & _).
  exists s'. split_and!; try done; [lia| |].
  - by rewrite Htr', hd_drop.
  - intros lit Hlit. by destruct (Hkeep lit Hlit) as (? & ? & _).
Qed.

(** X10: [backtrack] to the current level or above changes nothing; to a
    negative level, on a well-formed trail, it undoes every level and
    then pops the empty list of level marks: IndexError. *)
Theorem backtrack_out_of_range s level :
  (decision_level s ≤ level → backtrack level s = Ok s)
  ∧ (trail_wf s → level < 0 → backtrack level s = Raise IndexError).
Proof.
  split.
  - intros Hle. unfold backtrack.
    by replace (Z.to_nat (decision_level s - level)) with 0%nat by lia.
  - intros [Hlevel Hsorted Hbound Hnd Hkeys] Hneg.
    destruct (backtrack_levels_spec (trail_lim s) s [])
      as (s' & Hrun & Hlim' & _); try done.
    { by apply Sorted_StronglySorted; [apply _|]. }
    unfold backtrack.
    replace (Z.to_nat (decision_level s - level))
      with (length (trail_lim s) + S (Z.to_nat (- level) - 1))%nat by lia.
    rewrite backtrack_levels_add, Hrun, result_bind_Ok.
    by apply backtrack_levels_no_level.
Qed.

Lemma backtrack_to_level_witness :
  ∃ s',
    backtrack 1 two_level_state = Ok s'
    ∧ decision_level s' = 1
    ∧ trail_lim s' = [1%nat]
    ∧ trail s' = [5; 1]
    ∧ (∀ lit, lit ∈ trail s' →
         od_get lit (assignment s') = od_get lit (assignment two_level_state)
         ∧ var_info s' !! Z.abs lit = var_info two_level_state !! Z.abs lit)
    ∧ clauses s' = [[5]; [1; 2]]
    ∧ learned_clauses s' = [[-3]]
    ∧ watch_list s' = watch_list two_level_state.
Proof.
  apply (backtrack_to_level two_level_state 1 two_level_state_wf).
  by vm_compute.
Defined.

Lemma backtrack_out_of_range_witness :
  backtrack 2 two_level_state = Ok two_level_state
  ∧ backtrack (-1) two_level_state = Raise IndexError.
Proof.
  destruct (backtrack_out_of_range two_level_state 2) as [Hnoop _].
  destruct (backtrack_out_of_range two_level_state (-1)) as [_ Herr].
  split; [apply Hnoop; by vm_compute|].
  apply Herr; [apply two_level_state_wf | reflexivity].
Defined.
End cdcl_backtrack_levels.

(** *** CDCL: the decision heuristic *)
Section cdcl_select.
Import CDCL.

Lemma Qle_bool_false a b : Qle_bool a b = false → (b < a)%Q.
Proof.
  intros Hf. apply Qnot_le_lt. intros Hle%Qle_bool_iff. congruence.
Qed.

(** The head of the sorted list is the first element of smallest key. *)
Lemma head_sort_by_key_first key l v :
  head (sort_by_key key l) = Some v →
  ∃ pre post, l = pre ++ v :: post
    ∧ (∀ u, u ∈ pre → (key v < key u)%Q)
    ∧ (∀ u, u ∈ post → (key v <= key u)%Q).
Proof.
  revert v. induction l as [|x l IH]; intros v; simpl; [done|].
  destruct (sort_by_key key l) as [|h t] eqn:Hsort; simpl.
  - intros [= <-]. assert (l = []) as ->.
    { apply Permutation_nil_r. rewrite <- Hsort. symmetry. apply sort_by_key_perm. }
    exists [], []. split_and!; [done|by intros ? ?%elem_of_nil..].
  - destruct (IH h eq_refl) as (pre & post & -> & Hpre & Hpost).
    destruct (Qle_bool (key x) (key h)) eqn:Hle; simpl; intros [= <-].
    + apply Qle_bool_iff in Hle.
      exists [], (pre ++ h :: post). split_and!; [done|by intros ? ?%elem_of_nil|].
      intros u [Hu|[->|Hu]%elem_of_cons]%elem_of_app.
      * apply Qlt_le_weak. eapply Qle_lt_trans; [exact Hle|by apply Hpre].
      * done.
      * eapply Qle_trans; [exact Hle|by apply Hpost].
    + apply Qle_bool_false in Hle.
      exists (x :: pre), post. split_and!; [done| |done].
      intros u [->|Hu]%elem_of_cons; [done|by apply Hpre].
Qed.

Lemma activity_defaults (m : gmap Z Q) vs v :
  activity_of
    (foldl (λ m v, match m !! v with
                   | None => <[v := 0%Q]> m
                   | Some _ => m
                   end) m vs) v
  = activity_of m v.
Proof.
  revert m. induction vs as [|x vs IH]; intros m; simpl; [done|].
  rewrite IH. destruct (m !! x) eqn:Hx; [done|].
  unfold activity_of. destruct (decide (v = x)) as [->|].
  - by rewrite lookup_insert_eq, Hx.
  - by rewrite lookup_insert_ne.
Qed.

Lemma filter_split {A} (P : A → Prop) `{∀ x, Decision (P x)} l pre v post :
  filter P l = pre ++ v :: post →
  ∃ pre' post', l = pre' ++ v :: post'
                ∧ filter P pre' = pre ∧ filter P post' = post.
Proof.
  revert pre. induction l as [|x l IH]; intros pre; [by destruct pre|].
  rewrite filter_cons. destruct (decide (P x)) as [Hx|Hx].
  - destruct pre as [|p pre]; intros [= Hhd Hrest]; subst.
    + by exists [], l.
    + destruct (IH _ Hrest) as (pre' & post' & -> & <- & <-).
      exists (p :: pre'), post'. by rewrite filter_cons_True.
  - intros (pre' & post' & -> & <- & <-)%IH.
    exists (x :: pre'), post'. by rewrite filter_cons_False.
Qed.

Lemma Qopp_lt_inv a b : (- a < - b)%Q → (b < a)%Q.
Proof.
  intros Hlt%Qopp_lt_compat. by rewrite !Qopp_involutive in Hlt.
Qed.

Lemma Qopp_le_inv a b : (- a <= - b)%Q → (b <= a)%Q.
Proof.
  intros Hle%Qopp_le_compat. by rewrite !Qopp_involutive in Hle.
Qed.

(** X11: [select_variable] returns [None] exactly when every variable of
    [var_order] is a key of the assignment; otherwise it returns the
    first variable of [var_order] among the unassigned ones of highest
    activity, and stores nothing but default activities. *)
Theorem select_variable_highest s :
  match select_variable s with
  | (None, s') =>
      s' = s ∧ ∀ v, v ∈ var_order s → od_mem v (assignment s) = true
  | (Some var, s') =>
      od_mem var (assignment s) = false
      ∧ (∃ pre post,
           var_order s = pre ++ var :: post
           ∧ (∀ u, u ∈ pre → od_mem u (assignment s) = false →
                (activity_of (var_activity s) u
                 < activity_of (var_activity s) var)%Q)
           ∧ (∀ u, u ∈ post → od_mem u (assignment s) = false →
                (activity_of (var_activity s) u
                 <= activity_of (var_activity s) var)%Q))
      ∧ s' = with_var_activity (var_activity s') s
      ∧ ∀ v, activity_of (var_activity s') v = activity_of (var_activity s) v
  end.
Proof.
  rewrite select_variable_eq. cbv zeta.
  destruct (decide _) as [Hnil|Hne].
  { split; [done|]. intros v Hv.
    destruct (od_mem v (assignment s)) eqn:Hm; [done|].
    assert (v ∈ filter (λ var, od_mem var (assignment s) = false) (var_order s))
      as Hin by (by apply list_elem_of_filter).
    rewrite Hnil in Hin. by apply elem_of_nil in Hin. }
  match goal with
  | |- context [head (sort_by_key ?key ?l)] =>
      destruct (head_sort_by_key_is_Some key l Hne) as [var Hhead]
  end.
  rewrite Hhead.
  apply head_sort_by_key_first in Hhead as (pre & post & Hsplit & Hpre & Hpost).
  destruct (filter_split _ _ _ _ _ Hsplit) as (pre' & post' & Hord & <- & <-).
  assert (od_mem var (assignment s) = false) as Hun.
  { assert (var ∈ filter (λ var, od_mem var (assignment s) = false)
                    (var_order s)) as [? _]%list_elem_of_filter; [|done].
    rewrite Hsplit. apply elem_of_app. right. left. }
  split_and!; [done| |done|intros v; apply activity_defaults].
  exists pre', post'. split_and!; [done| |].
  - intros u Hu Hmem. specialize (Hpre u). rewrite !activity_defaults in Hpre.
    apply Qopp_lt_inv, Hpre. by apply list_elem_of_filter.
  - intros u Hu Hmem. specialize (Hpost u). rewrite !activity_defaults in Hpost.
    apply Qopp_le_inv, Hpost. by apply list_elem_of_filter.
Qed.
End cdcl_select.

(** *** DPLL: what decides the verdict *)
Section dpll_units.
Import DPLL.
Context `{SetIteration}.

Lemma scan_clause_satisfied a clause acc l :
  l ∈ clause → lit_true a l = true → (scan_clause a clause acc).1 = true.
Proof.
  intros Hl Ht. revert acc.
  induction clause as [|x rest IH]; intros acc; simpl; [by apply elem_of_nil in Hl|].
  unfold lit_true in Ht. apply bool_decide_eq_true in Ht.
  case_bool_decide as Hnone.
  { apply IH. apply elem_of_cons in Hl as [->|]; [congruence|done]. }
  destruct (lit_true a x) eqn:Hx; [done|].
  apply IH. apply elem_of_cons in Hl as [->|]; [|done].
  unfold lit_true in Hx. by rewrite bool_decide_eq_true_2 in Hx.
Qed.

Lemma watch_loop_idle lit idxs s :
  (∀ idx, idx ∈ idxs → ∃ c, clauses s !! idx = Some c ∧ lit ∈ c) →
  lit_true (assignment s) lit = true →
  watch_loop lit idxs s = Ok (false, s).
Proof.
  intros Hidx Ht. induction idxs as [|idx idxs IH]; simpl; [done|].
  destruct (Hidx idx) as (c & Hc & Hl); [left|]. rewrite Hc. simpl.
  assert (watch_loop lit idxs s = Ok (false, s)) as Hrest.
  { apply IH. intros i Hi. apply Hidx. by right. }
  destruct (find_new_watch _ _ _); [done|].
  pose proof (scan_clause_satisfied (assignment s) c [] lit Hl Ht) as Hscan.
  destruct (scan_clause _ c []) as [satisfied unassigned]. simpl in Hscan.
  by rewrite Hscan.
Qed.

Lemma propagate_literal_keeps cs vs units lit s :
  (∀ l, l ∈ units → l ≠ 0) →
  propagating cs vs units s → lit ∈ unit_clauses s →
  ∃ conflict s',
    propagate_literal lit s = Ok (conflict, s')
    ∧ (conflict = true → - lit ∈ units)
    ∧ (conflict = false →
       propagating cs vs units s' ∧ unit_clauses s' = unit_clauses s ∖ {[lit]}).
Proof.
  intros Hnz [Hcs Hvs Hw Hu Ha Hd] Hlit. unfold propagate_literal. simpl.
  destruct (assignment s !! Z.abs lit) as [b|] eqn:Hlook.
  - eexists _, _. split; [done|]. split.
    + intros Hneq%negb_true_iff.
      destruct (Ha _ _ Hlook) as (l & Hl & Habs & ->).
      assert (l ≠ 0) by auto. assert (lit ≠ 0) by (apply Hnz; set_solver).
      assert (l = - lit) as ->; [|done].
      destruct (Z.ltb_spec 0 l), (Z.ltb_spec 0 lit); simpl in Hneq; try done; lia.
    + intros Heq%negb_false_iff. split; [|done].
      split; simpl; try done; [set_solver|].
      intros l Hl Hout. destruct (decide (l = lit)) as [->|].
      * rewrite Hlook. f_equal. by destruct b, (0 <? lit).
      * apply Hd; [done|]. set_solver.
  - set (s2 := with_assignment (<[Z.abs lit := 0 <? lit]> (assignment s))
                 (with_unit_clauses (unit_clauses s ∖ {[lit]}) s)).
    rewrite (watch_loop_idle lit _ s2).
    + rewrite result_bind_Ok. eexists _, _. split; [done|].
      split; [done|]. intros _. split; [|done].
      split; simpl; try done.
      * intros l idx Hidx. apply (Hw l idx).
        destruct (decide (l = - lit)) as [->|].
        { by rewrite lookup_delete_eq in Hidx; apply elem_of_nil in Hidx. }
        rewrite lookup_delete_ne in Hidx by done.
        destruct (decide (l = lit)) as [->|].
        { by rewrite lookup_delete_eq in Hidx; apply elem_of_nil in Hidx. }
        by rewrite lookup_delete_ne in Hidx.
      * set_solver.
      * intros v b. destruct (decide (v = Z.abs lit)) as [->|].
        { rewrite lookup_insert_eq. intros [= <-]. exists lit. set_solver. }
        rewrite lookup_insert_ne by done. apply Ha.
      * intros l Hl Hout. destruct (decide (Z.abs l = Z.abs lit)) as [Heq|Hne].
        { rewrite Heq, lookup_insert_eq.
          destruct (decide (l = lit)) as [->|Hll]; [done|].
          assert (l ∉ unit_clauses s) as Hout' by set_solver.
          specialize (Hd l Hl Hout'). congruence. }
        rewrite lookup_insert_ne by done. apply Hd; [done|]. set_solver.
    + intros idx Hidx. simpl. rewrite Hcs. by apply Hw.
    + unfold lit_true. simpl. by rewrite lookup_insert_eq, bool_decide_eq_true_2.
Qed.

Lemma propagate_run cs vs units fuel s :
  (∀ l, l ∈ units → l ≠ 0) →
  propagating cs vs units s →
  (size (unit_clauses s) < fuel)%nat →
  ∃ conflict s',
    propagate fuel s = Ok (conflict, s')
    ∧ (conflict = true → ∃ l, l ∈ units ∧ - l ∈ units)
    ∧ (conflict = false → propagating cs vs units s' ∧ unit_clauses s' = ∅).
Proof.
  intros Hnz. revert s. induction fuel as [|fuel IH]; intros s Hinv Hsize; [lia|].
  rewrite dpll_propagate_S.
  destruct (iter_set (unit_clauses s)) as [|lit rest] eqn:Hiter.
  { exists false, s. split_and!; [done..|]. intros _. split; [done|].
    apply set_eq. intros x. rewrite <- iter_set_elem, Hiter. set_solver. }
  assert (lit ∈ unit_clauses s) as Hlit.
  { apply iter_set_elem. rewrite Hiter. left. }
  destruct (propagate_literal_keeps cs vs units lit s Hnz Hinv Hlit)
    as (conflict & s' & -> & Htrue & Hfalse).
  rewrite result_bind_Ok. destruct conflict.
  - exists true, s'. split_and!; [done| |done].
    intros _. exists lit. split; [|auto]. by apply (prop_units _ _ _ _ Hinv).
  - destruct (Hfalse eq_refl) as [Hinv' Hunits'].
    apply IH; [done|]. rewrite Hunits'.
    assert (size (unit_clauses s) = S (size (unit_clauses s ∖ {[lit]}))).
    { rewrite (union_difference_L {[lit]} (unit_clauses s)) at 1 by set_solver.
      rewrite size_union by set_solver. by rewrite size_singleton. }
    lia.
Qed.

Lemma dpll_S fuel s :
  dpll (S fuel) s
  = propagate fuel s ≫= λ '(conflict, s1),
      if (conflict : bool) then Ok (false, s1)
      else
        let s2 := pure_literals s1 in
        if all_satisfied s2 then Ok (true, s2)
        else
          match filter (λ var, assignment s2 !! var = None)
                       (iter_set (variables s2)) with
          | [] => Ok (true, s2)
          | var :: _ =>
              dpll fuel (with_assignment (<[var := true]> (assignment s2)) s2)
              ≫= λ '(r1, s3),
                if (r1 : bool) then Ok (true, s3)
                else
                  or_raise KeyError (assignment s3 !! var) ≫= λ _,
                  dpll fuel
                    (with_assignment
                       (<[var := false]> (delete var (assignment s3))) s3)
                  ≫= λ '(r2, s4),
                    if (r2 : bool) then Ok (true, s4)
                    else
                      or_raise KeyError (assignment s4 !! var) ≫= λ _,
                      Ok (false,
                          with_assignment (delete var (assignment s4)) s4)
          end.
Proof. reflexivity. Qed.

Lemma pure_literals_grows s v b :
  assignment s !! v = Some b → assignment (pure_literals s) !! v = Some b.
Proof.
  unfold pure_literals. simpl.
  generalize (iter_set (filter (λ lit, - lit ∉ dom (occurrences s))
                               (dom (occurrences s)))).
  intros lits. revert v b. generalize (assignment s).
  induction lits as [|l lits IH]; intros a v b Hv; simpl; [done|].
  apply IH. destruct (a !! Z.abs l) eqn:Hl; [done|].
  rewrite lookup_insert_ne; [done|]. congruence.
Qed.

Lemma undecided_pure_literals s : undecided (pure_literals s) ⊆ undecided s.
Proof.
  intros v [Hnone Hv]%elem_of_filter. apply elem_of_filter. split; [|done].
  destruct (assignment s !! v) as [b|] eqn:Hlook; [|done].
  apply pure_literals_grows in Hlook. simpl in *. congruence.
Qed.

Lemma dpll_no_units_verdict fuel s b s' :
  unit_clauses s = ∅ → dpll fuel s = Ok (b, s') → b = true.
Proof.
  revert s b s'. induction fuel as [|fuel IH]; intros s b s' Hu; [done|].
  rewrite dpll_S. destruct fuel as [|fuel]; [done|].
  rewrite dpll_propagate_S, Hu.
  assert (iter_set (∅ : gset Z) = []) as ->.
  { apply Permutation_nil_r. rewrite iter_set_perm. by rewrite elements_empty. }
  rewrite result_bind_Ok. cbv zeta.
  destruct (all_satisfied _); [by intros [= <- _]|].
  destruct (filter _ _) as [|var vars]; [by intros [= <- _]|].
  destruct (dpll (S fuel) _) as [[r1 s3]| |] eqn:Hrun; try done.
  apply IH in Hrun as ->; [|done].
  rewrite result_bind_Ok. by intros [= <- _].
Qed.

Lemma dpll_no_units_run fuel s :
  unit_clauses s = ∅ → (size (undecided s) + 2 ≤ fuel)%nat →
  ∃ s', dpll fuel s = Ok (true, s').
Proof.
  revert s. induction fuel as [|fuel IH]; intros s Hu Hsize; [lia|].
  rewrite dpll_S. destruct fuel as [|fuel]; [lia|].
  rewrite dpll_propagate_S, Hu.
  assert (iter_set (∅ : gset Z) = []) as ->.
  { apply Permutation_nil_r. rewrite iter_set_perm. by rewrite elements_empty. }
  rewrite result_bind_Ok. cbv zeta.
  destruct (all_satisfied _); [by eexists|].
  destruct (filter _ _) as [|var vars] eqn:Hfilter; [by eexists|].
  assert (var ∈ undecided (pure_literals s)) as Hvar.
  { assert (var ∈ var :: vars) as Hin by left.
    rewrite <- Hfilter in Hin.
    apply list_elem_of_filter in Hin as [Hnone Hin%iter_set_elem].
    by apply elem_of_filter. }
  destruct (IH (with_assignment
                  (<[var := true]> (assignment (pure_literals s)))
                  (pure_literals s))) as [s3 Hrun]; [done| |].
  - pose proof (undecided_pure_literals s) as Hsub.
    apply subseteq_size in Hsub.
    assert (undecided (with_assignment
                         (<[var := true]> (assignment (pure_literals s)))
                         (pure_literals s))
            ⊆ undecided (pure_literals s) ∖ {[var]}) as Hsub'.
    { intros v [Hnone Hv]%elem_of_filter. simpl in *.
      destruct (decide (v = var)) as [->|Hne].
      { by rewrite lookup_insert_eq in Hnone. }
      rewrite lookup_insert_ne in Hnone by done.
      apply elem_of_difference. split; [by apply elem_of_filter|set_solver]. }
    apply subseteq_size in Hsub'.
    rewrite size_difference in Hsub' by set_solver.
    rewrite size_singleton in Hsub'.
    assert (size (undecided (pure_literals s)) ≠ 0%nat).
    { intros Hz%size_empty_inv. set_solver. }
    lia.
  - rewrite Hrun, result_bind_Ok. by eexists.
Qed.

Lemma parse_dimacs_units lines s :
  (∀ l, l ∈ unit_clauses s → l ≠ 0 ∧ [l] ∈ clauses s) →
  (∀ l, [l] ∈ clauses s → l ∈ unit_clauses s) →
  (∀ l, l ∈ unit_clauses (parse_dimacs lines s)
        → l ≠ 0 ∧ [l] ∈ clauses (parse_dimacs lines s))
  ∧ (∀ l, [l] ∈ clauses (parse_dimacs lines s)
          → l ∈ unit_clauses (parse_dimacs lines s)).
Proof.
  unfold parse_dimacs. revert s.
  induction lines as [|ln lines IH]; intros s H1 H2; [done|].
  cbn [foldl]. apply IH.
  - destruct ln as [|toks]; [done|]. unfold parse_line.
    destruct (line_literals toks) as [|lit [|lit' rest]] eqn:Hlits; simpl.
    + done.
    + intros l [->%elem_of_singleton|Hl]%elem_of_union.
      * split; [|apply elem_of_app; right; left].
        assert (lit ∈ line_literals toks) as Hin by (rewrite Hlits; left).
        unfold line_literals in Hin.
        by apply list_elem_of_filter in Hin as [? _].
      * destruct (H1 l Hl). split; [done|]. apply elem_of_app. by left.
    + intros l Hl. destruct (H1 l Hl). split; [done|]. apply elem_of_app. by left.
  - destruct ln as [|toks]; [done|]. unfold parse_line.
    destruct (line_literals toks) as [|lit [|lit' rest]] eqn:Hlits; simpl.
    + done.
    + intros l [Hl|[= ->]%list_elem_of_singleton]%elem_of_app; set_solver.
    + intros l [Hl|[=]%list_elem_of_singleton]%elem_of_app. auto.
Qed.

Lemma propagate_inv cs vs units fuel s conflict s' :
  (∀ l, l ∈ units → l ≠ 0) →
  propagating cs vs units s →
  propagate fuel s = Ok (conflict, s') →
  if conflict then ∃ l, l ∈ units ∧ - l ∈ units
  else propagating cs vs units s' ∧ unit_clauses s' = ∅.
Proof.
  intros Hnz. revert s. induction fuel as [|fuel IH]; intros s Hinv; [done|].
  rewrite dpll_propagate_S.
  destruct (iter_set (unit_clauses s)) as [|lit rest] eqn:Hiter.
  { intros [= <- <-]. split; [done|].
    apply set_eq. intros x. rewrite <- iter_set_elem, Hiter. set_solver. }
  assert (lit ∈ unit_clauses s) as Hlit.
  { apply iter_set_elem. rewrite Hiter. left. }
  destruct (propagate_literal_keeps cs vs units lit s Hnz Hinv Hlit)
    as (c & s1 & -> & Htrue & Hfalse).
  rewrite result_bind_Ok. destruct c.
  - intros [= <- <-]. exists lit. split; [|auto].
    by apply (prop_units _ _ _ _ Hinv).
  - destruct (Hfalse eq_refl) as [Hinv' _]. by apply IH.
Qed.

Lemma dpll_after_propagate fuel s s1 :
  propagate fuel s = Ok (false, s1) → unit_clauses s1 = ∅ →
  dpll (S fuel) s = dpll (S fuel) s1.
Proof.
  intros Hprop Hu. rewrite !dpll_S, Hprop.
  destruct fuel as [|fuel]; [done|].
  rewrite (dpll_propagate_S fuel s1), Hu.
  assert (iter_set (∅ : gset Z) = []) as ->; [|done].
  apply Permutation_nil_r. rewrite iter_set_perm. by rewrite elements_empty.
Qed.

Lemma dpll_units_verdict cs vs units fuel s b s' :
  (∀ l, l ∈ units → l ≠ 0) →
  propagating cs vs units s →
  unit_clauses s = units →
  dpll fuel s = Ok (b, s') →
  b = false ↔ ∃ l, l ∈ units ∧ - l ∈ units.
Proof.
  intros Hnz Hinv Hu. destruct fuel as [|fuel]; [done|].
  destruct (propagate fuel s) as [[conflict s1]| |] eqn:Hprop;
    [|by rewrite dpll_S, Hprop..].
  pose proof (propagate_inv _ _ _ _ _ _ _ Hnz Hinv Hprop) as Hres.
  destruct conflict.
  - rewrite dpll_S, Hprop, result_bind_Ok. by intros [= <- _].
  - destruct Hres as [Hinv1 Hu1].
    rewrite (dpll_after_propagate _ _ _ Hprop Hu1).
    intros ->%dpll_no_units_verdict; [|done]. split; [done|].
    intros (l & Hl & Hneg). exfalso.
    pose proof (prop_done _ _ _ _ Hinv1 l Hl) as H1.
    pose proof (prop_done _ _ _ _ Hinv1 (- l) Hneg) as H2.
    rewrite Hu1 in H1, H2. rewrite Z.abs_opp in H2.
    rewrite H1 in H2 by set_solver. specialize (Hnz l Hl).
    assert (Some (0 <? l) = Some (0 <? - l)) as [= Heq] by (apply H2; set_solver).
    destruct (Z.ltb_spec 0 l), (Z.ltb_spec 0 (- l)); try done; lia.
Qed.

Lemma dpll_units_run cs vs units s :
  (∀ l, l ∈ units → l ≠ 0) →
  propagating cs vs units s →
  ∃ b s', dpll (size (unit_clauses s) + size vs + 3) s = Ok (b, s').
Proof.
  intros Hnz Hinv.
  replace (size (unit_clauses s) + size vs + 3)%nat
    with (S (size (unit_clauses s) + size vs + 2)) by lia.
  destruct (propagate_run cs vs units (size (unit_clauses s) + size vs + 2) s)
    as (conflict & s1 & Hprop & _ & Hfalse); [done..|lia|].
  destruct conflict.
  { exists false, s1. by rewrite dpll_S, Hprop. }
  destruct (Hfalse eq_refl) as [Hinv1 Hu1].
  rewrite (dpll_after_propagate _ _ _ Hprop Hu1).
  destruct (dpll_no_units_run (S (size (unit_clauses s) + size vs + 2)) s1)
    as [s' Hrun]; [done| |by exists true, s'].
  assert (undecided s1 ⊆ vs) as Hsub%subseteq_size.
  { intros v [_ Hv]%elem_of_filter. by rewrite <- (prop_variables _ _ _ _ Hinv1). }
  lia.
Qed.

(** X12: the DPLL solver always returns, and its verdict is UNSAT exactly
    when the input holds two one-literal clauses [l] and [-l]; on every
    other input it answers SAT, whatever the order in which sets are
    walked. *)
Theorem dpll_verdict lines :
  (∀ fuel b s,
     solve fuel (parse_dimacs lines init) = Ok (b, s) →
     b = false ↔ ∃ l, [l] ∈ clauses (parse_dimacs lines init)
                      ∧ [- l] ∈ clauses (parse_dimacs lines init))
  ∧ ∃ fuel b s, solve fuel (parse_dimacs lines init) = Ok (b, s).
Proof.
  set (s0 := parse_dimacs lines init).
  destruct (parse_dimacs_units lines init) as [Hunit1 Hunit2];
    [by intros l ?%not_elem_of_empty | by intros l ?%elem_of_nil |].
  fold s0 in Hunit1, Hunit2.
  assert (watch_list s0 = ∅ ∧ assignment s0 = ∅) as [Hw0 Ha0].
  { unfold s0, parse_dimacs. clear.
    induction lines as [|ln lines IH] using rev_ind; [done|].
    rewrite foldl_app. simpl. destruct ln as [|toks]; [done|]. simpl.
    destruct (line_literals toks) as [|? [|? ?]]; simpl; done. }
  set (s2 := with_occurrences
               (foldl (λ m lit, <[lit := default 0 (m !! lit) + 1]> m)
                  (occurrences s0) (concat (clauses s0)))
               (with_watch_list
                  (watch_clauses 0 (clauses s0) (watch_list s0)) s0)).
  assert (∀ fuel, solve fuel s0 = dpll fuel s2) as Hsolve by done.
  assert (propagating (clauses s0) (variables s0) (unit_clauses s0) s2)
    as Hinv.
  { split; simpl; try done.
    - intros lit idx. rewrite Hw0, watch_clauses_lookup, lookup_empty.
      intros [?%elem_of_nil|(c & _ & Hc & Hlit)]; [done|].
      rewrite Nat.sub_0_r in Hc. exists c. split; [done|].
      destruct Hlit as [?|?]; by eapply list_elem_of_lookup_2.
    - intros v b. by rewrite Ha0, lookup_empty. }
  assert (∀ l, l ∈ unit_clauses s0 → l ≠ 0) as Hnz
    by (intros l ?%Hunit1; tauto).
  split.
  - intros fuel b s. rewrite Hsolve. intros Hrun.
    rewrite (dpll_units_verdict _ _ _ _ _ _ _ Hnz Hinv eq_refl Hrun).
    split; intros (l & ? & ?); exists l.
    + split; by apply Hunit1.
    + split; by apply Hunit2.
  - destruct (dpll_units_run _ _ _ _ Hnz Hinv) as (b & s & Hrun).
    eexists _, b, s. rewrite Hsolve. exact Hrun.
Qed.
End dpll_units.

(** *** DP: unit propagation *)
Section dp_unit_propagation.
Import DP.

Lemma assign_units_spec a changed lits :
  let '(a', changed') := assign_units a changed lits in
  a ⊆ a'
  ∧ (∀ v b, a' !! v = Some b →
       a !! v = Some b ∨ ∃ lit, lit ∈ lits ∧ Z.abs lit = v ∧ b = (0 <? lit))
  ∧ (changed' = true →
       changed = true
       ∨ ∃ lit, lit ∈ lits ∧ a !! Z.abs lit = None
                ∧ a' !! Z.abs lit = Some (0 <? lit))
  ∧ (changed' = false → a' = a ∧ changed = false
                        ∧ ∀ lit, lit ∈ lits → is_Some (a !! Z.abs lit)).
Proof.
  unfold assign_units. revert a changed.
  induction lits as [|lit lits IH]; intros a changed; simpl.
  { split_and!; [done|by left|by left|].
    intros ->. split_and!; [done..|]. by intros ? ?%elem_of_nil. }
  destruct (a !! Z.abs lit) as [b|] eqn:Hlook.
  - specialize (IH a changed). destruct (foldl _ _ lits) as [a' changed'].
    destruct IH as (Hsub & Hfrom & Htrue & Hfalse). split_and!; [done| | |].
    + intros v b' Hv. destruct (Hfrom v b' Hv) as [?|(l & ? & ? & ?)];
        [by left|]. right. exists l. split_and!; [by right|done..].
    + intros Hc. destruct (Htrue Hc) as [?|(l & ? & ? & ?)]; [by left|].
      right. exists l. split_and!; [by right|done..].
    + intros Hc. destruct (Hfalse Hc) as (-> & -> & Hall).
      split_and!; [done..|]. intros l [->|?]%elem_of_cons; [by eexists|auto].
  - specialize (IH (<[Z.abs lit := 0 <? lit]> a) true).
    destruct (foldl _ _ lits) as [a' changed'].
    destruct IH as (Hsub & Hfrom & Htrue & Hfalse).
    assert (a ⊆ a') as Hsub'.
    { etrans; [|exact Hsub]. by apply insert_subseteq. }
    split_and!; [done| | |].
    + intros v b' Hv. destruct (Hfrom v b' Hv) as [Hin|(l & ? & ? & ?)].
      * destruct (decide (v = Z.abs lit)) as [->|Hne].
        { rewrite lookup_insert_eq in Hin. injection Hin as <-.
          right. exists lit. split_and!; [left|done..]. }
        rewrite lookup_insert_ne in Hin by done. by left.
      * right. exists l. split_and!; [by right|done..].
    + intros _. right. exists lit. split_and!; [left|done|].
      eapply lookup_weaken; [|exact Hsub]. by rewrite lookup_insert_eq.
    + intros Hc. by destruct (Hfalse Hc) as (_ & [=] & _).
Qed.

Lemma unit_propagation_eq s :
  unit_propagation s
  = let unit_clauses :=
      omap (λ c, match c with [lit] => Some lit | _ => None end) (clauses s) in
    let '(a, changed) := assign_units (assignment s) false unit_clauses in
    if negb changed
    then (false, State (clauses s) (variables s) a (pure_lits s))
    else (true,
          State (omap (λ c, simplify a c []) (clauses s)) (variables s) a
            (pure_lits s)).
Proof. reflexivity. Qed.

Lemma elem_of_unit_literals (cs : list (list Z)) lit :
  lit ∈ omap (λ c, match c with [lit] => Some lit | _ => None end) cs
  ↔ [lit] ∈ cs.
Proof.
  rewrite list_elem_of_omap. split.
  - intros (c & Hc & Hlit). destruct c as [|l [|]]; simplify_eq/=. done.
  - intros Hc. by exists [lit].
Qed.

Lemma length_omap_le {A B} (f : A → option B) l :
  (length (omap f l) ≤ length l)%nat.
Proof.
  induction l as [|y l IH]; csimpl; [done|]. destruct (f y); simpl; lia.
Qed.

Lemma length_omap_lt {A B} (f : A → option B) l x :
  x ∈ l → f x = None → (length (omap f l) < length l)%nat.
Proof.
  intros Hx Hf.
  induction l as [|y l IH]; [by apply elem_of_nil in Hx|].
  csimpl. pose proof (length_omap_le f l) as Hle.
  apply elem_of_cons in Hx as [->|Hx].
  - rewrite Hf. lia.
  - specialize (IH Hx). destruct (f y); simpl; lia.
Qed.

Lemma simplify_acc a clause acc :
  simplify a clause acc = (acc ++.) <$> simplify a clause [].
Proof.
  revert acc. induction clause as [|lit rest IH]; intros acc; simpl.
  { by rewrite app_nil_r. }
  destruct (a !! Z.abs lit) as [b|].
  - destruct (agrees lit b); [done|]. apply IH.
  - rewrite (IH (acc ++ [lit])), (IH [lit]).
    destruct (simplify a rest []); simpl; [|done]. by rewrite <- app_assoc.
Qed.

(** What [simplify] keeps: the literals of unassigned variables, in
    order, unless a literal is true. *)
Lemma simplify_spec a clause :
  simplify a clause []
  = if existsb (λ lit, match a !! Z.abs lit with
                       | Some b => agrees lit b
                       | None => false
                       end) clause
    then None
    else Some (filter (λ lit, a !! Z.abs lit = None) clause).
Proof.
  induction clause as [|lit rest IH]; simpl; [done|].
  destruct (a !! Z.abs lit) as [b|] eqn:Hlook.
  - destruct (agrees lit b); simpl; [done|].
    rewrite IH. rewrite filter_cons_False by (by rewrite Hlook). done.
  - simpl. rewrite simplify_acc, IH.
    destruct (existsb _ rest); simpl; [done|].
    by rewrite filter_cons_True.
Qed.

Lemma agrees_own_value lit : lit ≠ 0 → agrees lit (0 <? lit) = true.
Proof.
  intros Hnz. unfold agrees.
  destruct (Z.ltb_spec 0 lit), (Z.ltb_spec lit 0); simpl; try done; lia.
Qed.

(** The part of it that bounds the loop of [solve]. *)
Lemma unit_propagation_shrinks s :
  match unit_propagation s with
  | (false, s') => s' = s
  | (true, s') =>
      variables s' = variables s
      ∧ (length (clauses s') ≤ length (clauses s))%nat
      ∧ (contradiction_found s' = true
         ∨ (length (clauses s') < length (clauses s))%nat)
  end.
Proof.
  rewrite unit_propagation_eq. cbv zeta.
  pose proof (assign_units_spec (assignment s) false
                (omap (λ c, match c with [lit] => Some lit | _ => None end)
                      (clauses s))) as Hspec.
  destruct (assign_units _ _ _) as [a changed].
  destruct Hspec as (_ & _ & Htrue & Hfalse).
  destruct changed; simpl.
  - destruct (Htrue eq_refl)
      as [?|(lit & Hlit%elem_of_unit_literals & _ & Hset)]; [done|].
    split_and!; [done|apply length_omap_le|].
    destruct (decide (lit = 0)) as [->|Hnz].
    + left. unfold contradiction_found. simpl.
      apply existsb_exists. exists []. split; [|done].
      apply list_elem_of_In, list_elem_of_omap. exists [0]. split; [done|].
      simpl. simpl in Hset. by rewrite Hset.
    + right. apply (length_omap_lt _ _ [lit]); [done|].
      simpl. by rewrite Hset, agrees_own_value.
  - destruct (Hfalse eq_refl) as (-> & _ & _). by destruct s.
Qed.

(** X13: [unit_propagation] returns [False] and changes nothing when the
    variable of every one-literal clause is assigned already; otherwise
    it returns [True], adds assignments that one-literal clauses ask
    for and no other, at least one, drops every clause with a true
    literal and cuts the literals of assigned variables out of the
    others, so that the clause list gets shorter or holds an empty
    clause. *)
Theorem unit_propagation_spec s :
  match unit_propagation s with
  | (false, s') =>
      s' = s
      ∧ ∀ lit, [lit] ∈ clauses s → is_Some (assignment s !! Z.abs lit)
  | (true, s') =>
      variables s' = variables s
      ∧ assignment s ⊆ assignment s'
      ∧ (∃ lit, [lit] ∈ clauses s ∧ assignment s !! Z.abs lit = None
                ∧ assignment s' !! Z.abs lit = Some (0 <? lit))
      ∧ (∀ v b, assignment s' !! v = Some b →
           assignment s !! v = Some b
           ∨ ∃ lit, [lit] ∈ clauses s ∧ Z.abs lit = v ∧ b = (0 <? lit))
      ∧ (∀ c', c' ∈ clauses s' ↔
           ∃ c, c ∈ clauses s
                ∧ (∀ lit b, lit ∈ c → assignment s' !! Z.abs lit = Some b →
                     agrees lit b = false)
                ∧ c' = filter (λ lit, assignment s' !! Z.abs lit = None) c)
      ∧ (length (clauses s') ≤ length (clauses s))%nat
      ∧ (contradiction_found s' = true
         ∨ (length (clauses s') < length (clauses s))%nat)
  end.
Proof.
  rewrite unit_propagation_eq. cbv zeta.
  pose proof (assign_units_spec (assignment s) false
                (omap (λ c, match c with [lit] => Some lit | _ => None end)
                      (clauses s))) as Hspec.
  destruct (assign_units _ _ _) as [a changed].
  destruct Hspec as (Hsub & Hfrom & Htrue & Hfalse).
  destruct changed; simpl.
  - destruct (Htrue eq_refl) as [?|(lit & Hlit%elem_of_unit_literals & Hnone & Hset)];
      [done|].
    split_and!; [done|done| | | |apply length_omap_le|].
    + by exists lit.
    + intros v b Hv. destruct (Hfrom v b Hv) as [?|(l & Hl%elem_of_unit_literals & ? & ?)];
        [by left|]. right. by exists l.
    + intros c'. rewrite list_elem_of_omap. split.
      * intros (c & Hc & Hsimp). rewrite simplify_spec in Hsimp.
        destruct (existsb _ c) eqn:Hex; [done|]. injection Hsimp as <-.
        exists c. split_and!; [done| |done].
        intros l b Hl Hb.
        destruct (agrees l b) eqn:Hag; [|done].
        assert (existsb (λ lit, match a !! Z.abs lit with
                                | Some b => agrees lit b
                                | None => false
                                end) c = true); [|congruence].
        apply existsb_exists. exists l. rewrite <- list_elem_of_In.
        split; [done|]. by rewrite Hb.
      * intros (c & Hc & Hfalse' & ->). exists c. split; [done|].
        rewrite simplify_spec.
        destruct (existsb _ c) eqn:Hex; [|done].
        apply existsb_exists in Hex as (l & Hl%list_elem_of_In & Hag).
        destruct (a !! Z.abs l) as [b|] eqn:Hb; [|done].
        by rewrite (Hfalse' l b Hl Hb) in Hag.
    + destruct (decide (lit = 0)) as [->|Hnz].
      * left. unfold contradiction_found. simpl.
        apply existsb_exists. exists []. split; [|done].
        apply list_elem_of_In, list_elem_of_omap. exists [0]. split; [done|].
        simpl. simpl in Hset. by rewrite Hset.
      * right. apply (length_omap_lt _ _ [lit]); [done|].
        simpl. by rewrite Hset, agrees_own_value.
  - destruct (Hfalse eq_refl) as (-> & _ & Hall).
    split; [by destruct s|]. intros lit Hlit%elem_of_unit_literals. auto.
Qed.

End dp_unit_propagation.

(** *** DP: variable elimination *)
Section dp_elimination.
Import DP.
Context `{SetIteration}.

Lemma resolvent_fold var acc lits :
  let r := foldl (λ r lit,
                    if bool_decide (Z.abs lit ≠ var) && bool_decide (lit ∉ r)
                    then r ++ [lit] else r) acc lits in
  (NoDup acc → NoDup r)
  ∧ ∀ l, l ∈ r ↔ l ∈ acc ∨ (l ∈ lits ∧ Z.abs l ≠ var).
Proof.
  revert acc. induction lits as [|lit lits IH]; intros acc; simpl.
  { split; [done|]. intros l. rewrite elem_of_nil. naive_solver. }
  destruct (IH (if bool_decide (Z.abs lit ≠ var) && bool_decide (lit ∉ acc)
                then acc ++ [lit] else acc)) as [Hnd Hin].
  split.
  - intros Hacc. apply Hnd.
    case_bool_decide as Hv; simpl; [|done].
    case_bool_decide as Hl; simpl; [|done].
    apply NoDup_app. split_and!; [done| |apply NoDup_singleton].
    intros x Hx ->%list_elem_of_singleton. done.
  - intros l. rewrite Hin, elem_of_cons.
    case_bool_decide as Hv; simpl.
    + case_bool_decide as Hl; simpl.
      * rewrite elem_of_app, list_elem_of_singleton. naive_solver.
      * naive_solver.
    + naive_solver.
Qed.

Lemma elem_of_sorted l x : x ∈ sorted l ↔ x ∈ l.
Proof. unfold sorted. by rewrite merge_sort_Permutation. Qed.

Lemma dedup_fold {A} `{EqDecision A} (acc rs : list A) (r : A) :
  r ∈ foldl (λ new r, if bool_decide (r ∈ new) then new else new ++ [r])
            acc rs
  ↔ r ∈ acc ∨ r ∈ rs.
Proof.
  revert acc. induction rs as [|x rs IH]; intros acc; simpl.
  { rewrite elem_of_nil. naive_solver. }
  rewrite IH, elem_of_cons. case_bool_decide.
  - naive_solver.
  - rewrite elem_of_app, list_elem_of_singleton. naive_solver.
Qed.

Lemma variable_elimination_effect var s :
  match apply_variable_elimination var s with
  | Ok s' =>
      var ∈ variables s
      ∧ variables s' = variables s ∖ {[var]}
      ∧ assignment s' = assignment s
      ∧ ∀ c', c' ∈ clauses s' ↔
          (c' ∈ clauses s ∧ (var ∉ c') ∧ ((- var) ∉ c'))
          ∨ ∃ pc nc, pc ∈ clauses s ∧ var ∈ pc ∧ nc ∈ clauses s ∧ - var ∈ nc
              ∧ c' = sorted (resolvent var pc nc)
              ∧ Sorted Z.le c' ∧ NoDup c'
              ∧ ∀ l, l ∈ c' ↔ (l ∈ pc ∨ l ∈ nc) ∧ Z.abs l ≠ var
  | Raise e => e = KeyError ∧ var ∉ variables s
  | OutOfFuel => False
  end.
Proof.
  unfold apply_variable_elimination.
  case_bool_decide as Hin; [|done].
  split_and!; try done. intros c'. simpl.
  rewrite elem_of_app, dedup_fold, elem_of_nil, list_elem_of_filter.
  rewrite list_elem_of_bind.
  assert (∀ pc nc,
            Sorted Z.le (sorted (resolvent var pc nc))
            ∧ NoDup (sorted (resolvent var pc nc))
            ∧ ∀ l, l ∈ sorted (resolvent var pc nc)
                   ↔ (l ∈ pc ∨ l ∈ nc) ∧ Z.abs l ≠ var) as Hres.
  { intros pc nc. destruct (resolvent_fold var [] (pc ++ nc)) as [Hnd Hl].
    split_and!.
    - unfold sorted. apply (Sorted_merge_sort Z.le).
    - unfold sorted. rewrite merge_sort_Permutation.
      apply Hnd, NoDup_nil_2.
    - intros l. rewrite elem_of_sorted. unfold resolvent.
      rewrite Hl, elem_of_nil, elem_of_app. naive_solver. }
  split.
  - intros [[[]|(pc & Hc & [Hpv Hpc]%list_elem_of_filter)]|[[? ?] ?]].
    + apply list_elem_of_bind in Hc as (nc & Hc & [Hnv Hnc]%list_elem_of_filter).
      apply list_elem_of_singleton in Hc as ->.
      right. exists pc, nc. destruct (Hres pc nc) as (? & ? & ?).
      by split_and!.
    + left. by split_and!.
  - intros [(? & ? & ?)|(pc & nc & Hpc & Hpv & Hnc & Hnv & -> & _)].
    + right. by split_and!.
    + left. right. exists pc. split; [|by apply list_elem_of_filter].
      apply list_elem_of_bind. exists nc.
      split; [by apply list_elem_of_singleton|by apply list_elem_of_filter].
Qed.

Lemma variable_elimination_removes var s s' c l :
  0 ≤ var → apply_variable_elimination var s = Ok s' →
  c ∈ clauses s' → l ∈ c → Z.abs l ≠ var.
Proof.
  intros Hvar Hrun Hc Hl.
  pose proof (variable_elimination_effect var s) as Hspec.
  rewrite Hrun in Hspec. destruct Hspec as (_ & _ & _ & Hcs).
  apply Hcs in Hc as [(Hc & Hpos & Hneg)|(pc & nc & _ & _ & _ & _ & _ & _ & _ & Hin)].
  - intros Habs. destruct (Z.abs_eq_or_opp l) as [Heq|Heq]; rewrite Habs in Heq.
    + by subst l.
    + assert (- var = l) as <- by lia. done.
  - by apply Hin in Hl as [_ ?].
Qed.
(** X15: eliminating a variable that is not in [variables] raises
    KeyError; otherwise the variable leaves [variables], the assignment
    stays, and the new clause list holds the clauses without the
    variable and, for every clause with [var] and every clause with
    [-var], their resolvent: sorted, without repetition, made of the
    literals of the two clauses that are not of the variable.  For a
    variable that is not negative, no literal of it is left. *)
Theorem variable_elimination_spec var s :
  match apply_variable_elimination var s with
  | Ok s' =>
      var ∈ variables s
      ∧ variables s' = variables s ∖ {[var]}
      ∧ assignment s' = assignment s
      ∧ (∀ c', c' ∈ clauses s' ↔
           (c' ∈ clauses s ∧ (var ∉ c') ∧ ((- var) ∉ c'))
           ∨ ∃ pc nc, pc ∈ clauses s ∧ var ∈ pc ∧ nc ∈ clauses s ∧ - var ∈ nc
               ∧ c' = sorted (resolvent var pc nc)
               ∧ Sorted Z.le c' ∧ NoDup c'
               ∧ ∀ l, l ∈ c' ↔ (l ∈ pc ∨ l ∈ nc) ∧ Z.abs l ≠ var)
      ∧ (0 ≤ var → ∀ c l, c ∈ clauses s' → l ∈ c → Z.abs l ≠ var)
  | Raise e => e = KeyError ∧ var ∉ variables s
  | OutOfFuel => False
  end.
Proof.
  pose proof (variable_elimination_effect var s) as Heff.
  pose proof (variable_elimination_removes var s) as Hrem.
  destruct (apply_variable_elimination var s) as [s'| |]; [|done..].
  destruct Heff as (? & ? & ? & ?). split_and!; try done.
  intros Hvar c l. by apply Hrem.
Qed.

End dp_elimination.

(** *** DP: pure literals *)
Section dp_pure.
Import DP.
Context `{SetIteration}.

Lemma length_filter_lt {A} (P : A → Prop) `{∀ x, Decision (P x)} l x :
  x ∈ l → ¬ P x → (length (filter P l) < length l)%nat.
Proof.
  intros Hx Hp. induction l as [|y l IH]; [by apply elem_of_nil in Hx|].
  rewrite filter_cons. pose proof (length_filter P l).
  apply elem_of_cons in Hx as [->|Hx].
  - rewrite decide_False by done. simpl. lia.
  - specialize (IH Hx). destruct (decide (P y)); simpl; lia.
Qed.

Lemma elem_of_find_pure_literals s lit :
  lit ∈ pure_lits (find_pure_literals s)
  ↔ (∃ c, c ∈ clauses s ∧ lit ∈ c) ∧ ¬ ∃ c, c ∈ clauses s ∧ - lit ∈ c.
Proof.
  unfold find_pure_literals. simpl.
  rewrite elem_of_filter, !elem_of_list_to_set.
  assert (∀ l, l ∈ concat (clauses s) ↔ ∃ c, c ∈ clauses s ∧ l ∈ c) as Hcat.
  { intros l. rewrite list_elem_of_In, in_concat.
    split; intros (c & ? & ?); exists c; by rewrite ?list_elem_of_In in *. }
  rewrite !Hcat. tauto.
Qed.

Lemma apply_pure_fold (lits : list Z) (a : gmap Z bool) (vs : gset Z) :
  let '(a', vs') :=
    foldl (λ '(a, vs) lit,
             (<[Z.abs lit := 0 <? lit]> a, vs ∖ {[Z.abs lit]}))
          (a, vs) lits : gmap Z bool * gset Z in
  vs' = vs ∖ list_to_set (Z.abs <$> lits)
  ∧ (∀ v, v ∉ Z.abs <$> lits → a' !! v = a !! v)
  ∧ ∀ lit, lit ∈ lits → (∀ l, l ∈ lits → Z.abs l = Z.abs lit → l = lit) →
      a' !! Z.abs lit = Some (0 <? lit).
Proof.
  revert a vs. induction lits as [|x lits IH]; intros a vs; simpl.
  { split_and!; [set_solver|done|by intros ? ?%elem_of_nil]. }
  specialize (IH (<[Z.abs x := 0 <? x]> a) (vs ∖ {[Z.abs x]})).
  destruct (foldl _ _ lits) as [a' vs'].
  destruct IH as (-> & Hout & Hin). split_and!.
  - set_solver.
  - intros v Hv. rewrite Hout by set_solver.
    rewrite lookup_insert_ne; [done|]. set_solver.
  - intros lit Hlit Huniq.
    destruct (decide (lit ∈ lits)) as [Hl|Hl].
    + apply Hin; [done|]. intros l ? ?. apply Huniq; [by right|done].
    + apply elem_of_cons in Hlit as [->|?]; [|done].
      rewrite Hout; [by rewrite lookup_insert_eq|].
      intros (l & Habs & Hl')%list_elem_of_fmap.
      apply Hl. rewrite <- (Huniq l); [done|by right|done].
Qed.

(** The part of it that bounds the loop of [solve]. *)
Lemma apply_pure_literals_shrinks s :
  let s' := apply_pure_literals (find_pure_literals s) in
  variables s' ⊆ variables s
  ∧ (pure_lits (find_pure_literals s) ≠ ∅ →
     (length (clauses s') < length (clauses s))%nat).
Proof.
  intros s'. unfold s', apply_pure_literals.
  set (P := pure_lits (find_pure_literals s)).
  pose proof (apply_pure_fold (iter_set P) (assignment (find_pure_literals s))
                (variables (find_pure_literals s))) as Hfold.
  destruct (foldl _ _ (iter_set P)) as [a vs].
  destruct Hfold as (Hvs & _ & _). simpl in *. split.
  - rewrite Hvs. set_solver.
  - intros Hne. apply set_choose_L in Hne as [lit Hlit].
    pose proof Hlit as [[c [Hc Hl]] _]%elem_of_find_pure_literals.
    apply (length_filter_lt _ _ c Hc). rewrite Forall_forall. intros Hall.
    apply (Hall lit Hl). apply elem_of_map. by exists lit.
Qed.

(** X14: a literal is pure when it occurs in a clause and its negation
    in none.  Applying the pure literals drops exactly the clauses with
    a literal of a pure variable, gives each pure literal's variable the
    value of the literal and takes it out of [variables], and empties
    [pure_lits]; when there is a pure literal the clause list gets
    shorter. *)
Theorem pure_literal_elimination_spec s :
  let s' := apply_pure_literals (find_pure_literals s) in
  (∀ lit, lit ∈ pure_lits (find_pure_literals s)
          ↔ (∃ c, c ∈ clauses s ∧ lit ∈ c)
            ∧ ¬ ∃ c, c ∈ clauses s ∧ (- lit) ∈ c)
  ∧ (∀ c, c ∈ clauses s' ↔
       c ∈ clauses s
       ∧ ∀ l, l ∈ c → ¬ ∃ lit, lit ∈ pure_lits (find_pure_literals s)
                               ∧ Z.abs lit = Z.abs l)
  ∧ (∀ lit, lit ∈ pure_lits (find_pure_literals s) →
       assignment s' !! Z.abs lit = Some (0 <? lit)
       ∧ Z.abs lit ∉ variables s')
  ∧ variables s' ⊆ variables s
  ∧ pure_lits s' = ∅
  ∧ (pure_lits (find_pure_literals s) ≠ ∅ →
     (length (clauses s') < length (clauses s))%nat).
Proof.
  intros s'. split; [apply elem_of_find_pure_literals|].
  unfold s', apply_pure_literals.
  set (P := pure_lits (find_pure_literals s)).
  pose proof (apply_pure_fold (iter_set P) (assignment (find_pure_literals s))
                (variables (find_pure_literals s))) as Hfold.
  destruct (foldl _ _ (iter_set P)) as [a vs].
  destruct Hfold as (Hvs & Hout & Hin). simpl in *.
  assert (∀ c, c ∈ filter (λ clause,
                             Forall (λ lit, Z.abs lit ∉ (set_map Z.abs P : gset Z))
                                    clause) (clauses s)
               ↔ c ∈ clauses s
                 ∧ ∀ l, l ∈ c → ¬ ∃ lit, lit ∈ P ∧ Z.abs lit = Z.abs l) as Hcs.
  { intros c. rewrite list_elem_of_filter, Forall_forall.
    setoid_rewrite elem_of_map. naive_solver. }
  split_and!.
  - done.
  - intros lit Hlit. split.
    + apply Hin; [by apply iter_set_elem|].
      intros l Hl%iter_set_elem Habs.
      destruct (Z.abs_eq_or_opp l) as [Hl'|Hl'],
               (Z.abs_eq_or_opp lit) as [Hlit'|Hlit']; try lia.
      * assert (l = - lit) as -> by lia.
        apply elem_of_find_pure_literals in Hlit as [[c Hc] Hno].
        apply elem_of_find_pure_literals in Hl as [Hyes _]. by destruct Hno.
      * assert (l = - lit) as -> by lia.
        apply elem_of_find_pure_literals in Hlit as [[c Hc] Hno].
        apply elem_of_find_pure_literals in Hl as [Hyes _]. by destruct Hno.
    + rewrite Hvs. apply not_elem_of_difference. right.
      apply elem_of_list_to_set, list_elem_of_fmap. exists lit.
      split; [done|]. by apply iter_set_elem.
  - rewrite Hvs. set_solver.
  - done.
  - intros Hne. apply set_choose_L in Hne as [lit Hlit].
    pose proof Hlit as [[c [Hc Hl]] _]%elem_of_find_pure_literals.
    apply (length_filter_lt _ _ c Hc). rewrite Forall_forall. intros Hall.
    apply (Hall lit Hl). apply elem_of_map. by exists lit.
Qed.

End dp_pure.

(** *** DP: the solver always returns *)
Section dp_total.
Import DP.
Context `{SetIteration}.

Lemma dp_propagate_S fuel s :
  propagate (S fuel) s
  = let '(changed, s1) := unit_propagation s in
    if contradiction_found s1 then Ok (true, s1)
    else if changed then propagate fuel s1
    else Ok (false, s1).
Proof. reflexivity. Qed.

Lemma dp_solve_S fuel s :
  solve (S fuel) s
  = propagate fuel s ≫= λ '(contradiction, s1),
      if (contradiction : bool) then Ok (false, s1)
      else
        let s2 := find_pure_literals s1 in
        if bool_decide (pure_lits s2 ≠ ∅)
        then solve fuel (apply_pure_literals s2)
        else if bool_decide (variables s2 = ∅) then Ok (true, s2)
        else
          select_variable s2 ≫= λ var,
          apply_variable_elimination var s2 ≫= λ s3,
          solve fuel s3.
Proof. reflexivity. Qed.

Lemma contradiction_found_spec s :
  contradiction_found s = true ↔ [] ∈ clauses s.
Proof.
  unfold contradiction_found. rewrite existsb_exists. split.
  - intros (c & Hc%list_elem_of_In & ->%bool_decide_eq_true). done.
  - intros Hc. exists []. by rewrite <- list_elem_of_In.
Qed.

Lemma dp_propagate_run fuel s :
  (length (clauses s) < fuel)%nat →
  ∃ s', propagate fuel s = Ok (contradiction_found s', s')
        ∧ variables s' = variables s
        ∧ (length (clauses s') ≤ length (clauses s))%nat.
Proof.
  revert s. induction fuel as [|fuel IH]; intros s Hlen; [lia|].
  rewrite dp_propagate_S.
  pose proof (unit_propagation_shrinks s) as Heff.
  destruct (unit_propagation s) as [changed s1].
  destruct (contradiction_found s1) eqn:Hcontra.
  - exists s1. rewrite Hcontra. split; [done|].
    destruct changed.
    + by destruct Heff as (Hvs & Hle & _).
    + by subst s1.
  - destruct changed.
    + destruct Heff as (Hvs & _ & [Hc|Hlt]); [congruence|].
      destruct (IH s1) as (s' & Hrun & Hvs' & Hlen'); [lia|].
      exists s'. split_and!; [done|congruence|lia].
    + subst s1. exists s. by rewrite Hcontra.
Qed.

Lemma dp_propagate_mono fuel fuel' s r :
  propagate fuel s = Ok r → (fuel ≤ fuel')%nat → propagate fuel' s = Ok r.
Proof.
  revert fuel' s. induction fuel as [|fuel IH]; intros fuel' s; [done|].
  destruct fuel' as [|fuel']; [lia|]. rewrite !dp_propagate_S.
  destruct (unit_propagation s) as [changed s1].
  destruct (contradiction_found s1); [done|].
  destruct changed; [|done]. intros Hrun Hle. apply IH; [done|lia].
Qed.

Lemma dp_select_variable s :
  variables s ≠ ∅ → ∃ var, select_variable s = Ok var ∧ var ∈ variables s.
Proof.
  intros Hne. unfold select_variable.
  destruct (iter_set (variables s)) as [|var rest] eqn:Hiter.
  - exfalso. apply Hne. apply set_eq. intros x.
    rewrite <- iter_set_elem, Hiter. set_solver.
  - exists var. split; [done|]. apply iter_set_elem. rewrite Hiter. left.
Qed.

Lemma dp_solve_run n :
  ∀ m s, (size (variables s) < n)%nat → (length (clauses s) < m)%nat →
    ∃ N, ∀ fuel, (N ≤ fuel)%nat →
      ∃ b s', solve fuel s = Ok (b, s') ∧ solved b s'.
Proof.
  induction n as [|n IHn]; [intros; lia|].
  induction m as [|m IHm]; intros s Hvars Hlen; [lia|].
  destruct (dp_propagate_run (S (length (clauses s))) s)
    as (s1 & Hrun0 & Hvs1 & Hlen1); [lia|].
  assert (∀ fuel, (length (clauses s) < fuel)%nat →
                  propagate fuel s = Ok (contradiction_found s1, s1)) as Hprop.
  { intros fuel Hfuel. eapply dp_propagate_mono; [exact Hrun0|lia]. }
  destruct (contradiction_found s1) eqn:Hcontra.
  { exists (S (S (length (clauses s)))). intros [|fuel] Hfuel; [lia|].
    rewrite dp_solve_S, Hprop by lia. rewrite result_bind_Ok.
    exists false, s1. split; [done|]. by apply contradiction_found_spec. }
  pose proof (apply_pure_literals_shrinks s1) as [Hvs3 Hlen3].
  destruct (decide (pure_lits (find_pure_literals s1) ≠ ∅)) as [Hpure|Hpure].
  { destruct (IHm (apply_pure_literals (find_pure_literals s1))) as [N HN].
    - apply subseteq_size in Hvs3. rewrite Hvs1 in Hvs3. lia.
    - specialize (Hlen3 Hpure). lia.
    - exists (S (N + S (length (clauses s)))). intros [|fuel] Hfuel; [lia|].
      rewrite dp_solve_S, Hprop by lia. rewrite result_bind_Ok. cbv zeta.
      rewrite bool_decide_eq_true_2 by done. apply HN. lia. }
  destruct (decide (variables s1 = ∅)) as [Hvs|Hvs].
  { exists (S (S (length (clauses s)))). intros [|fuel] Hfuel; [lia|].
    rewrite dp_solve_S, Hprop by lia. rewrite result_bind_Ok. cbv zeta.
    rewrite bool_decide_eq_false_2 by done.
    rewrite bool_decide_eq_true_2 by done.
    exists true, (find_pure_literals s1). split; [done|]. split; [done|].
    simpl. intros Hc%contradiction_found_spec. congruence. }
  destruct (dp_select_variable (find_pure_literals s1)) as (var & Hsel & Hvar);
    [done|].
  pose proof (variable_elimination_effect var (find_pure_literals s1)) as Helim.
  destruct (apply_variable_elimination var (find_pure_literals s1))
    as [s3| |] eqn:Hrun; [|destruct Helim as [_ []]; exact Hvar|done].
  destruct Helim as (_ & Hvs3' & _).
  destruct (IHn (S (length (clauses s3))) s3) as [N HN]; [|lia|].
  { rewrite Hvs3'. simpl in *. rewrite size_difference by set_solver.
    rewrite size_singleton. rewrite Hvs1.
    assert (size (variables s) ≠ 0%nat); [|lia].
    rewrite <- Hvs1. intros Hz%size_empty_inv. set_solver. }
  exists (S (N + S (length (clauses s)))). intros [|fuel] Hfuel; [lia|].
  rewrite dp_solve_S, Hprop by lia. rewrite result_bind_Ok. cbv zeta.
  rewrite bool_decide_eq_false_2 by done.
  rewrite bool_decide_eq_false_2 by done.
  rewrite Hsel, result_bind_Ok, Hrun, result_bind_Ok. apply HN. lia.
Qed.

(** X16: from every state the DP solver returns a verdict: no exception
    is raised and both loops end.  It answers UNSAT with an empty clause
    in its clause list, and SAT with no variable left to eliminate and
    no empty clause. *)
Theorem dp_solve_total s :
  ∃ fuel b s', solve fuel s = Ok (b, s') ∧ solved b s'.
Proof.
  destruct (dp_solve_run (S (size (variables s))) (S (length (clauses s))) s)
    as [N HN]; [lia..|].
  exists N. apply HN. lia.
Qed.
End dp_total.

(** *** Resolution: the verdict against the meaning of the clauses *)
Section resolution_semantics.
Import Resolution.

Lemma lit_holds_negate v l : lit_holds v (negate l) = negb (lit_holds v l).
Proof. unfold lit_holds, negate. simpl. by destruct (v (name l)), (negated l). Qed.

Lemma resolve_sound v c1 c2 r :
  satisfies v c1 → satisfies v c2 → r ∈ resolve c1 c2 → satisfies v r.
Proof.
  intros (l & Hl & Hv) (l' & Hl' & Hv').
  intros (l1 & l2 & H1 & H2 & ->%clash_spec & -> & _)%elem_of_resolve.
  destruct (decide (l = l1)) as [->|Hne].
  - exists l'. split; [|done]. apply elem_of_union_r, elem_of_difference.
    split; [done|]. intros ->%elem_of_singleton.
    rewrite lit_holds_negate, Hv in Hv'. done.
  - exists l. split; [|done]. apply elem_of_union_l. set_solver.
Qed.

Lemma produced_sound v X :
  (∀ c, c ∈ X → satisfies v c) → ∀ r, r ∈ produced X → satisfies v r.
Proof.
  intros HX r (c1 & c2 & H1 & H2 & _ & Hr)%elem_of_produced.
  eapply (resolve_sound v c1 c2); [by apply HX | by apply HX | done].
Qed.

Lemma satisfies_empty v : ¬ satisfies v ∅.
Proof. intros (l & Hl & _). set_solver. Qed.

Lemma resolution_loop_sound fuel X v :
  resolution_loop fuel X = Ok false → ¬ ∀ c, c ∈ X → satisfies v c.
Proof.
  revert X. induction fuel as [|fuel IH]; intros X; [done|].
  rewrite resolution_loop_S. case_bool_decide as Hbot.
  { intros _ HX. eapply satisfies_empty, produced_sound; eauto. }
  case_bool_decide; [done|]. intros Hrun HX. apply (IH _ Hrun).
  intros c [Hc|Hc]%elem_of_union; [by apply HX|].
  by eapply produced_sound.
Qed.

Lemma falsified_empty_map c : falsified ∅ c → c = ∅.
Proof.
  intros Hf. apply leibniz_equiv. intros l. split; [|set_solver].
  intros Hl. specialize (Hf l Hl). simpl in Hf. by rewrite lookup_empty in Hf.
Qed.

Lemma not_falsified σ c :
  ¬ falsified σ c → ∃ l, l ∈ c ∧ σ !! name l ≠ Some (negated l).
Proof.
  intros Hn. apply not_set_Forall_Exists in Hn; [|apply _].
  destruct Hn as (l & Hl & Hne). by exists l.
Qed.

(** A saturated set of clauses that are not tautologies and not empty:
    a valuation that falsifies none of them extends to one more name. *)
Lemma extend_valuation (S : gset Clause) σ n :
  (∀ c, c ∈ S → is_tautology c = false) →
  produced S ⊆ S →
  (∀ c, c ∈ S → ¬ falsified σ c) →
  ∃ b, ∀ c, c ∈ S → ¬ falsified (<[n := b]> σ) c.
Proof.
  intros Htaut Hsat HP.
  destruct (decide (set_Forall (λ c, ¬ falsified (<[n := true]> σ) c) S))
    as [Ht|Ht]; [by exists true|].
  destruct (decide (set_Forall (λ c, ¬ falsified (<[n := false]> σ) c) S))
    as [Hf|Hf]; [by exists false|].
  exfalso.
  apply not_set_Forall_Exists in Ht as (c1 & Hc1 & Hf1); [|apply _].
  apply not_set_Forall_Exists in Hf as (c2 & Hc2 & Hf2); [|apply _].
  apply dec_stable in Hf1. apply dec_stable in Hf2.
  assert (∀ b c l, falsified (<[n := b]> σ) c → l ∈ c → l ≠ Lit n b →
                   σ !! name l = Some (negated l)) as Hother.
  { intros b c l Hc Hl Hne. specialize (Hc l Hl). simpl in Hc.
    destruct (decide (name l = n)) as [<-|Hnn].
    - rewrite lookup_insert_eq in Hc. destruct l as [m neg]; simpl in *.
      congruence.
    - by rewrite lookup_insert_ne in Hc. }
  assert (∀ b c, c ∈ S → falsified (<[n := b]> σ) c → Lit n b ∈ c) as Hin.
  { intros b c Hc Hfc. destruct (decide (Lit n b ∈ c)) as [|Hout]; [done|].
    exfalso. apply (HP c Hc). intros l Hl. apply (Hother b c l); [done..|].
    intros ->. done. }
  pose proof (Hin _ _ Hc1 Hf1) as Hl1. pose proof (Hin _ _ Hc2 Hf2) as Hl2.
  set (r := (c1 ∖ {[Lit n true]}) ∪ (c2 ∖ {[Lit n false]})).
  assert (falsified σ r) as Hr.
  { intros l [[Hl Hne]%elem_of_difference|[Hl Hne]%elem_of_difference]%elem_of_union.
    - apply (Hother true c1 l); [done..|]. set_solver.
    - apply (Hother false c2 l); [done..|]. set_solver. }
  assert (is_tautology r = false) as Hrt.
  { destruct (is_tautology r) eqn:Ht; [|done].
    apply is_tautology_spec in Ht as (l & Ha & Hb).
    apply Hr in Ha, Hb. simpl in Hb. rewrite Ha in Hb.
    by destruct (negated l). }
  assert (c1 ≠ c2) as Hne.
  { intros ->. specialize (Htaut c2 Hc2).
    assert (is_tautology c2 = true); [|congruence].
    apply is_tautology_spec. by exists (Lit n true). }
  apply (HP r); [|done]. apply Hsat, elem_of_produced.
  exists c1, c2. split_and!; try done. apply elem_of_resolve.
  exists (Lit n true), (Lit n false). split_and!; try done.
  by apply clash_spec.
Qed.

Lemma extend_valuation_list (S : gset Clause) (ns : list string) σ :
  (∀ c, c ∈ S → is_tautology c = false) →
  produced S ⊆ S →
  (∀ c, c ∈ S → ¬ falsified σ c) →
  ∃ σ', σ ⊆ σ' ∧ (∀ n, n ∈ ns → is_Some (σ' !! n))
        ∧ ∀ c, c ∈ S → ¬ falsified σ' c.
Proof.
  intros Htaut Hsat. revert σ. induction ns as [|n ns IH]; intros σ HP.
  { exists σ. split_and!; [done|by intros ? ?%elem_of_nil|done]. }
  assert (∃ σ1, is_Some (σ1 !! n) ∧ σ ⊆ σ1
                ∧ ∀ c, c ∈ S → ¬ falsified σ1 c) as (σ1 & Hn & Hsub & HP1).
  { destruct (σ !! n) eqn:Hlook; [by exists σ|].
    destruct (extend_valuation S σ n) as [b Hb]; try done.
    exists (<[n := b]> σ). split_and!; [|by apply insert_subseteq|done].
    by rewrite lookup_insert_eq. }
  destruct (IH σ1 HP1) as (σ' & Hsub' & Hns & HP').
  exists σ'. split_and!; [by etrans| |done].
  intros m [->|Hm]%elem_of_cons; [|by apply Hns].
  destruct Hn as [b Hb]. exists b. by eapply lookup_weaken.
Qed.

(** A saturated set without tautologies and without the empty clause has
    a model. *)
Lemma saturated_model (S : gset Clause) :
  (∀ c, c ∈ S → is_tautology c = false) →
  produced S ⊆ S → ∅ ∉ S →
  ∃ v, ∀ c, c ∈ S → satisfies v c.
Proof.
  intros Htaut Hsat Hbot.
  destruct (extend_valuation_list S (name <$> elements (⋃ elements S)) ∅)
    as (σ & _ & Hdom & HP); try done.
  { intros c Hc ->%falsified_empty_map. done. }
  exists (λ n, default false (σ !! n)). intros c Hc.
  destruct (not_falsified σ c (HP c Hc)) as (l & Hl & Hne).
  exists l. split; [done|]. unfold lit_holds.
  destruct (Hdom (name l)) as [b Hb].
  { apply list_elem_of_fmap. exists l. split; [done|].
    apply elem_of_elements, elem_of_union_list. exists c.
    by rewrite elem_of_elements. }
  rewrite Hb in Hne |- *. simpl. destruct b, (negated l); done.
Qed.

Lemma resolution_loop_complete fuel X :
  (∀ c, c ∈ X → is_tautology c = false) → ∅ ∉ X →
  resolution_loop fuel X = Ok true →
  ∃ v, ∀ c, c ∈ X → satisfies v c.
Proof.
  revert X. induction fuel as [|fuel IH]; intros X Htaut Hbot; [done|].
  rewrite resolution_loop_S. case_bool_decide as Hp; [done|].
  case_bool_decide as Hsub.
  { intros _. by apply saturated_model. }
  intros Hrun. destruct (IH (X ∪ produced X)) as [v Hv]; try done.
  - intros c [Hc|Hc]%elem_of_union; [by apply Htaut|].
    apply elem_of_produced in Hc as (c1 & c2 & _ & _ & _ & Hr).
    by apply elem_of_resolve in Hr as (? & ? & _ & _ & _ & _ & ?).
  - set_solver.
  - exists v. intros c Hc. apply Hv. set_solver.
Qed.

Lemma satisfies_tautology v c : is_tautology c = true → satisfies v c.
Proof.
  intros (l & H1 & H2)%is_tautology_spec.
  destruct (lit_holds v l) eqn:Hl; [by exists l|].
  exists (negate l). split; [done|]. by rewrite lit_holds_negate, Hl.
Qed.

Lemma resolution_solver_total (clauses : list Clause) :
  ∃ fuel b, resolution_solver fuel clauses = Ok b.
Proof.
  destruct (resolution_loop_total (⋃ elements (seed clauses))
              (S (size (subsets (elements (⋃ elements (seed clauses)))
                        ∖ seed clauses)))
              (seed clauses)) as [b Hb]; [|lia|by eexists _, b].
  intros c Hc. apply elem_of_elements in Hc.
  intros x Hx. apply elem_of_union_list. eauto.
Qed.

Lemma resolution_solver_sound fuel (clauses : list Clause) v :
  resolution_solver fuel clauses = Ok false → ¬ models v clauses.
Proof.
  intros Hrun Hv. apply (resolution_loop_sound _ _ v Hrun).
  intros c [_ Hc]%elem_of_list_to_set%list_elem_of_filter. by apply Hv.
Qed.

Lemma resolution_solver_complete fuel (clauses : list Clause) :
  ∅ ∉ clauses →
  resolution_solver fuel clauses = Ok true → ∃ v, models v clauses.
Proof.
  intros Hbot Hrun. apply resolution_loop_complete in Hrun as [v Hv].
  - exists v. intros c Hc.
    destruct (is_tautology c) eqn:Ht; [by apply satisfies_tautology|].
    apply Hv, elem_of_list_to_set, list_elem_of_filter. done.
  - by intros c [Ht _]%elem_of_list_to_set%list_elem_of_filter.
  - intros [_ Hc]%elem_of_list_to_set%list_elem_of_filter. done.
Qed.

(** X17: every clause [resolve] returns is not a tautology, is the union
    of the two clauses without a literal of the first and its negation
    in the second, and holds under every valuation under which the two
    clauses hold. *)
Theorem resolvent_implied (c1 c2 r : Clause) :
  r ∈ resolve c1 c2 →
  is_tautology r = false
  ∧ (∃ l, l ∈ c1 ∧ negate l ∈ c2
          ∧ r = (c1 ∖ {[l]}) ∪ (c2 ∖ {[negate l]}))
  ∧ ∀ v, satisfies v c1 → satisfies v c2 → satisfies v r.
Proof.
  intros Hr. split_and!.
  - by apply elem_of_resolve in Hr as (? & ? & _ & _ & _ & _ & ?).
  - apply elem_of_resolve in Hr as (l1 & l2 & ? & ? & ->%clash_spec & -> & _).
    by exists l1.
  - intros v H1 H2. by apply (resolve_sound v c1 c2).
Qed.

(** X18: when the resolution solver answers UNSAT, no valuation makes
    every input clause true. *)
Theorem resolution_unsat_sound (clauses : list Clause) fuel :
  resolution_solver fuel clauses = Ok false →
  ¬ ∃ v, models v clauses.
Proof.
  intros Hrun [v Hv]. unfold resolution_solver in Hrun.
  apply (resolution_loop_sound _ _ v Hrun).
  intros c [_ Hc]%elem_of_list_to_set%list_elem_of_filter. by apply Hv.
Qed.

(** X19: on an input without the empty clause the resolution solver
    decides satisfiability: it answers SAT exactly when some valuation
    makes every input clause true, and UNSAT exactly when none does. *)
Theorem resolution_decides (clauses : list Clause) :
  ∅ ∉ clauses →
  ((∃ fuel, resolution_solver fuel clauses = Ok true) ↔ ∃ v, models v clauses)
  ∧ ((∃ fuel, resolution_solver fuel clauses = Ok false)
     ↔ ¬ ∃ v, models v clauses).
Proof.
  intros Hbot.
  destruct (resolution_solver_total clauses) as (fuel & b & Hrun).
  split; split.
  - intros [f Hf]. by eapply resolution_solver_complete.
  - intros [v Hv]. exists fuel. destruct b; [done|].
    by apply (resolution_solver_sound _ _ v) in Hrun.
  - intros [f Hf] [v Hv]. by apply (resolution_solver_sound _ _ v) in Hf.
  - intros Hunsat. exists fuel. destruct b; [|done].
    exfalso. apply Hunsat. by eapply resolution_solver_complete.
Qed.

Lemma resolution_unsat_sound_witness :
  ¬ ∃ v, models v [ {[Lit "1" false]}; {[Lit "1" true]} ].
Proof. apply (resolution_unsat_sound _ 1). vm_compute. reflexivity. Defined.

Lemma resolution_decides_witness :
  ((∃ fuel,
      resolution_solver fuel
        [ {[Lit "1" false; Lit "2" true]}; {[Lit "2" false]} ] = Ok true)
   ↔ ∃ v, models v [ {[Lit "1" false; Lit "2" true]}; {[Lit "2" false]} ])
  ∧ ((∃ fuel,
        resolution_solver fuel
          [ {[Lit "1" false; Lit "2" true]}; {[Lit "2" false]} ] = Ok false)
     ↔ ¬ ∃ v, models v [ {[Lit "1" false; Lit "2" true]}; {[Lit "2" false]} ]).
Proof.
  apply (resolution_decides
           [ {[Lit "1" false; Lit "2" true]}; {[Lit "2" false]} ]).
  apply (bool_decide_unpack _). vm_compute. reflexivity.
Defined.

Lemma resolvent_implied_witness :
  is_tautology {[Lit "2" false; Lit "3" false]} = false
  ∧ (∃ l, l ∈ ({[Lit "1" false; Lit "2" false]} : Clause)
          ∧ negate l ∈ ({[Lit "1" true; Lit "3" false]} : Clause)
          ∧ ({[Lit "2" false; Lit "3" false]} : Clause)
            = ({[Lit "1" false; Lit "2" false]} ∖ {[l]})
              ∪ ({[Lit "1" true; Lit "3" false]} ∖ {[negate l]}))
  ∧ ∀ v, satisfies v {[Lit "1" false; Lit "2" false]} →
         satisfies v {[Lit "1" true; Lit "3" false]} →
         satisfies v {[Lit "2" false; Lit "3" false]}.
Proof.
  apply (resolvent_implied {[Lit "1" false; Lit "2" false]}
           {[Lit "1" true; Lit "3" false]} {[Lit "2" false; Lit "3" false]}).
  apply (bool_decide_unpack _). vm_compute. reflexivity.
Defined.
End resolution_semantics.

Section parse_literal_facts.
Import Resolution.

(** X20: the literal the resolution loader makes of a DIMACS integer
    determines the integer, and the opposite integer gives the negated
    literal. *)
Theorem parse_literal_faithful a b :
  (parse_literal a = parse_literal b → a = b)
  ∧ (a ≠ 0 → parse_literal (- a) = negate (parse_literal a)).
Proof.
  split.
  - unfold parse_literal. intros [= Hname Hsign].
    apply (inj pretty) in Hname.
    repeat case_bool_decide; try done; lia.
  - intros Hnz. unfold parse_literal, negate. simpl. rewrite Z.abs_opp.
    f_equal. destruct (decide (a < 0)).
    + rewrite (bool_decide_eq_true_2 (a < 0)) by done.
      apply bool_decide_eq_false_2. lia.
    + rewrite (bool_decide_eq_false_2 (a < 0)) by done.
      apply bool_decide_eq_true_2. lia.
Qed.
End parse_literal_facts.

(** ** The splitting solver and the Sudoku encoding of sudoku_dp.py *)

Section sudoku_dp_steps.
Import SudokuDP.

Lemma size_list_to_set_le (l : list (gset Z)) :
  (size (list_to_set l : gset (gset Z)) ≤ length l)%nat.
Proof.
  induction l as [|x l IH].
  { rewrite list_to_set_nil, size_empty. simpl. lia. }
  rewrite list_to_set_cons, size_union_alt, size_singleton. simpl.
  assert (size ((list_to_set l : gset (gset Z)) ∖ {[x]})
          ≤ size (list_to_set l : gset (gset Z)))%nat.
  { apply subseteq_size. by intros y [? _]%elem_of_difference. }
  lia.
Qed.

Lemma size_set_map_le (f : gset Z → gset Z) (X : gset (gset Z)) :
  (size (set_map f X : gset (gset Z)) ≤ size X)%nat.
Proof.
  unfold set_map. etrans; [apply size_list_to_set_le|].
  by rewrite length_fmap.
Qed.

Lemma size_filter_lt (P : gset Z → Prop) `{∀ c, Decision (P c)}
    (X : gset (gset Z)) c :
  c ∈ X → ¬ P c → (size (filter P X) < size X)%nat.
Proof.
  intros Hc Hp.
  assert (filter P X ⊆ X ∖ {[c]}) as Hsub%subseteq_size.
  { intros x [? ?]%elem_of_filter. apply elem_of_difference.
    split; [done|]. rewrite elem_of_singleton. by intros ->. }
  rewrite size_difference in Hsub by (by apply singleton_subseteq_l).
  rewrite size_singleton in Hsub.
  assert (size X ≠ 0%nat).
  { intros Hz%size_empty_inv. apply (not_elem_of_empty (C:=gset (gset Z)) c).
    by apply Hz. }
  lia.
Qed.

Lemma unit_literal_Some c l : unit_literal c = Some l ↔ c = {[l]}.
Proof.
  unfold unit_literal. split.
  - destruct (elements c) as [|x [|]] eqn:Hel; intros [= <-].
    rewrite <- (list_to_set_elements_L c), Hel.
    by rewrite list_to_set_cons, list_to_set_nil, (right_id_L ∅ (∪)).
  - intros ->. by rewrite elements_singleton.
Qed.

Lemma sat_by_mono a a' c : a ⊆ a' → sat_by a c → sat_by a' c.
Proof.
  intros Hsub (l & Hl & Ht). exists l. split; [done|].
  unfold lit_true in *. by eapply lookup_weaken.
Qed.

Lemma follows_refl s : follows s s.
Proof.
  split; [done|done|by left| |].
  - intros c Hc. right. by exists c.
  - intros v ? ?. by exists v.
Qed.

Lemma follows_trans s1 s2 s3 : follows s1 s2 → follows s2 s3 → follows s1 s3.
Proof.
  intros [Ha1 Hv1 Hd1 Hc1 Hm1] [Ha2 Hv2 Hd2 Hc2 Hm2]. split.
  - by etrans.
  - congruence.
  - intros x Hx. destruct (Hd2 x Hx) as [Hx'|Hx']; [by apply Hd1|].
    right. by rewrite <- Hv1.
  - intros c Hc. destruct (Hc1 c Hc) as [Hsat|(c' & Hc' & Hsub)].
    + left. by eapply sat_by_mono.
    + destruct (Hc2 c' Hc') as [(l & Hl & Ht)|(c'' & Hc'' & Hsub')].
      * left. exists l. split; [by apply Hsub|done].
      * right. exists c''. split; [done|by etrans].
  - intros v Hext Hmod. destruct (Hm1 v Hext Hmod) as (v' & Hext' & Hmod').
    by apply (Hm2 v').
Qed.

Lemma refuted_follows s s' : follows s s' → refuted s' → refuted s.
Proof.
  intros Hf Hr (v & Hext & Hmod). apply Hr.
  by apply (follows_models _ _ Hf v).
Qed.

Lemma holds_opp v l : l ≠ 0 → holds v l → holds v (- l) → False.
Proof.
  unfold holds. rewrite Z.abs_opp. intros Hnz -> Heq.
  destruct (Z.ltb_spec 0 l), (Z.ltb_spec 0 (- l)); try done; lia.
Qed.

Lemma abs_eq_cases (l literal : Z) :
  Z.abs l = Z.abs literal → l = literal ∨ l = - literal.
Proof. lia. Qed.

(** The body of the loop on a unit clause of the solver. *)
Lemma propagate_unit_ready literal changed s :
  ready s → {[literal]} ∈ clauses s →
  match propagate_unit literal changed s with
  | Conflict _ => refuted s
  | Passed changed' s' =>
      changed' = true ∧ ready s' ∧ follows s s'
      ∧ (size (clauses s') < size (clauses s))%nat
      ∧ ∀ l, l ≠ literal → {[l]} ∈ clauses s → {[l]} ∈ clauses s'
  end.
Proof.
  intros [Hun Hne Hvars Hpos] Hunit. unfold propagate_unit. simpl.
  assert (literal ∈ ({[literal]} : gset Z)) as Hself
    by (by apply elem_of_singleton).
  assert (literal ≠ 0) as Hnz.
  { intros ->. pose proof (Hpos _ (Hvars {[0]} 0 Hunit Hself)). simpl in *. lia. }
  rewrite (Hun {[literal]} literal Hunit Hself).
  case_bool_decide as Hconf.
  - apply elem_of_filter in Hconf as [_ Hneg].
    intros (v & _ & Hmod).
    destruct (Hmod _ Hunit) as (l & ->%elem_of_singleton & H1).
    destruct (Hmod _ Hneg) as (l' & ->%elem_of_singleton & H2).
    by apply (holds_opp v literal).
  - split; [done|].
    assert (∀ c, c ∈ clauses s → literal ∉ c → c ∖ {[- literal]} ≠ ∅)
      as Hleft.
    { intros c Hc Hlit Hempty. apply Hconf. apply elem_of_filter.
      split; [by rewrite elem_of_singleton; lia|].
      assert (c = {[- literal]}) as <-; [|done].
      apply set_eq. intros x. rewrite elem_of_singleton. split.
      - intros Hx. destruct (decide (x = - literal)) as [|Hxl]; [done|].
        exfalso. eapply (not_elem_of_empty (C:=gset Z) x). rewrite <- Hempty.
        apply elem_of_difference. by rewrite elem_of_singleton.
      - intros ->. destruct (decide (- literal ∈ c)) as [|Hout]; [done|].
        exfalso. apply Hne.
        assert (c = ∅) as <-; [|done].
        apply set_eq. intros x. split; [|by intros ?%not_elem_of_empty].
        intros Hx. rewrite <- Hempty. apply elem_of_difference.
        split; [done|]. rewrite elem_of_singleton. by intros ->. }
    split_and!.
    + split; simpl.
      * intros c' l (c & -> & [Hlit Hc]%elem_of_filter)%elem_of_map
               [Hl Hnl]%elem_of_difference.
        rewrite elem_of_singleton in Hnl.
        rewrite lookup_insert_ne; [by apply (Hun c)|].
        intros Habs. symmetry in Habs.
        apply abs_eq_cases in Habs as [->| ->]; done.
      * intros (c & Hc & [Hlit Hin]%elem_of_filter)%elem_of_map.
        by apply (Hleft c).
      * intros c' l (c & -> & [Hlit Hc]%elem_of_filter)%elem_of_map
               [Hl Hnl]%elem_of_difference. by apply (Hvars c).
      * done.
    + split; simpl.
      * apply insert_subseteq. apply (Hun {[literal]} literal Hunit Hself).
      * done.
      * intros x Hx. destruct (decide (x = Z.abs literal)) as [->|Hne'].
        { right. by apply (Hvars {[literal]}). }
        left. by rewrite lookup_insert_ne in Hx.
      * intros c Hc. destruct (decide (literal ∈ c)) as [Hin|Hout].
        { left. exists literal. split; [done|].
          unfold lit_true. by rewrite lookup_insert_eq. }
        right. exists (c ∖ {[- literal]}). split.
        { apply elem_of_map. exists c. split; [done|].
          by apply elem_of_filter. }
        intros x [? _]%elem_of_difference. done.
      * intros v Hext Hmod.
        assert (holds v literal) as Hlit.
        { by destruct (Hmod _ Hunit) as (l & ->%elem_of_singleton & ?). }
        exists v. split.
        { intros x b. destruct (decide (x = Z.abs literal)) as [->|].
          - rewrite lookup_insert_eq. by intros [= <-].
          - rewrite lookup_insert_ne by done. apply Hext. }
        intros c' (c & -> & [Hout Hc]%elem_of_filter)%elem_of_map.
        destruct (Hmod c Hc) as (l & Hl & Hh). exists l. split; [|done].
        apply elem_of_difference. split; [done|].
        intros ->%elem_of_singleton. by apply (holds_opp v literal).
    + eapply Nat.le_lt_trans; [apply size_set_map_le|].
      apply (size_filter_lt _ _ {[literal]}); [done|]. by intros [].
    + intros l Hl Hc.
      assert (l ≠ - literal) as Hneg.
      { intros ->. apply Hconf. apply elem_of_filter. split; [|done].
        rewrite elem_of_singleton. lia. }
      apply elem_of_map. exists {[l]}. split.
      * apply set_eq. intros x. rewrite elem_of_difference, !elem_of_singleton.
        split; [|tauto]. intros ->. done.
      * apply elem_of_filter. split; [|done].
        rewrite elem_of_singleton. congruence.
Qed.

Lemma unit_pass_ready literals changed s :
  ready s → NoDup literals →
  (∀ l, l ∈ literals → {[l]} ∈ clauses s) →
  match unit_pass literals changed s with
  | Conflict _ => refuted s
  | Passed changed' s' =>
      ready s' ∧ follows s s'
      ∧ (literals = [] → changed' = changed ∧ s' = s)
      ∧ (literals ≠ [] →
         changed' = true ∧ (size (clauses s') < size (clauses s))%nat)
  end.
Proof.
  revert changed s.
  induction literals as [|l rest IH]; intros changed s Hready Hnd Hunits; simpl.
  { split_and!; [done|apply follows_refl|done|done]. }
  apply NoDup_cons in Hnd as [Hl Hnd].
  pose proof (propagate_unit_ready l changed s Hready) as Hstep.
  destruct (propagate_unit l changed s) as [s1|changed1 s1].
  { apply Hstep, Hunits. left. }
  destruct Hstep as (-> & Hready1 & Hfollows1 & Hsize1 & Hkeep);
    [apply Hunits; left|].
  specialize (IH true s1 Hready1 Hnd).
  destruct (unit_pass rest true s1) as [s'|changed' s'].
  { eapply refuted_follows; [done|]. apply IH. intros l' Hl'.
    apply Hkeep; [by intros ->|]. apply Hunits. by right. }
  destruct IH as (Hready' & Hfollows' & Hnil & Hcons).
  { intros l' Hl'. apply Hkeep; [by intros ->|]. apply Hunits. by right. }
  split_and!; [done|by eapply follows_trans|done|].
  intros _. destruct rest as [|l2 rest].
  - by destruct Hnil as [-> ->].
  - destruct Hcons as [-> ?]; [done|]. split; [done|lia].
Qed.

Lemma NoDup_omap_unit_literal (cs : list (gset Z)) :
  NoDup cs → NoDup (omap unit_literal cs).
Proof.
  induction 1 as [|c cs Hc Hnd IH]; csimpl; [constructor|].
  destruct (unit_literal c) as [l|] eqn:Hl; [|done].
  constructor; [|done].
  intros (c' & Hc' & Hl')%list_elem_of_omap.
  apply unit_literal_Some in Hl, Hl'. congruence.
Qed.
End sudoku_dp_steps.

Section sudoku_dp_solver.
Import SudokuDP.
Context `{SetIteration} `{ClauseIteration}.

Lemma iter_clauses_elem (X : gset (gset Z)) c : c ∈ iter_clauses X ↔ c ∈ X.
Proof. by rewrite iter_clauses_perm, elem_of_elements. Qed.

Lemma unit_clauses_elem (X : gset (gset Z)) l :
  l ∈ omap unit_literal (iter_clauses X) ↔ {[l]} ∈ X.
Proof.
  rewrite list_elem_of_omap. split.
  - intros (c & Hc%iter_clauses_elem & ->%unit_literal_Some). done.
  - intros Hc. exists {[l]}. split; [by apply iter_clauses_elem|].
    by apply unit_literal_Some.
Qed.

Lemma unit_propagate_S fuel s :
  unit_propagate (S fuel) s
  = match unit_pass (omap unit_literal (iter_clauses (clauses s))) false s with
    | Conflict s' => Ok (false, s')
    | Passed true s' => unit_propagate fuel s'
    | Passed false s' => Ok (true, s')
    end.
Proof. reflexivity. Qed.

Lemma unit_propagate_run fuel s :
  ready s → (size (clauses s) < fuel)%nat →
  ∃ ok s',
    unit_propagate fuel s = Ok (ok, s')
    ∧ if (ok : bool)
      then ready s' ∧ follows s s' ∧ (∀ l, {[l]} ∉ clauses s')
           ∧ (size (clauses s') ≤ size (clauses s))%nat
      else refuted s.
Proof.
  revert s. induction fuel as [|fuel IH]; intros s Hready Hsize; [lia|].
  rewrite unit_propagate_S.
  pose proof (unit_pass_ready (omap unit_literal (iter_clauses (clauses s)))
                false s Hready) as Hpass.
  destruct (unit_pass _ false s) as [s'|changed s'].
  { exists false, s'. split; [done|]. apply Hpass.
    - apply NoDup_omap_unit_literal. rewrite iter_clauses_perm.
      apply NoDup_elements.
    - by intros l ?%unit_clauses_elem. }
  destruct Hpass as (Hready' & Hfollows & Hnil & Hcons).
  { apply NoDup_omap_unit_literal. rewrite iter_clauses_perm.
    apply NoDup_elements. }
  { by intros l ?%unit_clauses_elem. }
  destruct changed.
  - destruct (omap unit_literal (iter_clauses (clauses s))) as [|l ls] eqn:Hunits.
    { by destruct Hnil as [[=] _]. }
    destruct Hcons as [_ Hlt]; [done|].
    destruct (IH s' Hready') as (ok & s'' & Hrun & Hres); [lia|].
    exists ok, s''. split; [done|]. destruct ok.
    + destruct Hres as (? & ? & ? & ?). split_and!; [done| |done|lia].
      by eapply follows_trans.
    + by eapply refuted_follows.
  - exists true, s'. split; [done|].
    destruct (omap unit_literal (iter_clauses (clauses s))) as [|l ls] eqn:Hunits.
    + destruct Hnil as [_ ->]; [done|]. split_and!; [done..| |done].
      intros l Hl%unit_clauses_elem.
      rewrite Hunits in Hl. by apply elem_of_nil in Hl.
    + by destruct Hcons as [[=] _].
Qed.

Lemma unit_propagate_mono fuel fuel' s r :
  unit_propagate fuel s = Ok r → (fuel ≤ fuel')%nat →
  unit_propagate fuel' s = Ok r.
Proof.
  revert fuel' s. induction fuel as [|fuel IH]; intros fuel' s; [done|].
  destruct fuel' as [|fuel']; [lia|]. rewrite !unit_propagate_S.
  destruct (unit_pass _ false s) as [s'|[] s']; [done| |done].
  intros Hrun Hle. apply IH; [done|lia].
Qed.

Lemma holds_update v x b l :
  Z.abs l ≠ x → holds (λ y, if decide (y = x) then b else v y) l ↔ holds v l.
Proof. intros Hne. unfold holds. cbv beta. by rewrite decide_False. Qed.

(** The loop of [pure_literal_elimination] over literals whose negation
    is in no clause. *)
Lemma pure_fold_ready (ps : list Z) s :
  ready s → NoDup ps →
  (∀ p c, p ∈ ps → c ∈ clauses s → - p ∉ c) →
  (∀ p, p ∈ ps → assignments s !! Z.abs p = None) →
  (∀ p, p ∈ ps → Z.abs p ∈ variables s) →
  (∀ p q, p ∈ ps → q ∈ ps → q ≠ - p) →
  let s' :=
    foldl (λ s literal,
             let st := stats s in
             let var := Z.abs literal in
             State (filter (λ c, literal ∉ c) (clauses s)) (variables s)
               (match assignments s !! var with
                | None => <[var := 0 <? literal]> (assignments s)
                | Some _ => assignments s
                end)
               (Counters (splitting_steps st) (unit_propagations st)
                  (pure_eliminations st + 1) (clauses_left st)))
          s ps in
  ready s' ∧ follows s s'
  ∧ (∀ c, c ∈ clauses s' ↔ c ∈ clauses s ∧ ∀ p, p ∈ ps → p ∉ c)
  ∧ (∀ p, p ∈ ps → lit_true (assignments s') p).
Proof.
  revert s.
  induction ps as [|p ps IH]; intros s Hready Hnd Hneg Hnone Hin Hopp.
  { simpl. split_and!; [done|apply follows_refl| |by intros ? ?%elem_of_nil].
    intros c. split; [|by intros [? _]]. intros Hc. split; [done|].
    by intros ? ?%elem_of_nil. }
  cbn [foldl]. cbv zeta.
  apply NoDup_cons in Hnd as [Hp Hnd].
  rewrite (Hnone p) by left.
  set (s1 := State (filter (λ c, p ∉ c) (clauses s)) (variables s)
               (<[Z.abs p := 0 <? p]> (assignments s)) _).
  destruct Hready as [Hun Hne Hvars Hpos].
  assert (∀ c l, c ∈ clauses s1 → l ∈ c → Z.abs l ≠ Z.abs p) as Hother.
  { intros c l [Hout Hc]%elem_of_filter Hl Habs.
    apply abs_eq_cases in Habs as [->| ->]; [done|].
    by apply (Hneg p c); [left|..]. }
  assert (ready s1) as Hready1.
  { split; simpl.
    - intros c l Hc Hl. rewrite lookup_insert_ne by (symmetry; by eapply Hother).
      apply elem_of_filter in Hc as [_ Hc]. by apply (Hun c).
    - by intros [_ ?]%elem_of_filter.
    - intros c l [_ Hc]%elem_of_filter. by apply Hvars.
    - done. }
  assert (follows s s1) as Hfollows1.
  { split; simpl.
    - apply insert_subseteq, Hnone. left.
    - done.
    - intros x Hx. destruct (decide (x = Z.abs p)) as [->|Hne'].
      { right. apply Hin. left. }
      left. by rewrite lookup_insert_ne in Hx.
    - intros c Hc. destruct (decide (p ∈ c)) as [Hpc|Hout].
      + left. exists p. split; [done|]. unfold lit_true.
        by rewrite lookup_insert_eq.
      + right. exists c. split; [by apply elem_of_filter|done].
    - intros v Hext Hmod.
      exists (λ y, if decide (y = Z.abs p) then 0 <? p else v y). split.
      + intros x b. cbv beta. destruct (decide (x = Z.abs p)) as [->|Hne'].
        * rewrite lookup_insert_eq. by intros [= <-].
        * rewrite lookup_insert_ne by done. apply Hext.
      + intros c Hc. pose proof Hc as [_ Hc']%elem_of_filter.
        destruct (Hmod c Hc') as (l & Hl & Hh). exists l. split; [done|].
        apply holds_update; [|done]. by eapply Hother. }
  destruct (IH s1) as (Hready' & Hfollows' & Hcs & Htrue); try done.
  - intros q c Hq [_ Hc]%elem_of_filter. apply Hneg; [by right|done].
  - intros q Hq. simpl. rewrite lookup_insert_ne.
    + apply Hnone. by right.
    + intros Habs. apply abs_eq_cases in Habs as [->| ->]; [done|].
      apply (Hopp q (- q)); [by right|left|lia].
  - intros q Hq. apply Hin. by right.
  - intros q q' Hq Hq'. apply Hopp; by right.
  - split_and!; [done|by eapply follows_trans| |].
    + intros c. rewrite Hcs. unfold s1 at 1. simpl. rewrite elem_of_filter.
      split.
      * intros [[Hp' Hc] Hrest]. split; [done|].
        intros q [->|Hq]%elem_of_cons; auto.
      * intros [Hc Hall]. split_and!; [apply Hall; left|done|].
        intros q Hq. apply Hall. by right.
    + intros q [->|Hq]%elem_of_cons; [|by apply Htrue].
      unfold lit_true.
      eapply lookup_weaken; [|apply (follows_assignments _ _ Hfollows')].
      unfold s1. simpl. by rewrite lookup_insert_eq.
Qed.

Lemma elem_of_clause_literals (X : gset (gset Z)) l :
  l ∈ (⋃ elements X : gset Z) ↔ ∃ c, c ∈ X ∧ l ∈ c.
Proof.
  rewrite elem_of_union_list.
  split; intros (c & Hc & Hl); exists c; by rewrite ?elem_of_elements in *.
Qed.

(** The loop of [pure_literal_elimination] runs over literals of the
    clauses whose negation is in no clause. *)
Lemma pure_literals_fold s :
  ready s →
  let literals : gset Z := ⋃ elements (clauses s) in
  let ps := iter_set (filter (λ literal, - literal ∉ literals) literals) in
  let s' := pure_literal_elimination s in
  ready s' ∧ follows s s'
  ∧ (∀ c, c ∈ clauses s' ↔ c ∈ clauses s ∧ ∀ p, p ∈ ps → p ∉ c)
  ∧ (∀ p, p ∈ ps → lit_true (assignments s') p).
Proof.
  intros Hready literals ps s'.
  pose proof (elem_of_clause_literals (clauses s)) as Hlits.
  fold literals in Hlits.
  apply (pure_fold_ready ps s); [done|..].
  - unfold ps. rewrite iter_set_perm. apply NoDup_elements.
  - intros p c [Hp _]%iter_set_elem%elem_of_filter Hc Hin.
    apply Hp, Hlits. by exists c.
  - intros p [_ (c & Hc & Hl)%Hlits]%iter_set_elem%elem_of_filter.
    by apply (ready_unassigned s Hready c).
  - intros p [_ (c & Hc & Hl)%Hlits]%iter_set_elem%elem_of_filter.
    by apply (ready_variables s Hready c).
  - intros p q [Hp _]%iter_set_elem%elem_of_filter
           [_ Hq]%iter_set_elem%elem_of_filter ->. done.
Qed.

Lemma pure_literal_elimination_ready s :
  ready s →
  ready (pure_literal_elimination s)
  ∧ follows s (pure_literal_elimination s)
  ∧ clauses (pure_literal_elimination s) ⊆ clauses s.
Proof.
  intros Hready.
  destruct (pure_literals_fold s Hready) as (? & ? & Hcs & _).
  split_and!; [done..|]. by intros c [? _]%Hcs.
Qed.

Lemma choose_variable_Some s var :
  choose_variable s = Some var →
  var ∈ variables s ∧ assignments s !! var = None.
Proof.
  unfold choose_variable. intros Hhead.
  assert (var ∈ filter (λ var, assignments s !! var = None)
                       (iter_set (variables s))) as Hin.
  { destruct (filter _ _) as [|x xs]; simplify_eq/=. left. }
  apply list_elem_of_filter in Hin as [? ?%iter_set_elem]. done.
Qed.

Lemma choose_variable_None s :
  choose_variable s = None →
  ∀ x, x ∈ variables s → is_Some (assignments s !! x).
Proof.
  unfold choose_variable. intros Hhead x Hx.
  destruct (assignments s !! x) eqn:Hlook; [done|].
  assert (x ∈ filter (λ var, assignments s !! var = None)
                     (iter_set (variables s))) as Hin.
  { apply list_elem_of_filter. split; [done|]. by apply iter_set_elem. }
  destruct (filter _ _); [by apply elem_of_nil in Hin|done].
Qed.

Lemma solve_S fuel s :
  solve (S fuel) s
  = unit_propagate fuel s ≫= λ '(ok, s1),
      if negb ok then Ok (false, count_clauses s1)
      else
        let s2 := pure_literal_elimination s1 in
        if bool_decide (clauses s2 = ∅) then Ok (true, count_clauses s2)
        else
          match choose_variable s2 with
          | None => Ok (true, count_clauses s2)
          | Some var =>
              let st := stats s2 in
              let s3 :=
                with_stats
                  (Counters (splitting_steps st + 1) (unit_propagations st)
                     (pure_eliminations st) (clauses_left st)) s2 in
              solve fuel (with_clauses ({[ {[var]} ]} ∪ clauses s3) s3)
              ≫= λ '(r1, solver_true),
                if (r1 : bool) then
                  Ok (true,
                      State (clauses solver_true) (variables s3)
                        (assignments solver_true) (stats solver_true))
                else
                  solve fuel (with_clauses ({[ {[- var]} ]} ∪ clauses s3) s3)
                  ≫= λ '(r2, solver_false),
                    if (r2 : bool) then
                      Ok (true,
                          State (clauses solver_false) (variables s3)
                            (assignments solver_false) (stats solver_false))
                    else Ok (false, s3)
          end.
Proof. reflexivity. Qed.

(** Every clause of [s] is true under the assignments [a]. *)
Lemma follows_sat s s' a :
  follows s s' → assignments s' ⊆ a →
  (∀ c, c ∈ clauses s' → sat_by a c) →
  ∀ c, c ∈ clauses s → sat_by a c.
Proof.
  intros Hf Hsub Hall c Hc.
  destruct (follows_clauses _ _ Hf c Hc) as [Hsat|(c' & Hc' & Hsubc)].
  - by eapply sat_by_mono.
  - destruct (Hall c' Hc') as (l & Hl & Ht). exists l. split; [|done].
    by apply Hsubc.
Qed.

Lemma elem_of_open_variables s x :
  x ∈ open_variables s
  ↔ x ∈ variables s ∧ assignments s !! x = None
    ∧ ({[x]} ∉ clauses s) ∧ ({[- x]} ∉ clauses s).
Proof. unfold open_variables. rewrite elem_of_filter. tauto. Qed.

(** A unit clause added for the split: the solver is ready again and has
    fewer open variables. *)
Lemma split_ready s lit :
  ready s → assignments s !! Z.abs lit = None → Z.abs lit ∈ variables s →
  (∀ l, {[l]} ∉ clauses s) →
  let t := with_clauses ({[ {[lit]} ]} ∪ clauses s) s in
  ready t
  ∧ (size (open_variables t) < size (open_variables s))%nat
  ∧ (size (clauses t) ≤ S (size (clauses s)))%nat.
Proof.
  intros [Hun Hne Hvars Hpos] Hnone Hvar Hnounit t. split_and!.
  - split; simpl.
    + intros c l [->%elem_of_singleton|Hc]%elem_of_union Hl.
      * by apply elem_of_singleton in Hl as ->.
      * by apply (Hun c).
    + intros [Hc%elem_of_singleton|Hc]%elem_of_union; [|done].
      apply (not_elem_of_empty (C:=gset Z) lit). rewrite Hc.
      by apply elem_of_singleton.
    + intros c l [->%elem_of_singleton|Hc]%elem_of_union Hl.
      * by apply elem_of_singleton in Hl as ->.
      * by apply (Hvars c).
    + done.
  - apply subset_size. split.
    + intros x (Hx & Hxn & Hp & Hn)%elem_of_open_variables.
      apply elem_of_open_variables. simpl in *.
      split_and!; [done|done| |]; intros Hc.
      * apply Hp. by apply elem_of_union_r.
      * apply Hn. by apply elem_of_union_r.
    + intros Hsub.
      assert (Z.abs lit ∈ open_variables s) as Hopen.
      { apply elem_of_open_variables. split_and!; done. }
      apply Hsub, elem_of_open_variables in Hopen as (_ & _ & Hp & Hn).
      simpl in *. pose proof (Hpos _ Hvar).
      destruct (Z.abs_eq_or_opp lit) as [Heq|Heq].
      * apply Hp. apply elem_of_union_l, elem_of_singleton. by rewrite Heq.
      * apply Hn. apply elem_of_union_l, elem_of_singleton.
        by rewrite Heq, Z.opp_involutive.
  - simpl. rewrite size_union_alt, size_singleton.
    assert (size (clauses s ∖ {[ {[lit]} ]}) ≤ size (clauses s))%nat; [|lia].
    apply subseteq_size. by intros c [? _]%elem_of_difference.
Qed.

Lemma open_variables_follows s s' :
  ready s → ready s' → follows s s' → open_variables s' ⊆ open_variables s.
Proof.
  intros Hready Hready' [Ha Hv _ Hc _] x
    (Hx & Hnone & Hp & Hn)%elem_of_open_variables.
  rewrite Hv in Hx. pose proof (ready_positive s Hready x Hx) as Hpos.
  assert (∀ l, Z.abs l = x → {[l]} ∈ clauses s → {[l]} ∈ clauses s') as Hunit.
  { intros l Habs Hl. destruct (Hc _ Hl) as [(l' & ->%elem_of_singleton & Ht)
                                            |(c' & Hc' & Hsub)].
    - unfold lit_true in Ht. congruence.
    - assert (c' = {[l]}) as <-; [|done].
      apply set_eq. intros y. split; [apply Hsub|].
      intros ->%elem_of_singleton.
      destruct (set_choose_or_empty c') as [[y Hy]| ->%leibniz_equiv].
      + pose proof (Hsub y Hy) as ->%elem_of_singleton. done.
      + by destruct (ready_nonempty s' Hready'). }
  apply elem_of_open_variables. split_and!; [done| | |].
  - destruct (assignments s !! x) as [b|] eqn:Hlook; [|done].
    eapply lookup_weaken in Hlook; [|exact Ha]. congruence.
  - intros Hl. apply Hp, Hunit; [lia|done].
  - intros Hl. apply Hn, Hunit; [lia|done].
Qed.

Lemma solve_run n :
  ∀ fuel s,
    ready s → (size (open_variables s) < n)%nat →
    (size (clauses s) + 2 * n ≤ fuel)%nat →
    ∃ b s',
      solve fuel s = Ok (b, s')
      ∧ if (b : bool)
        then assignments s ⊆ assignments s'
             ∧ (∀ x, is_Some (assignments s' !! x) →
                  is_Some (assignments s !! x) ∨ x ∈ variables s)
             ∧ ∀ c, c ∈ clauses s → sat_by (assignments s') c
        else refuted s.
Proof.
  induction n as [|n IH]; intros fuel s Hready Hopen Hfuel; [lia|].
  destruct fuel as [|fuel]; [lia|]. rewrite solve_S.
  destruct (unit_propagate_run fuel s Hready) as (ok & s1 & -> & Hres); [lia|].
  rewrite result_bind_Ok. destruct ok; simpl; [|by exists false, (count_clauses s1)].
  destruct Hres as (Hready1 & Hfollows1 & Hnounit1 & Hsize1).
  destruct (pure_literal_elimination_ready s1 Hready1)
    as (Hready2 & Hfollows2 & Hsub2).
  set (s2 := pure_literal_elimination s1) in *.
  assert (follows s s2) as Hfollows by (by eapply follows_trans).
  case_bool_decide as Hempty.
  { exists true, (count_clauses s2). split; [done|]. simpl. split_and!.
    - apply (follows_assignments _ _ Hfollows).
    - apply (follows_assigned _ _ Hfollows).
    - apply (follows_sat s s2); [done..|]. rewrite Hempty.
      by intros c ?%not_elem_of_empty. }
  destruct (choose_variable s2) as [var|] eqn:Hchoose.
  2:{ exfalso. apply set_choose_L in Hempty as [c Hc].
      destruct (set_choose_or_empty c) as [[l Hl]| ->%leibniz_equiv];
        [|by destruct (ready_nonempty s2 Hready2)].
      destruct (choose_variable_None s2 Hchoose (Z.abs l)) as [b Hb].
      - by apply (ready_variables s2 Hready2 c).
      - by rewrite (ready_unassigned s2 Hready2 c l) in Hb. }
  apply choose_variable_Some in Hchoose as [Hvar Hnone].
  pose proof (ready_positive s2 Hready2 var Hvar) as Hpos.
  cbv zeta. set (s3 := with_stats _ s2).
  assert (ready s3) as Hready3 by (by destruct Hready2).
  assert (open_variables s3 = open_variables s2) as Hopen3 by done.
  assert (∀ l, {[l]} ∉ clauses s3) as Hnounit3.
  { intros l Hl. apply (Hnounit1 l). by apply Hsub2. }
  assert (size (open_variables s2) ≤ size (open_variables s))%nat as Hopen2.
  { apply subseteq_size. by apply open_variables_follows. }
  assert (size (clauses s2) ≤ size (clauses s1))%nat as Hsize2
    by (by apply subseteq_size).
  assert (∀ lit, Z.abs lit = var →
            ∃ b s', solve fuel (with_clauses ({[ {[lit]} ]} ∪ clauses s2) s3)
                    = Ok (b, s')
                    ∧ if (b : bool)
                      then assignments s ⊆ assignments s'
                           ∧ (∀ x, is_Some (assignments s' !! x) →
                                is_Some (assignments s !! x)
                                ∨ x ∈ variables s)
                           ∧ ∀ c, c ∈ clauses s → sat_by (assignments s') c
                      else refuted
                             (with_clauses ({[ {[lit]} ]} ∪ clauses s2) s3))
    as Hbranch.
  { intros lit Habs. change (clauses s2) with (clauses s3).
    destruct (split_ready s3 lit) as (Hreadyt & Hopent & Hsizet);
      [done|by rewrite Habs..|done|].
    cbv zeta in Hopent, Hsizet. rewrite Hopen3 in Hopent.
    assert (size (clauses s3) = size (clauses s2)) as Hsize3 by done.
    destruct (IH fuel (with_clauses ({[ {[lit]} ]} ∪ clauses s3) s3))
      as (b & s' & Hrun & Hres); [done|lia|lia|].
    exists b, s'. split; [done|]. destruct b; [|done].
    destruct Hres as (Hsub & Hdom & Hsat). split_and!.
    - etrans; [apply (follows_assignments _ _ Hfollows)|done].
    - intros x Hx. destruct (Hdom x Hx) as [Hx'|Hx'].
      + by apply (follows_assigned _ _ Hfollows).
      + right. simpl in Hx'. by rewrite <- (follows_variables _ _ Hfollows).
    - apply (follows_sat s s2); [done..|].
      intros c Hc. apply Hsat. simpl. by apply elem_of_union_r. }
  destruct (Hbranch var) as (r1 & st & -> & Hres1); [lia|].
  rewrite result_bind_Ok. destruct r1.
  { eexists true, _. split; [done|]. by simpl. }
  destruct (Hbranch (- var)) as (r2 & sf & -> & Hres2); [lia|].
  rewrite result_bind_Ok. destruct r2.
  { eexists true, _. split; [done|]. by simpl. }
  exists false, s3. split; [done|].
  apply (refuted_follows s s2 Hfollows). intros (v & Hext & Hmod).
  destruct (v var) eqn:Hv.
  - apply Hres1. exists v. split; [done|]. simpl.
    intros c [->%elem_of_singleton|Hc]%elem_of_union; [|by apply Hmod].
    exists var. split; [by apply elem_of_singleton|]. unfold holds.
    rewrite Z.abs_eq by lia. rewrite Hv. symmetry. by apply Z.ltb_lt.
  - apply Hres2. exists v. split; [done|]. simpl.
    intros c [->%elem_of_singleton|Hc]%elem_of_union; [|by apply Hmod].
    exists (- var). split; [by apply elem_of_singleton|]. unfold holds.
    rewrite Z.abs_opp, Z.abs_eq by lia. rewrite Hv. symmetry.
    apply Z.ltb_ge. lia.
Qed.

Lemma solve_mono fuel fuel' s r :
  solve fuel s = Ok r → (fuel ≤ fuel')%nat → solve fuel' s = Ok r.
Proof.
  revert fuel' s r. induction fuel as [|fuel IH]; intros fuel' s r; [done|].
  destruct fuel' as [|fuel']; [lia|]. rewrite !solve_S. intros Hrun Hle.
  destruct (unit_propagate fuel s) as [[ok s1]| |] eqn:Hprop; try done.
  rewrite (unit_propagate_mono _ fuel' _ _ Hprop) by lia.
  rewrite !result_bind_Ok in *.
  destruct (negb ok); [done|]. cbv zeta in *.
  case_bool_decide; [done|].
  destruct (choose_variable _) as [var|]; [|done].
  destruct (solve fuel (with_clauses ({[ {[var]} ]} ∪ _) _))
    as [[r1 st]| |] eqn:Htrue; try done.
  rewrite (IH fuel' _ _ Htrue) by lia. rewrite !result_bind_Ok in *.
  destruct r1; [done|].
  destruct (solve fuel (with_clauses ({[ {[- var]} ]} ∪ _) _))
    as [[r2 sf]| |] eqn:Hfalse; try done.
  rewrite (IH fuel' _ _ Hfalse) by lia. by rewrite !result_bind_Ok in *.
Qed.

Lemma solve_result s fuel b s' :
  ready s → solve fuel s = Ok (b, s') →
  if b
  then assignments s ⊆ assignments s'
       ∧ (∀ x, is_Some (assignments s' !! x) →
            is_Some (assignments s !! x) ∨ x ∈ variables s)
       ∧ ∀ c, c ∈ clauses s → sat_by (assignments s') c
  else refuted s.
Proof.
  intros Hready Hrun.
  destruct (solve_run (S (size (open_variables s)))
              (size (clauses s) + 2 * S (size (open_variables s))) s)
    as (b0 & s0 & Hrun0 & Hres0); [done|lia|lia|].
  pose proof (solve_mono _ (fuel + (size (clauses s)
                                    + 2 * S (size (open_variables s))))
                _ _ Hrun ltac:(lia)) as H1.
  pose proof (solve_mono _ (fuel + (size (clauses s)
                                    + 2 * S (size (open_variables s))))
                _ _ Hrun0 ltac:(lia)) as H2.
  rewrite H1 in H2. by injection H2 as -> ->.
Qed.

Lemma unit_propagate_result s fuel ok s' :
  ready s → unit_propagate fuel s = Ok (ok, s') →
  if ok
  then ready s' ∧ follows s s' ∧ (∀ l, {[l]} ∉ clauses s')
       ∧ (size (clauses s') ≤ size (clauses s))%nat
  else refuted s.
Proof.
  intros Hready Hrun.
  destruct (unit_propagate_run (S (size (clauses s))) s)
    as (ok0 & s0 & Hrun0 & Hres0); [done|lia|].
  pose proof (unit_propagate_mono _ (fuel + S (size (clauses s)))
                _ _ Hrun ltac:(lia)) as H1.
  pose proof (unit_propagate_mono _ (fuel + S (size (clauses s)))
                _ _ Hrun0 ltac:(lia)) as H2.
  rewrite H1 in H2. by injection H2 as -> ->.
Qed.

(** A fresh solver after [add_clause] calls. *)
Lemma add_clauses_ready (cls : list (list Z)) :
  (∀ c, c ∈ cls → c ≠ [] ∧ 0 ∉ c) →
  let s := foldl (λ s c, add_clause c s) init cls in
  ready s ∧ assignments s = ∅
  ∧ (∀ c, c ∈ clauses s ↔ ∃ clause, clause ∈ cls ∧ c = list_to_set clause)
  ∧ ∀ x, x ∈ variables s → ∃ clause l, clause ∈ cls ∧ l ∈ clause ∧ x = Z.abs l.
Proof.
  induction cls as [|clause cls IH] using rev_ind; intros Hcls.
  { simpl. split_and!; [|done| |by intros ? ?%not_elem_of_empty].
    - split; simpl; try done; by intros ? ? ?%not_elem_of_empty.
    - intros c. split; [by intros ?%not_elem_of_empty|].
      by intros (? & ?%elem_of_nil & _). }
  rewrite foldl_app. cbn [foldl]. cbv zeta in *.
  destruct IH as ([Hun Hne Hvars Hpos] & Ha & Hcs & Hfrom).
  { intros c Hc. apply Hcls, elem_of_app. by left. }
  destruct (Hcls clause) as [Hnil Hzero]; [apply elem_of_app; right; left|].
  set (s0 := foldl (λ s c, add_clause c s) init cls) in *.
  split_and!; [|done| |].
  3:{ simpl. intros x [Hx|Hx]%elem_of_union.
      - destruct (Hfrom x Hx) as (cl & l & ? & ? & ?).
        exists cl, l. split_and!; [apply elem_of_app; by left|done..].
      - apply elem_of_list_to_set, list_elem_of_fmap in Hx as (l & -> & Hl).
        exists clause, l. split_and!; [apply elem_of_app; right; left|done..]. }
  - split; simpl.
    + intros c l _ _. rewrite Ha. apply lookup_empty.
    + intros [Hc%elem_of_singleton|Hc]%elem_of_union; [|done].
      destruct clause as [|x clause]; [done|].
      apply (not_elem_of_empty (C:=gset Z) x). rewrite Hc.
      apply elem_of_list_to_set. left.
    + intros c l [->%elem_of_singleton|Hc]%elem_of_union Hl.
      * apply elem_of_union_r, elem_of_list_to_set, list_elem_of_fmap.
        exists l. split; [done|]. by apply elem_of_list_to_set in Hl.
      * apply elem_of_union_l. by apply (Hvars c).
    + intros x [Hx|Hx]%elem_of_union; [by apply Hpos|].
      apply elem_of_list_to_set, list_elem_of_fmap in Hx as (l & -> & Hl).
      assert (l ≠ 0) by (by intros ->). lia.
  - intros c. simpl. rewrite elem_of_union, elem_of_singleton, Hcs. split.
    + intros [->|(cl & Hcl & ->)].
      * exists clause. split; [apply elem_of_app; right; left|done].
      * exists cl. split; [apply elem_of_app; by left|done].
    + intros (cl & [Hcl|Hcl%list_elem_of_singleton]%elem_of_app & ->).
      * right. by exists cl.
      * left. by subst cl.
Qed.

(** X21: from a solver whose clauses are not empty and are over
    unassigned variables, [unit_propagate] ends.  When it returns [False]
    no valuation that agrees with the assignments makes the clauses
    true.  When it returns [True] no one-literal clause is left, the
    assignments have only grown, every clause is true under them or has
    a part left, a model of the old clauses gives one of the new
    ones, and the solver is again as described. *)
Theorem davis_putnam_unit_propagation s :
  ready s →
  (∃ fuel ok s', unit_propagate fuel s = Ok (ok, s'))
  ∧ ∀ fuel ok s',
      unit_propagate fuel s = Ok (ok, s') →
      if ok
      then ready s' ∧ follows s s' ∧ ∀ l, {[l]} ∉ clauses s'
      else refuted s.
Proof.
  intros Hready. split.
  - destruct (unit_propagate_run (S (size (clauses s))) s)
      as (ok & s' & Hrun & _); [done|lia|]. by eauto.
  - intros fuel ok s' Hrun.
    pose proof (unit_propagate_result s fuel ok s' Hready Hrun) as Hres.
    destruct ok; [|done]. by destruct Hres as (? & ? & ? & _).
Qed.

(** X22: on such a solver [pure_literal_elimination] keeps exactly the
    clauses all of whose literals have their negation in some clause,
    makes every literal true that occurs in a clause while its negation
    occurs in none, and only adds assignments. *)
Theorem davis_putnam_pure_literals s :
  ready s →
  let s' := pure_literal_elimination s in
  (∀ c, c ∈ clauses s' ↔
     c ∈ clauses s ∧ ∀ p, p ∈ c → ∃ c', c' ∈ clauses s ∧ - p ∈ c')
  ∧ (∀ p, (∃ c, c ∈ clauses s ∧ p ∈ c) →
          (¬ ∃ c, c ∈ clauses s ∧ - p ∈ c) →
          assignments s' !! Z.abs p = Some (0 <? p))
  ∧ assignments s ⊆ assignments s'
  ∧ ready s'.
Proof.
  intros Hready s'.
  pose proof (elem_of_clause_literals (clauses s)) as Hlits.
  destruct (pure_literals_fold s Hready) as (Hready' & Hfollows & Hcs & Htrue).
  cbv zeta in Hcs, Htrue. fold s' in Hready', Hfollows, Hcs, Htrue.
  split_and!; [| |by destruct Hfollows|done].
  - intros c. rewrite Hcs. split; intros [Hc Hall]; (split; [done|]).
    + intros p Hp.
      destruct (decide (- p ∈ (⋃ elements (clauses s) : gset Z)))
        as [Hin|Hout]; [by apply Hlits|].
      exfalso. apply (Hall p); [|done].
      apply iter_set_elem, elem_of_filter. split; [done|].
      apply Hlits. by exists c.
    + intros p [Hout _]%iter_set_elem%elem_of_filter Hp.
      apply Hout, Hlits. by apply Hall.
  - intros p Hocc Hneg. apply Htrue, iter_set_elem, elem_of_filter.
    split; [|by apply Hlits]. by intros Hin%Hlits.
Qed.

(** X23: from such a solver [solve] ends.  When it returns [True] every
    clause the solver started with has a literal that the final
    assignments make true; these extend the first ones, by variables of
    the solver only.  When it returns [False] no valuation that agrees
    with the first assignments makes the clauses true. *)
Theorem davis_putnam_decides s :
  ready s →
  (∃ fuel b s', solve fuel s = Ok (b, s'))
  ∧ ∀ fuel b s',
      solve fuel s = Ok (b, s') →
      if b
      then assignments s ⊆ assignments s'
           ∧ (∀ x, is_Some (assignments s' !! x) →
                is_Some (assignments s !! x) ∨ x ∈ variables s)
           ∧ ∀ c, c ∈ clauses s → sat_by (assignments s') c
      else refuted s.
Proof.
  intros Hready. split.
  - destruct (solve_run (S (size (open_variables s)))
                (size (clauses s) + 2 * S (size (open_variables s))) s)
      as (b & s' & Hrun & _); [done|lia|lia|]. by eauto.
  - intros fuel b s'. by apply solve_result.
Qed.

(** X24: on a fresh solver given clauses that are not empty and do not
    hold the literal 0, [solve] ends; it returns [True] with assignments
    that make a literal of every clause true, and [False] only when no
    valuation makes all the clauses true. *)
Theorem davis_putnam_on_clauses (cls : list (list Z)) :
  (∀ c, c ∈ cls → c ≠ [] ∧ 0 ∉ c) →
  let s := foldl (λ s c, add_clause c s) init cls in
  (∃ fuel b s', solve fuel s = Ok (b, s'))
  ∧ ∀ fuel b s',
      solve fuel s = Ok (b, s') →
      if b
      then ∀ c, c ∈ cls →
             ∃ l, l ∈ c ∧ assignments s' !! Z.abs l = Some (0 <? l)
      else ¬ ∃ v : Z → bool,
               ∀ c, c ∈ cls → ∃ l, l ∈ c ∧ v (Z.abs l) = (0 <? l).
Proof.
  intros Hcls s.
  destruct (add_clauses_ready cls Hcls) as (Hready & Ha & Hcs & _).
  fold s in Hready, Ha, Hcs.
  split.
  - destruct (solve_run (S (size (open_variables s)))
                (size (clauses s) + 2 * S (size (open_variables s))) s)
      as (b & s' & Hrun & _); [done|lia|lia|]. by eauto.
  - intros fuel b s' Hrun. pose proof (solve_result s fuel b s' Hready Hrun) as Hres.
    destruct b.
    + destruct Hres as (_ & _ & Hsat). intros c Hc.
      destruct (Hsat (list_to_set c)) as (l & Hl & Ht).
      { apply Hcs. by exists c. }
      exists l. split; [by apply elem_of_list_to_set in Hl|done].
    + intros [v Hv]. apply Hres. exists v. split.
      * intros x b. by rewrite Ha, lookup_empty.
      * intros c (cl & Hcl & ->)%Hcs. destruct (Hv cl Hcl) as (l & Hl & Hh).
        exists l. split; [by apply elem_of_list_to_set|done].
Qed.
End sudoku_dp_solver.

Section sudoku_dp_encoding.
Import Sudoku SudokuDP Resolution.

Lemma elem_of_range n x : x ∈ range n ↔ 0 ≤ x < n.
Proof.
  unfold range. rewrite list_elem_of_fmap. split.
  - intros (i & -> & Hi%elem_of_seq). lia.
  - intros Hx. exists (Z.to_nat x). split; [lia|]. apply elem_of_seq. lia.
Qed.

Lemma NoDup_range n : NoDup (range n).
Proof. apply (NoDup_fmap_2 _), NoDup_seq. Qed.

Lemma decode_cell_var n r c m :
  placed n r c m → decode n (cell_var n r c m) = (r, c, m + 1).
Proof.
  intros (Hr & Hc & Hm). unfold decode, cell_var. cbv zeta.
  replace (r * n * n + c * n + m + 1 - 1) with ((r * n + c) * n + m) by lia.
  assert (((r * n + c) * n + m) `div` n = r * n + c
          ∧ ((r * n + c) * n + m) `mod` n = m) as [Hq Hm'].
  { pose proof (Z.div_mod ((r * n + c) * n + m) n ltac:(lia)).
    pose proof (Z.mod_pos_bound ((r * n + c) * n + m) n ltac:(lia)).
    apply (Z.div_mod_unique n); lia. }
  assert ((r * n + c) `div` n = r ∧ (r * n + c) `mod` n = c) as [Hq' Hc'].
  { pose proof (Z.div_mod (r * n + c) n ltac:(lia)).
    pose proof (Z.mod_pos_bound (r * n + c) n ltac:(lia)).
    apply (Z.div_mod_unique n); lia. }
  rewrite <- Z.div_div by lia. by rewrite Hq, Hm', Hq', Hc'.
Qed.

Lemma variable_placed n var :
  1 ≤ var ≤ n * n * n →
  ∃ r c m, placed n r c m ∧ var = cell_var n r c m.
Proof.
  intros Hvar. assert (0 < n) as Hn by nia.
  exists ((var - 1) `div` (n * n)), (((var - 1) `div` n) `mod` n),
    ((var - 1) `mod` n).
  pose proof (Z.mod_pos_bound (var - 1) n Hn).
  pose proof (Z.mod_pos_bound ((var - 1) `div` n) n Hn).
  pose proof (Z.div_mod (var - 1) n ltac:(lia)) as H1.
  pose proof (Z.div_mod ((var - 1) `div` n) n ltac:(lia)) as H2.
  rewrite Z.div_div in H2 by lia.
  assert (0 ≤ (var - 1) `div` (n * n)) by (apply Z.div_pos; nia).
  assert ((var - 1) `div` (n * n) < n).
  { apply Z.div_lt_upper_bound; nia. }
  unfold placed, cell_var. split_and!; lia.
Qed.

Lemma placement_cell_var n solution r c m :
  placed n r c m →
  placement n solution (cell_var n r c m)
  = bool_decide (cell solution r c = m + 1).
Proof. intros Hp. unfold placement. by rewrite decode_cell_var. Qed.

(** *** The clauses of the six loops *)

Lemma elem_of_cell_clauses n r c :
  0 ≤ r < n → 0 ≤ c < n → (cell_var n r c <$> range n) ∈ cell_clauses n.
Proof.
  intros Hr Hc. unfold cell_clauses.
  apply list_elem_of_bind. exists r. split; [|by apply elem_of_range].
  apply list_elem_of_bind. exists c. split; [|by apply elem_of_range].
  left.
Qed.

Lemma cell_clauses_encoded k n g cl : cl ∈ cell_clauses n → encoded k n g cl.
Proof.
  unfold cell_clauses.
  intros (r & (c & Hcl & Hc%elem_of_range)%list_elem_of_bind
            & Hr%elem_of_range)%list_elem_of_bind.
  apply list_elem_of_singleton in Hcl as ->. by apply encoded_cell.
Qed.

Lemma cell_exclusions_encoded k n g cl :
  cl ∈ cell_exclusions n → encoded k n g cl.
Proof.
  unfold cell_exclusions.
  intros (r & (c & ([m1 m2] & Hcl & Hp)%list_elem_of_bind
                 & Hc%elem_of_range)%list_elem_of_bind
            & Hr%elem_of_range)%list_elem_of_bind.
  apply list_elem_of_singleton in Hcl as ->.
  apply elem_of_combinations2
    in Hp as (H1%elem_of_range & H2%elem_of_range & Hne).
  specialize (Hne (NoDup_range n)).
  apply encoded_exclusion; [done..|]. by left.
Qed.

Lemma row_exclusions_encoded k n g cl :
  cl ∈ row_exclusions n → encoded k n g cl.
Proof.
  unfold row_exclusions.
  intros (r & (m & ([c1 c2] & Hcl & Hp)%list_elem_of_bind
                 & Hm%elem_of_range)%list_elem_of_bind
            & Hr%elem_of_range)%list_elem_of_bind.
  apply list_elem_of_singleton in Hcl as ->.
  apply elem_of_combinations2
    in Hp as (H1%elem_of_range & H2%elem_of_range & Hne).
  specialize (Hne (NoDup_range n)).
  apply encoded_exclusion; [done..|]. right.
  split_and!; [done|congruence|by left].
Qed.

Lemma column_exclusions_encoded k n g cl :
  cl ∈ column_exclusions n → encoded k n g cl.
Proof.
  unfold column_exclusions.
  intros (c & (m & ([r1 r2] & Hcl & Hp)%list_elem_of_bind
                 & Hm%elem_of_range)%list_elem_of_bind
            & Hc%elem_of_range)%list_elem_of_bind.
  apply list_elem_of_singleton in Hcl as ->.
  apply elem_of_combinations2
    in Hp as (H1%elem_of_range & H2%elem_of_range & Hne).
  specialize (Hne (NoDup_range n)).
  apply encoded_exclusion; [done..|]. right.
  split_and!; [done|congruence|right; by left].
Qed.

Lemma elem_of_subgrid_cells k sr sc r c :
  (r, c) ∈ subgrid_cells k sr sc
  ↔ ∃ i j, 0 ≤ i < k ∧ 0 ≤ j < k ∧ r = sr * k + i ∧ c = sc * k + j.
Proof.
  unfold subgrid_cells. split.
  - intros (i & (j & Hcl & Hj%elem_of_range)%list_elem_of_bind
              & Hi%elem_of_range)%list_elem_of_bind.
    apply list_elem_of_singleton in Hcl as [= -> ->]. by exists i, j.
  - intros (i & j & Hi & Hj & -> & ->).
    apply list_elem_of_bind. exists i. split; [|by apply elem_of_range].
    apply list_elem_of_bind. exists j. split; [|by apply elem_of_range].
    left.
Qed.

Lemma NoDup_subgrid_cells k sr sc : NoDup (subgrid_cells k sr sc).
Proof.
  unfold subgrid_cells. apply NoDup_bind; [| |apply NoDup_range].
  - intros i1 i2 [r c] _ _
      (j1 & [= -> ->]%list_elem_of_singleton & _)%list_elem_of_bind
      (j2 & [= Hi _]%list_elem_of_singleton & _)%list_elem_of_bind.
    lia.
  - intros i _. apply NoDup_bind; [| |apply NoDup_range].
    + intros j1 j2 [r c] _ _ [= -> ->]%list_elem_of_singleton
        [= Hj]%list_elem_of_singleton.
      lia.
    + intros j _. apply NoDup_singleton.
Qed.

Lemma subgrid_position k sr i :
  0 ≤ sr < k → 0 ≤ i < k →
  0 ≤ sr * k + i < k * k ∧ (sr * k + i) `div` k = sr.
Proof.
  intros Hsr Hi. split; [nia|].
  symmetry. apply (Z.div_unique_pos _ _ _ i); lia.
Qed.

Lemma subgrid_exclusions_encoded k g cl :
  0 ≤ k → cl ∈ subgrid_exclusions (k * k) k → encoded k (k * k) g cl.
Proof.
  intros Hk. unfold subgrid_exclusions.
  intros (sr & (sc & (m & ([[r1 c1] [r2 c2]] & Hcl & Hp)%list_elem_of_bind
                        & Hm%elem_of_range)%list_elem_of_bind
                  & Hsc%elem_of_range)%list_elem_of_bind
             & Hsr%elem_of_range)%list_elem_of_bind.
  apply list_elem_of_singleton in Hcl as ->.
  apply elem_of_combinations2 in Hp as (H1 & H2 & Hne).
  specialize (Hne (NoDup_subgrid_cells k sr sc)).
  apply elem_of_subgrid_cells in H1 as (i1 & j1 & Hi1 & Hj1 & -> & ->).
  apply elem_of_subgrid_cells in H2 as (i2 & j2 & Hi2 & Hj2 & -> & ->).
  destruct (subgrid_position k sr i1) as [? Hd1]; [done..|].
  destruct (subgrid_position k sr i2) as [? Hd2]; [done..|].
  destruct (subgrid_position k sc j1) as [? Hd3]; [done..|].
  destruct (subgrid_position k sc j2) as [? Hd4]; [done..|].
  apply encoded_exclusion; [done..|]. right.
  split_and!; [done|done|]. right. right. split; congruence.
Qed.

Lemma grid_at_cell n g r c :
  Z.of_nat (length g) = n →
  (∀ cells, cells ∈ g → Z.of_nat (length cells) = n) →
  0 ≤ r < n → 0 ≤ c < n →
  grid_at g r c = Ok (cell g r c).
Proof.
  intros Hrows Hcols Hr Hc. unfold grid_at, cell.
  destruct (lookup_lt_is_Some_2 g (Z.to_nat r)) as [cells Hcells]; [lia|].
  rewrite Hcells. simpl.
  destruct (lookup_lt_is_Some_2 cells (Z.to_nat c)) as [x Hx].
  { apply list_elem_of_lookup_2 in Hcells. apply Hcols in Hcells. lia. }
  by rewrite Hx.
Qed.

Lemma mapM_Ok {A B} (f : A → result B) (h : A → B) (l : list A) :
  (∀ x, x ∈ l → f x = Ok (h x)) → mapM f l = Ok (h <$> l).
Proof.
  induction l as [|x l IH]; intros Hf; [done|]. simpl.
  rewrite (Hf x) by left. rewrite result_bind_Ok.
  rewrite IH by (intros y Hy; apply Hf; by right).
  by rewrite result_bind_Ok.
Qed.

Lemma given_clauses_Ok k n g :
  puzzle k n g →
  ∃ givens,
    given_clauses n g = Ok givens
    ∧ ∀ cl, cl ∈ givens
            ↔ ∃ r c, 0 ≤ r < n ∧ 0 ≤ c < n ∧ cell g r c ≠ 0
                     ∧ cl = [cell_var n r c (cell g r c - 1)].
Proof.
  intros [_ Hrows Hcols _]. unfold given_clauses.
  set (h := λ p : Z * Z,
              if decide (cell g p.1 p.2 ≠ 0)
              then [[cell_var n p.1 p.2 (cell g p.1 p.2 - 1)]] else []).
  rewrite (mapM_Ok _ h).
  2:{ intros [r c] (r' & (c' & [= -> ->]%list_elem_of_singleton
                            & Hc%elem_of_range)%list_elem_of_bind
                      & Hr%elem_of_range)%list_elem_of_bind.
      by rewrite (grid_at_cell n). }
  rewrite result_bind_Ok. eexists. split; [done|].
  intros cl. rewrite list_elem_of_In, in_concat. split.
  - intros (cls & Hcls & Hcl). apply list_elem_of_In in Hcls, Hcl.
    apply list_elem_of_fmap in Hcls as ([r c] & -> & Hp).
    apply list_elem_of_bind in Hp
      as (r' & (c' & [= -> ->]%list_elem_of_singleton
                  & Hc%elem_of_range)%list_elem_of_bind
            & Hr%elem_of_range).
    unfold h in Hcl. simpl in Hcl.
    destruct (decide (cell g r' c' ≠ 0)); [|by apply elem_of_nil in Hcl].
    apply list_elem_of_singleton in Hcl. by exists r', c'.
  - intros (r & c & Hr & Hc & Hne & ->).
    exists (h (r, c)). rewrite <- !list_elem_of_In. split.
    + apply list_elem_of_fmap. exists (r, c). split; [done|].
      apply list_elem_of_bind. exists r. split; [|by apply elem_of_range].
      apply list_elem_of_bind. exists c. split; [|by apply elem_of_range].
      left.
    + unfold h. simpl. rewrite decide_True by done. left.
Qed.

(** Every clause of the encoding is one of the three kinds, and the
    encoding has them all, an exclusion in one of its two orders. *)
Lemma elem_of_exclusions k r1 c1 m1 r2 c2 m2 :
  let n := k * k in
  0 ≤ k → placed n r1 c1 m1 → placed n r2 c2 m2 →
  conflict k r1 c1 m1 r2 c2 m2 →
  let cls := cell_exclusions n ++ row_exclusions n ++ column_exclusions n
             ++ subgrid_exclusions n k in
  [- cell_var n r1 c1 m1; - cell_var n r2 c2 m2] ∈ cls
  ∨ [- cell_var n r2 c2 m2; - cell_var n r1 c1 m1] ∈ cls.
Proof.
  intros n Hk (Hr1 & Hc1 & Hm1) (Hr2 & Hc2 & Hm2) Hconf cls. unfold cls.
  assert (∀ (A : Type) (f : A * A → list (list Z)) xs a b,
            a ∈ xs → b ∈ xs → a ≠ b →
            (∀ p, f p = [hd [] (f p)]) →
            hd [] (f (a, b)) ∈ combinations2 xs ≫= f
            ∨ hd [] (f (b, a)) ∈ combinations2 xs ≫= f) as Hpairs.
  { intros A f xs a b Ha Hb Hne Hf.
    destruct (combinations2_covers xs a b Ha Hb Hne) as [Hp|Hp];
      [left|right]; apply list_elem_of_bind; eexists; (split; [|exact Hp]);
      rewrite Hf at 2; left. }
  destruct Hconf as [(-> & -> & Hne)|(-> & Hne & [->|[->|[Hdr Hdc]]])].
  - destruct (Hpairs Z
                (λ '(num1, num2),
                   [[- cell_var n r2 c2 num1; - cell_var n r2 c2 num2]])
                (range n) m1 m2) as [Hin|Hin];
      [by apply elem_of_range..|done|by intros []|left|right];
      apply elem_of_app; left;
      (apply list_elem_of_bind; exists r2;
       split; [|by apply elem_of_range]);
      (apply list_elem_of_bind; exists c2;
       split; [|by apply elem_of_range]); exact Hin.
  - assert (c1 ≠ c2) as Hne' by congruence.
    destruct (Hpairs Z
                (λ '(col1, col2),
                   [[- cell_var n r2 col1 m2; - cell_var n r2 col2 m2]])
                (range n) c1 c2) as [Hin|Hin];
      [by apply elem_of_range..|done|by intros []|left|right];
      apply elem_of_app; right; apply elem_of_app; left;
      (apply list_elem_of_bind; exists r2;
       split; [|by apply elem_of_range]);
      (apply list_elem_of_bind; exists m2;
       split; [|by apply elem_of_range]); exact Hin.
  - assert (r1 ≠ r2) as Hne' by congruence.
    destruct (Hpairs Z
                (λ '(row1, row2),
                   [[- cell_var n row1 c2 m2; - cell_var n row2 c2 m2]])
                (range n) r1 r2) as [Hin|Hin];
      [by apply elem_of_range..|done|by intros []|left|right];
      apply elem_of_app; right; apply elem_of_app; right;
      apply elem_of_app; left;
      (apply list_elem_of_bind; exists c2;
       split; [|by apply elem_of_range]);
      (apply list_elem_of_bind; exists m2;
       split; [|by apply elem_of_range]); exact Hin.
  - assert (0 < k) as Hk' by (unfold n in *; nia).
    assert (∀ r, 0 ≤ r < n → 0 ≤ r `div` k < k) as Hbox.
    { intros r Hr. split; [apply Z.div_pos; lia|].
      apply Z.div_lt_upper_bound; unfold n in *; lia. }
    assert (∀ r c, 0 ≤ r < n → 0 ≤ c < n →
              (r, c) ∈ subgrid_cells k (r `div` k) (c `div` k)) as Hcell.
    { intros r c Hr Hc. apply elem_of_subgrid_cells.
      exists (r `mod` k), (c `mod` k).
      pose proof (Z.mod_pos_bound r k Hk').
      pose proof (Z.mod_pos_bound c k Hk').
      pose proof (Z.div_mod r k ltac:(lia)).
      pose proof (Z.div_mod c k ltac:(lia)).
      split_and!; lia. }
    pose proof (Hcell r1 c1 Hr1 Hc1) as Hin1.
    pose proof (Hcell r2 c2 Hr2 Hc2) as Hin2.
    rewrite Hdr, Hdc in Hin1.
    destruct (Hpairs (Z * Z)%type
                (λ '((r1, c1), (r2, c2)),
                   [[- cell_var n r1 c1 m2; - cell_var n r2 c2 m2]])
                (subgrid_cells k (r2 `div` k) (c2 `div` k))
                (r1, c1) (r2, c2)) as [Hin|Hin];
      [done|done|done|by intros [[] []]|left|right];
      apply elem_of_app; right; apply elem_of_app; right;
      apply elem_of_app; right;
      (apply list_elem_of_bind; exists (r2 `div` k);
       split; [|by apply elem_of_range, Hbox]);
      (apply list_elem_of_bind; exists (c2 `div` k);
       split; [|by apply elem_of_range, Hbox]);
      (apply list_elem_of_bind; exists m2;
       split; [|by apply elem_of_range]); exact Hin.
Qed.

Lemma encoded_literals k n g cl :
  puzzle k n g → encoded k n g cl →
  cl ≠ [] ∧ ∀ l, l ∈ cl → 1 ≤ Z.abs l ≤ n * n * n.
Proof.
  intros [_ _ _ Hentries] [r c Hr Hc|r1 c1 m1 r2 c2 m2 Hp1 Hp2 _|r c Hr Hc Hne].
  - split.
    + intros Hnil. assert (cell_var n r c 0 ∈ cell_var n r c <$> range n) as Hin.
      { apply list_elem_of_fmap. exists 0. split; [done|].
        apply elem_of_range. lia. }
      rewrite Hnil in Hin. by apply elem_of_nil in Hin.
    + intros l (m & -> & Hm%elem_of_range)%list_elem_of_fmap.
      pose proof (cell_var_bounds n r c m Hr Hc Hm). lia.
  - split; [done|]. destruct Hp1 as (? & ? & ?), Hp2 as (? & ? & ?).
    pose proof (cell_var_bounds n r1 c1 m1). pose proof (cell_var_bounds n r2 c2 m2).
    intros l [->|[->|[]%elem_of_nil]%elem_of_cons]%elem_of_cons; lia.
  - split; [done|]. specialize (Hentries r c Hr Hc).
    pose proof (cell_var_bounds n r c (cell g r c - 1) Hr Hc).
    intros l ->%list_elem_of_singleton. lia.
Qed.

(** A grid that solves the puzzle makes every clause true. *)
Lemma encoded_holds k n g solution cl :
  puzzle k n g → solves k n g solution → encoded k n g cl →
  ∃ l, l ∈ cl ∧ holds (placement n solution) l.
Proof.
  intros [_ _ _ Hentries] [_ _ Hsol Hrow Hcol Hbox Hgiven]
    [r c Hr Hc|r1 c1 m1 r2 c2 m2 Hp1 Hp2 Hconf|r c Hr Hc Hne].
  - specialize (Hsol r c Hr Hc).
    assert (placed n r c (cell solution r c - 1)) as Hp
      by (unfold placed; lia).
    exists (cell_var n r c (cell solution r c - 1)). split.
    + apply list_elem_of_fmap. eexists. split; [done|].
      apply elem_of_range. lia.
    + pose proof (cell_var_bounds n r c (cell solution r c - 1)) as Hb.
      unfold holds. rewrite Z.abs_eq by lia.
      rewrite placement_cell_var by done.
      rewrite bool_decide_eq_true_2 by lia. symmetry. apply Z.ltb_lt. lia.
  - pose proof Hp1 as (Hr1 & Hc1 & Hm1). pose proof Hp2 as (Hr2 & Hc2 & Hm2).
    pose proof (cell_var_bounds n r1 c1 m1 Hr1 Hc1 Hm1) as Hb1.
    pose proof (cell_var_bounds n r2 c2 m2 Hr2 Hc2 Hm2) as Hb2.
    assert (∀ r c m, placed n r c m → 1 ≤ cell_var n r c m →
              cell solution r c ≠ m + 1 →
              holds (placement n solution) (- cell_var n r c m)) as Hfalse.
    { intros r c m Hp Hb Hne. unfold holds.
      rewrite Z.abs_opp, Z.abs_eq by lia. rewrite placement_cell_var by done.
      rewrite bool_decide_eq_false_2 by done. symmetry. apply Z.ltb_ge. lia. }
    destruct (decide (cell solution r1 c1 = m1 + 1)) as [Heq1|Hne1].
    2:{ eexists. split; [left|]. apply Hfalse; [done|lia|done]. }
    eexists. split; [right; left|]. apply Hfalse; [done|lia|].
    intros Heq2.
    destruct Hconf as [(-> & -> & Hne)|(-> & Hne & [->|[->|[Hdr Hdc]]])].
    + lia.
    + apply (Hrow r2 c1 c2); [done..|congruence|lia].
    + apply (Hcol c2 r1 r2); [done..|congruence|lia].
    + apply (Hbox r1 c1 r2 c2); [done..|lia].
  - specialize (Hentries r c Hr Hc).
    assert (placed n r c (cell g r c - 1)) as Hp by (unfold placed; lia).
    pose proof (cell_var_bounds n r c (cell g r c - 1)) as Hb.
    eexists. split; [left|]. unfold holds. rewrite Z.abs_eq by lia.
    rewrite placement_cell_var by done.
    rewrite bool_decide_eq_true_2 by (rewrite Hgiven by done; lia).
    symmetry. apply Z.ltb_lt. lia.
Qed.

(** *** The decoding loop *)

Lemma write_cell_spec n solution r0 c0 num :
  Z.of_nat (length solution) = n →
  (∀ cells, cells ∈ solution → Z.of_nat (length cells) = n) →
  0 ≤ r0 < n → 0 ≤ c0 < n →
  ∃ solution',
    write_cell solution r0 c0 num = Some solution'
    ∧ Z.of_nat (length solution') = n
    ∧ (∀ cells, cells ∈ solution' → Z.of_nat (length cells) = n)
    ∧ ∀ r c, 0 ≤ r < n → 0 ≤ c < n →
        cell solution' r c
        = if decide (r = r0 ∧ c = c0) then num else cell solution r c.
Proof.
  intros Hrows Hcols Hr0 Hc0. unfold write_cell, list_index.
  rewrite decide_True by lia. simpl.
  destruct (lookup_lt_is_Some_2 solution (Z.to_nat r0)) as [cells Hcells];
    [lia|].
  rewrite Hcells. simpl.
  pose proof (Hcols cells (list_elem_of_lookup_2 _ _ _ Hcells)) as Hlen.
  rewrite decide_True by lia. simpl.
  eexists. split; [done|]. split_and!.
  - by rewrite length_insert.
  - intros cells' (i & Hi)%list_elem_of_lookup_1.
    destruct (decide (i = Z.to_nat r0)) as [->|Hne].
    + rewrite list_lookup_insert_eq in Hi
        by (apply lookup_lt_is_Some; by eexists).
      injection Hi as <-. by rewrite length_insert.
    + rewrite list_lookup_insert_ne in Hi by done.
      apply list_elem_of_lookup_2 in Hi. by apply Hcols.
  - intros r c Hr Hc. unfold cell.
    destruct (decide (r = r0)) as [->|Hner].
    + rewrite list_lookup_insert_eq by (apply lookup_lt_is_Some; by eexists).
      rewrite Hcells. simpl.
      destruct (decide (c = c0)) as [->|Hnec].
      * rewrite decide_True by done.
        rewrite list_lookup_insert_eq by lia. done.
      * rewrite decide_False by (intros [_ ?]; done).
        rewrite list_lookup_insert_ne by lia. done.
    + rewrite decide_False by (intros [? _]; done).
      rewrite list_lookup_insert_ne by lia. done.
Qed.

Lemma decode_items_spec n items :
  0 ≤ n →
  (∀ x, (x, true) ∈ items → 1 ≤ x ≤ n * n * n) →
  ∀ solution,
    Z.of_nat (length solution) = n →
    (∀ cells, cells ∈ solution → Z.of_nat (length cells) = n) →
    ∃ solution',
      decode_items n items solution = Solution solution'
      ∧ Z.of_nat (length solution') = n
      ∧ (∀ cells, cells ∈ solution' → Z.of_nat (length cells) = n)
      ∧ ∀ r c, 0 ≤ r < n → 0 ≤ c < n →
          (cell solution' r c = cell solution r c
           ∧ ∀ m, placed n r c m → (cell_var n r c m, true) ∉ items)
          ∨ ∃ m, placed n r c m ∧ (cell_var n r c m, true) ∈ items
                 ∧ cell solution' r c = m + 1.
Proof.
  intros Hn. induction items as [|[x b] items IH];
    intros Hitems solution Hrows Hcols.
  { exists solution. split_and!; [done..|]. intros r c _ _. left.
    split; [done|]. intros m _. apply not_elem_of_nil. }
  assert (∀ y, (y, true) ∈ items → 1 ≤ y ≤ n * n * n) as Hitems'
    by (intros y Hy; apply Hitems; by right).
  destruct b; cbn [decode_items].
  2:{ destruct (IH Hitems' solution Hrows Hcols)
        as (solution' & -> & Hrows' & Hcols' & Hcells).
      exists solution'. split_and!; [done..|]. intros r c Hr Hc.
      destruct (Hcells r c Hr Hc) as [[Heq Hno]|(m & Hp & Hin & Heq)].
      - left. split; [done|]. intros m Hp [[=]|Hin]%elem_of_cons.
        by apply (Hno m).
      - right. exists m. split_and!; [done| by right|done]. }
  pose proof (Hitems x ltac:(left)) as Hx.
  rewrite decide_False by (intros ->; lia).
  destruct (variable_placed n x Hx) as (r0 & c0 & m0 & Hp0 & ->).
  rewrite decode_cell_var by done.
  destruct Hp0 as (Hr0 & Hc0 & Hm0).
  destruct (write_cell_spec n solution r0 c0 (m0 + 1) Hrows Hcols Hr0 Hc0)
    as (solution1 & -> & Hrows1 & Hcols1 & Hcells1).
  destruct (IH Hitems' solution1 Hrows1 Hcols1)
    as (solution' & -> & Hrows' & Hcols' & Hcells).
  exists solution'. split_and!; [done..|]. intros r c Hr Hc.
  destruct (Hcells r c Hr Hc) as [[Heq Hno]|(m & Hp & Hin & Heq)].
  2:{ right. exists m. split_and!; [done|by right|done]. }
  rewrite Hcells1 in Heq by done.
  destruct (decide (r = r0 ∧ c = c0)) as [[-> ->]|Hne].
  - right. exists m0. split_and!; [done|left|done].
  - left. split; [done|]. intros m (_ & _ & Hm) [[= Hv]|Hin]%elem_of_cons.
    + apply cell_var_inj in Hv as (-> & -> & _); [|done..]. by apply Hne.
    + by apply (Hno m).
Qed.

(** The assignments of a successful run give a grid that solves the
    puzzle. *)
Lemma decode_solves k n g (a : gmap Z bool) items :
  puzzle k n g →
  items ≡ₚ map_to_list a →
  (∀ x b, a !! x = Some b → 1 ≤ x ≤ n * n * n) →
  (∀ r c, 0 ≤ r < n → 0 ≤ c < n →
     ∃ m, 0 ≤ m < n ∧ a !! cell_var n r c m = Some true) →
  (∀ r1 c1 m1 r2 c2 m2,
     placed n r1 c1 m1 → placed n r2 c2 m2 →
     conflict k r1 c1 m1 r2 c2 m2 →
     a !! cell_var n r1 c1 m1 = Some true →
     a !! cell_var n r2 c2 m2 = Some true → False) →
  (∀ r c, 0 ≤ r < n → 0 ≤ c < n → cell g r c ≠ 0 →
     a !! cell_var n r c (cell g r c - 1) = Some true) →
  ∃ solution,
    decode_items n items
      (replicate (Z.to_nat n) (replicate (Z.to_nat n) 0))
    = Solution solution
    ∧ solves k n g solution.
Proof.
  intros Hpuzzle Hperm Hrange Htotal Hexcl Hgiven.
  pose proof Hpuzzle as [[Hside Hk] Hrows Hcols Hentries].
  assert (0 ≤ n) as Hn by lia.
  assert (∀ x b, (x, b) ∈ items ↔ a !! x = Some b) as Hitems.
  { intros x b. rewrite Hperm. apply elem_of_map_to_list. }
  destruct (decode_items_spec n items Hn) with
    (solution := replicate (Z.to_nat n) (replicate (Z.to_nat n) 0))
    as (solution & Hrun & Hrows' & Hcols' & Hcells).
  { intros x Hx%Hitems. by apply (Hrange x true). }
  { rewrite length_replicate. lia. }
  { intros cells [-> _]%elem_of_replicate. rewrite length_replicate. lia. }
  exists solution. split; [done|].
  assert (∀ r c, 0 ≤ r < n → 0 ≤ c < n →
            ∃ m, 0 ≤ m < n ∧ cell solution r c = m + 1
                 ∧ a !! cell_var n r c m = Some true) as Hcell.
  { intros r c Hr Hc.
    destruct (Hcells r c Hr Hc) as [[_ Hno]|(m & Hp & Hin%Hitems & Heq)].
    - destruct (Htotal r c Hr Hc) as (m & Hm & Hin%Hitems).
      by destruct (Hno m).
    - exists m. by destruct Hp as (_ & _ & ?). }
  assert (∀ r c m, placed n r c m → a !! cell_var n r c m = Some true →
            cell solution r c = m + 1) as Hfrom.
  { intros r c m Hp Hm. pose proof Hp as (Hr & Hc & _).
    destruct (Hcell r c Hr Hc) as (m' & Hm' & -> & Htrue).
    destruct (decide (m' = m)) as [->|Hne]; [done|].
    destruct (Hexcl r c m' r c m); [done|done|by left|done..]. }
  split; [done|done|..].
  - intros r c Hr Hc. destruct (Hcell r c Hr Hc) as (m & Hm & -> & _). lia.
  - intros r c1 c2 Hr Hc1 Hc2 Hne Heq.
    destruct (Hcell r c1 Hr Hc1) as (m1 & Hm1 & Heq1 & Ht1).
    destruct (Hcell r c2 Hr Hc2) as (m2 & Hm2 & Heq2 & Ht2).
    assert (m1 = m2) as -> by lia.
    apply (Hexcl r c1 m2 r c2 m2); [done..| |done|done].
    right. split_and!; [done|congruence|by left].
  - intros c r1 r2 Hc Hr1 Hr2 Hne Heq.
    destruct (Hcell r1 c Hr1 Hc) as (m1 & Hm1 & Heq1 & Ht1).
    destruct (Hcell r2 c Hr2 Hc) as (m2 & Hm2 & Heq2 & Ht2).
    assert (m1 = m2) as -> by lia.
    apply (Hexcl r1 c m2 r2 c m2); [done..| |done|done].
    right. split_and!; [done|congruence|right; by left].
  - intros r1 c1 r2 c2 Hr1 Hc1 Hr2 Hc2 Hne Hdr Hdc Heq.
    destruct (Hcell r1 c1 Hr1 Hc1) as (m1 & Hm1 & Heq1 & Ht1).
    destruct (Hcell r2 c2 Hr2 Hc2) as (m2 & Hm2 & Heq2 & Ht2).
    assert (m1 = m2) as -> by lia.
    apply (Hexcl r1 c1 m2 r2 c2 m2); [done..| |done|done].
    right. split_and!; [done|done|by right; right].
  - intros r c Hr Hc Hne. specialize (Hentries r c Hr Hc).
    rewrite (Hfrom r c (cell g r c - 1)); [lia| |by apply Hgiven].
    unfold placed. lia.
Qed.

End sudoku_dp_encoding.

Section sudoku_dp_solution.
Import Sudoku SudokuDP.
Context `{SetIteration} `{ClauseIteration} `{ItemsIteration}.

Lemma encode_sudoku_clauses k n g :
  puzzle k n g →
  ∃ cls,
    encode_sudoku g
    = Ok (foldl (λ solver clause, add_clause clause solver) init cls)
    ∧ (∀ cl, cl ∈ cls → encoded k n g cl)
    ∧ (∀ r c, 0 ≤ r < n → 0 ≤ c < n → (cell_var n r c <$> range n) ∈ cls)
    ∧ (∀ r1 c1 m1 r2 c2 m2,
         placed n r1 c1 m1 → placed n r2 c2 m2 →
         conflict k r1 c1 m1 r2 c2 m2 →
         [- cell_var n r1 c1 m1; - cell_var n r2 c2 m2] ∈ cls
         ∨ [- cell_var n r2 c2 m2; - cell_var n r1 c1 m1] ∈ cls)
    ∧ (∀ r c, 0 ≤ r < n → 0 ≤ c < n → cell g r c ≠ 0 →
         [cell_var n r c (cell g r c - 1)] ∈ cls).
Proof.
  intros Hpuzzle. pose proof Hpuzzle as [[Hside Hk] Hrows Hcols Hentries].
  destruct (given_clauses_Ok k n g Hpuzzle) as (givens & Hrun & Hgivens).
  unfold encode_sudoku. cbv zeta. rewrite Hrows, Hrun, result_bind_Ok.
  subst n. rewrite Z.sqrt_square by done.
  eexists. split; [done|]. split_and!.
  - intros cl [Hcl|[Hcl|[Hcl|[Hcl|[Hcl|Hcl]%elem_of_app]%elem_of_app
                   ]%elem_of_app]%elem_of_app]%elem_of_app.
    + by apply cell_clauses_encoded.
    + by apply cell_exclusions_encoded.
    + by apply row_exclusions_encoded.
    + by apply column_exclusions_encoded.
    + by apply subgrid_exclusions_encoded.
    + apply Hgivens in Hcl as (r & c & Hr & Hc & Hne & ->).
      by apply encoded_given.
  - intros r c Hr Hc. apply elem_of_app. left. by apply elem_of_cell_clauses.
  - intros r1 c1 m1 r2 c2 m2 Hp1 Hp2 Hconf.
    destruct (elem_of_exclusions k r1 c1 m1 r2 c2 m2 Hk Hp1 Hp2 Hconf)
      as [Hin|Hin]; [left|right];
      apply elem_of_app; right; rewrite !(assoc_L (++));
      apply elem_of_app; left; by rewrite <- !(assoc_L (++)).
  - intros r c Hr Hc Hne. rewrite !(assoc_L (++)). apply elem_of_app. right.
    apply Hgivens. by exists r, c.
Qed.

Lemma sudoku_solver_result k n g cls fuel b s' :
  puzzle k n g →
  encode_sudoku g
  = Ok (foldl (λ solver clause, add_clause clause solver) init cls) →
  (∀ cl, cl ∈ cls → encoded k n g cl) →
  (∀ r c, 0 ≤ r < n → 0 ≤ c < n → (cell_var n r c <$> range n) ∈ cls) →
  (∀ r1 c1 m1 r2 c2 m2,
     placed n r1 c1 m1 → placed n r2 c2 m2 →
     conflict k r1 c1 m1 r2 c2 m2 →
     [- cell_var n r1 c1 m1; - cell_var n r2 c2 m2] ∈ cls
     ∨ [- cell_var n r2 c2 m2; - cell_var n r1 c1 m1] ∈ cls) →
  (∀ r c, 0 ≤ r < n → 0 ≤ c < n → cell g r c ≠ 0 →
     [cell_var n r c (cell g r c - 1)] ∈ cls) →
  solve fuel (foldl (λ solver clause, add_clause clause solver) init cls)
  = Ok (b, s') →
  if b
  then ∃ solution,
         decode_items n (iter_items (assignments s'))
           (replicate (Z.to_nat n) (replicate (Z.to_nat n) 0))
         = Solution solution
         ∧ solves k n g solution
  else ∀ solution, ¬ solves k n g solution.
Proof.
  intros Hpuzzle _ Hform Hcells Hexcl Hgiven Hrun.
  destruct (add_clauses_ready cls) as (Hready & Ha & Hcs & Hvars).
  { intros c Hc.
    destruct (encoded_literals k n g c Hpuzzle (Hform c Hc)) as [Hne Hb].
    split; [done|]. intros Hzero%Hb. simpl in Hzero. lia. }
  cbv zeta in *.
  set (s := foldl (λ solver clause, add_clause clause solver) init cls) in *.
  pose proof (solve_result s fuel b s' Hready Hrun) as Hres.
  assert (∀ r c m, placed n r c m → 1 ≤ cell_var n r c m) as Hpos.
  { intros r c m (Hr & Hc & Hm).
    pose proof (cell_var_bounds n r c m Hr Hc Hm). lia. }
  destruct b.
  - destruct Hres as (_ & Hdom & Hsat).
    assert (∀ cl, cl ∈ cls →
              ∃ l, l ∈ cl ∧ assignments s' !! Z.abs l = Some (0 <? l))
      as Hsat'.
    { intros cl Hcl. destruct (Hsat (list_to_set cl)) as (l & Hl & Ht).
      - apply Hcs. by exists cl.
      - exists l. split; [by apply elem_of_list_to_set in Hl|done]. }
    assert (∀ v, 1 ≤ v →
              assignments s' !! Z.abs (- v) = Some (0 <? - v) →
              assignments s' !! v = Some false) as Hneg.
    { intros v Hv. rewrite Z.abs_opp, Z.abs_eq by lia.
      intros ->. f_equal. apply Z.ltb_ge. lia. }
    apply (decode_solves k n g (assignments s'));
      [done|apply iter_items_perm|..].
    + intros x b Hx. destruct (Hdom x) as [Hx'|Hx']; [by eexists| |].
      { rewrite Ha, lookup_empty in Hx'. by destruct Hx'. }
      destruct (Hvars x Hx') as (cl & l & Hcl & Hl & ->).
      by apply (encoded_literals k n g cl Hpuzzle (Hform cl Hcl)).
    + intros r c Hr Hc.
      destruct (Hsat' _ (Hcells r c Hr Hc))
        as (l & (m & -> & Hm%elem_of_range)%list_elem_of_fmap & Ht).
      exists m. split; [done|].
      pose proof (Hpos r c m ltac:(done)).
      rewrite Z.abs_eq in Ht by lia. rewrite Ht. f_equal.
      apply Z.ltb_lt. lia.
    + intros r1 c1 m1 r2 c2 m2 Hp1 Hp2 Hconf Ht1 Ht2.
      pose proof (Hpos r1 c1 m1 Hp1). pose proof (Hpos r2 c2 m2 Hp2).
      destruct (Hexcl r1 c1 m1 r2 c2 m2 Hp1 Hp2 Hconf) as [Hin|Hin];
        destruct (Hsat' _ Hin)
        as (l & [->|[->|[]%elem_of_nil]%elem_of_cons]%elem_of_cons
              & Ht%Hneg); congruence || lia.
    + intros r c Hr Hc Hne.
      destruct (Hsat' _ (Hgiven r c Hr Hc Hne))
        as (l & ->%list_elem_of_singleton & Ht).
      destruct Hpuzzle as [_ _ _ Hentries]. specialize (Hentries r c Hr Hc).
      pose proof (Hpos r c (cell g r c - 1) ltac:(unfold placed; lia)).
      rewrite Z.abs_eq in Ht by lia. rewrite Ht. f_equal.
      apply Z.ltb_lt. lia.
  - intros solution Hsol. apply Hres. exists (placement n solution). split.
    + intros x b. by rewrite Ha, lookup_empty.
    + intros c (cl & Hcl & ->)%Hcs.
      destruct (encoded_holds k n g solution cl Hpuzzle Hsol (Hform cl Hcl))
        as (l & Hl & Hh).
      exists l. split; [by apply elem_of_list_to_set|done].
Qed.

Lemma mapM_Raise {A B} (f : A → result B) (l : list A) e x :
  (∀ y, y ∈ l → (∃ b, f y = Ok b) ∨ f y = Raise e) →
  x ∈ l → f x = Raise e → mapM f l = Raise e.
Proof.
  intros Hf Hx Hraise. induction l as [|y l IH]; [by apply elem_of_nil in Hx|].
  simpl. destruct (Hf y) as [[b Hb]|Hb]; [left| |by rewrite Hb].
  rewrite Hb, result_bind_Ok.
  apply elem_of_cons in Hx as [Hx|Hx]; [subst; congruence|].
  rewrite IH; [done| |done]. intros z Hz. apply Hf. by right.
Qed.

(** X26: a grid with a row shorter than the number of rows makes
    [encode_sudoku], and so [solve_sudoku_dp], raise [IndexError]. *)
Theorem encode_sudoku_short_row g cells :
  cells ∈ g → (length cells < length g)%nat →
  encode_sudoku g = Raise IndexError
  ∧ ∀ fuel, solve_sudoku_dp fuel g = Raise IndexError.
Proof.
  intros (i & Hi)%list_elem_of_lookup_1 Hshort.
  pose proof (lookup_lt_Some _ _ _ Hi) as Hlt.
  assert (encode_sudoku g = Raise IndexError) as Henc.
  { unfold encode_sudoku, given_clauses. cbv zeta.
    rewrite (mapM_Raise _ _ IndexError
               (Z.of_nat i, Z.of_nat (length cells))); [done| | |].
    - intros [r c] (r' & (c' & [= -> ->]%list_elem_of_singleton
                              & Hc%elem_of_range)%list_elem_of_bind
                        & Hr%elem_of_range)%list_elem_of_bind.
      unfold grid_at.
      destruct (lookup_lt_is_Some_2 g (Z.to_nat r')) as [row ->]; [lia|].
      simpl. destruct (row !! Z.to_nat c') as [x|]; simpl; [left|by right].
      by eexists.
    - apply list_elem_of_bind. exists (Z.of_nat i).
      split; [|apply elem_of_range; lia].
      apply list_elem_of_bind. exists (Z.of_nat (length cells)).
      split; [left|apply elem_of_range; lia].
    - unfold grid_at. rewrite !Nat2Z.id, Hi. simpl.
      by rewrite lookup_ge_None_2. }
  split; [done|]. intros fuel. unfold solve_sudoku_dp. by rewrite Henc.
Qed.

(** X25: on a puzzle of side k*k, [solve_sudoku_dp] ends, with a grid that
    solves the puzzle or with [None] when no grid does; the decoding
    loop raises nothing. *)
Theorem solve_sudoku_dp_correct k n g :
  puzzle k n g →
  (∃ fuel out st, solve_sudoku_dp fuel g = Ok (out, st))
  ∧ ∀ fuel out st,
      solve_sudoku_dp fuel g = Ok (out, st) →
      match out with
      | Solution solution => solves k n g solution
      | NoSolution => ∀ solution, ¬ solves k n g solution
      | DecodeIndexError | DecodeZeroDivisionError => False
      end.
Proof.
  intros Hpuzzle.
  destruct (encode_sudoku_clauses k n g Hpuzzle)
    as (cls & Henc & Hform & Hcells & Hexcl & Hgiven).
  pose proof (λ fuel b s',
                sudoku_solver_result k n g cls fuel b s' Hpuzzle Henc
                  Hform Hcells Hexcl Hgiven) as Hout.
  destruct (add_clauses_ready cls) as (Hready & _).
  { intros c Hc.
    destruct (encoded_literals k n g c Hpuzzle (Hform c Hc)) as [Hne Hb].
    split; [done|]. intros Hzero%Hb. simpl in Hzero. lia. }
  cbv zeta in Hready.
  destruct Hpuzzle as [_ Hrows _ _].
  unfold solve_sudoku_dp. rewrite Henc, Hrows.
  set (s := foldl (λ solver clause, add_clause clause solver) init cls) in *.
  split.
  - destruct (solve_run (S (size (open_variables s)))
                (size (clauses s) + 2 * S (size (open_variables s))) s)
      as (b & s' & Hrun & _); [done|lia|lia|].
    eexists. rewrite result_bind_Ok, Hrun, result_bind_Ok.
    destruct b; by eexists _, _.
  - intros fuel out st. rewrite result_bind_Ok.
    destruct (solve fuel s) as [[b s']| |] eqn:Hrun; try done.
    rewrite result_bind_Ok. specialize (Hout fuel b s' Hrun).
    destruct b; intros [= <- <-]; [|done].
    by destruct Hout as (solution & -> & Hsolves).
Qed.

End sudoku_dp_solution.

Section sudoku_dp_examples.
Import Sudoku SudokuDP.
#[local] Existing Instance elements_order.
#[local] Existing Instance clause_elements_order.
#[local] Existing Instance items_order.

Lemma example_clauses_wellformed :
  ∀ c : list Z, c ∈ [[1; 2]; [-1; 2]; [-2; 3]] → c ≠ [] ∧ 0 ∉ c.
Proof.
  intros c Hc.
  repeat (apply elem_of_cons in Hc as [->|Hc]);
    [..|by apply elem_of_nil in Hc];
    (split; [done|]); rewrite !elem_of_cons, elem_of_nil; lia.
Qed.

Lemma davis_putnam_unit_propagation_witness :
  (∃ fuel ok s', unit_propagate fuel example_solver = Ok (ok, s'))
  ∧ ∀ fuel ok s',
      unit_propagate fuel example_solver = Ok (ok, s') →
      if ok
      then ready s' ∧ follows example_solver s' ∧ ∀ l, {[l]} ∉ clauses s'
      else refuted example_solver.
Proof.
  apply (davis_putnam_unit_propagation example_solver).
  apply (add_clauses_ready _ example_clauses_wellformed).
Defined.

Lemma davis_putnam_pure_literals_witness :
  let s' := pure_literal_elimination example_solver in
  (∀ c, c ∈ clauses s' ↔
     c ∈ clauses example_solver
     ∧ ∀ p, p ∈ c → ∃ c', c' ∈ clauses example_solver ∧ - p ∈ c')
  ∧ (∀ p, (∃ c, c ∈ clauses example_solver ∧ p ∈ c) →
          (¬ ∃ c, c ∈ clauses example_solver ∧ - p ∈ c) →
          assignments s' !! Z.abs p = Some (0 <? p))
  ∧ assignments example_solver ⊆ assignments s'
  ∧ ready s'.
Proof.
  apply (davis_putnam_pure_literals example_solver).
  apply (add_clauses_ready _ example_clauses_wellformed).
Defined.

Lemma davis_putnam_decides_witness :
  (∃ fuel b s', solve fuel example_solver = Ok (b, s'))
  ∧ ∀ fuel b s',
      solve fuel example_solver = Ok (b, s') →
      if b
      then assignments example_solver ⊆ assignments s'
           ∧ (∀ x, is_Some (assignments s' !! x) →
                is_Some (assignments example_solver !! x)
                ∨ x ∈ variables example_solver)
           ∧ ∀ c, c ∈ clauses example_solver → sat_by (assignments s') c
      else refuted example_solver.
Proof.
  apply (davis_putnam_decides example_solver).
  apply (add_clauses_ready _ example_clauses_wellformed).
Defined.

Lemma davis_putnam_on_clauses_witness :
  let s := foldl (λ s c, add_clause c s) init [[1; 2]; [-1; 2]; [-2; 3]] in
  (∃ fuel b s', solve fuel s = Ok (b, s'))
  ∧ ∀ fuel b s',
      solve fuel s = Ok (b, s') →
      if b
      then ∀ c, c ∈ [[1; 2]; [-1; 2]; [-2; 3]] →
             ∃ l, l ∈ c ∧ assignments s' !! Z.abs l = Some (0 <? l)
      else ¬ ∃ v : Z → bool,
               ∀ c, c ∈ [[1; 2]; [-1; 2]; [-2; 3]] →
                 ∃ l, l ∈ c ∧ v (Z.abs l) = (0 <? l).
Proof.
  apply (davis_putnam_on_clauses [[1; 2]; [-1; 2]; [-2; 3]]).
  intros c Hc.
  repeat (apply elem_of_cons in Hc as [->|Hc]);
    [..|by apply elem_of_nil in Hc];
    (split; [done|]); rewrite !elem_of_cons, elem_of_nil; lia.
Defined.

Lemma solve_sudoku_dp_correct_witness :
  (∃ fuel out st, solve_sudoku_dp fuel example_puzzle = Ok (out, st))
  ∧ ∀ fuel out st,
      solve_sudoku_dp fuel example_puzzle = Ok (out, st) →
      match out with
      | Solution solution => solves 2 4 example_puzzle solution
      | NoSolution => ∀ solution, ¬ solves 2 4 example_puzzle solution
      | DecodeIndexError | DecodeZeroDivisionError => False
      end.
Proof.
  apply (solve_sudoku_dp_correct 2 4 example_puzzle).
  split; [lia|done| |].
  - intros cells Hc.
    repeat (apply elem_of_cons in Hc as [->|Hc]);
      [..|by apply elem_of_nil in Hc]; done.
  - intros r c Hr Hc.
    assert (r = 0 ∨ r = 1 ∨ r = 2 ∨ r = 3) as Hr' by lia.
    assert (c = 0 ∨ c = 1 ∨ c = 2 ∨ c = 3) as Hc' by lia.
    destruct Hr' as [->|[->|[->| ->]]], Hc' as [->|[->|[->| ->]]];
      vm_compute; split; discriminate.
Defined.

Lemma encode_sudoku_short_row_witness :
  encode_sudoku [[0; 0]; [0]] = Raise IndexError
  ∧ ∀ fuel, solve_sudoku_dp fuel [[0; 0]; [0]] = Raise IndexError.
Proof.
  apply (encode_sudoku_short_row [[0; 0]; [0]] [0]).
  - right. left.
  - simpl. lia.
Defined.

End sudoku_dp_examples.
